(** * Kokkos OpenMP back end: partitioning, reduction merge and two-pass scan

    A shallow embedding of [core/src/OpenMP/Kokkos_OpenMP_Parallel.hpp]:
    the [execute] members of [ParallelFor], [ParallelReduce], [ParallelScan]
    and [ParallelScanWithTotal] over a [RangePolicy], and of [ParallelFor] and
    [ParallelReduce] over an [MDRangePolicy] and over a [TeamPolicy]; and of
    [version_string_from_int], [push_finalize_hook] and [finalize_internal]
    of [core/src/impl/Kokkos_Core.cpp].

    Conventions.
    - Iteration indices are [int64_t] in the source.  Signed overflow is
      undefined in C++, so indices are mathematical integers ([Z]) and the
      statements cover the executions whose index arithmetic stays in range.
    - Worker (thread) ranks and the pool size are [nat]; the scratch buffers
      [pool_reduce_local()] of the pool are a [list], one entry per rank.
    - A reduction value has an arbitrary type [V]; a [Reducer] packs
      [init], [join] and [final] as functions on [V].
    - A [for (i = b; i < e; ++i)] loop is a left fold over [seqZ b (e - b)],
      which is empty as soon as [e <= b].
    - A parallel region is sequentialised worker by worker where the workers
      touch disjoint state; what is really shared (the work-stealing cursor,
      the team barrier) is modelled by an explicit schedule.
    - [HostThreadTeamData] (work partition, work stealing, rendezvous, team
      organisation) and [RangePolicy::WorkRange] are used by the header but
      declared elsewhere; their models follow the specification and say so. *)

From stdpp Require Import list strings pretty.

Open Scope Z_scope.

(** ** Policies *)

Inductive schedule_type := Static | Dynamic.

Record RangePolicy := {
  pbegin : Z;              (* m_policy.begin() *)
  pend : Z;                (* m_policy.end() *)
  chunk_size : Z;          (* m_policy.chunk_size() *)
  schedule : schedule_type (* Policy::schedule_type *)
}.

(** The index list of the half-open range [[b, e)], ascending. *)
Definition indices (b e : Z) : list Z := seqZ b (e - b).

(** ** WorkPartitioner: static slices *)

Module WorkPartitioner.

(** Number of chunks needed to cover [total] iterations; a range whose
    end lies before its begin has no iteration. *)
Definition chunk_count (total chunk : Z) : Z :=
  (Z.max 0 total + chunk - 1) / chunk.

(** Chunks owned by [rank] when [num] chunks are dealt to [parts]
    workers: every worker gets the quotient, the [num mod parts]
    lowest ranks one more. *)
Definition slice_chunks (num parts rank : Z) : Z :=
  num / parts + (if rank <? num mod parts then 1 else 0).

(** Index of the first chunk of [rank]: all chunks of the lower ranks. *)
Definition slice_first (num parts rank : Z) : Z :=
  rank * (num / parts) + Z.min rank (num mod parts).

(** Modelled from the spec: [HostThreadTeamData::set_work_partition] and
    [get_work_partition] are declared in a header that is not among the sources.  The
    spec (4.1) has the static slice of a worker "computed by dividing
    total into pool_size slices sized as multiples of chunk_size,
    remainder assigned to the lowest-ranked workers (ceiling
    distribution), so slice sizes differ by at most one chunk": rank [r]
    owns [slice_chunks] whole chunks starting at chunk [slice_first], cut
    at [total].  The result is the pair (first, second) of offsets
    relative to the policy's begin. *)
Definition get_work_partition (total chunk : Z) (parts rank : nat)
  : Z * Z :=
  let num := chunk_count total chunk in
  let first := slice_first num (Z.of_nat parts) (Z.of_nat rank) in
  let count := slice_chunks num (Z.of_nat parts) (Z.of_nat rank) in
  (Z.min (first * chunk) (Z.max 0 total),
   Z.min ((first + count) * chunk) (Z.max 0 total)).

(** Modelled from the spec: [RangePolicy::WorkRange] is declared outside
    the sources at hand.  The spec (4.5, step 1) makes it "each worker's
    contiguous slice of the index range (in ascending rank order, this is
    a static range split)", that is the static slice above moved to the
    policy's begin. *)
Definition WorkRange (p : RangePolicy) (part_rank part_size : nat)
  : Z * Z :=
  let r := get_work_partition (pend p - pbegin p) (chunk_size p)
                              part_size part_rank in
  (pbegin p + r.1, pbegin p + r.2).

(** The cut points of the static split: where the slice of each rank
    starts, as an offset into the range. *)
Definition cut (total chunk : Z) (parts rank : nat) : Z :=
  Z.min (slice_first (chunk_count total chunk) (Z.of_nat parts) (Z.of_nat rank)
         * chunk) (Z.max 0 total).

(** Where the slice of [rank] starts in the index range of policy [p]. *)
Definition slice_begin (p : RangePolicy) (parts rank : nat) : Z :=
  pbegin p + cut (pend p - pbegin p) (chunk_size p) parts rank.

(** The indices of the slice of [rank] in the index range of [p]. *)
Definition slice_of (p : RangePolicy) (parts rank : nat) : list Z :=
  indices (slice_begin p parts rank) (slice_begin p parts (S rank)).

(** The indices of one slice, and of all slices in rank order. *)
Definition slice_indices (total chunk : Z) (parts rank : nat) : list Z :=
  let r := get_work_partition total chunk parts rank in indices r.1 r.2.

Definition all_slices (total chunk : Z) (parts : nat) : list (list Z) :=
  (λ rank, slice_indices total chunk parts rank) <$> seq 0 parts.

End WorkPartitioner.

(** ** WorkPartitioner: work stealing *)

Module WorkStealing.

(** Modelled from the spec: [HostThreadTeamData::get_work_stealing_chunk]
    is declared in a header that is not among the sources.  The spec (4.1) has it
    "atomically claim and return the next chunk_size-sized sub-range from
    a pool-shared cursor", and "return a sentinel with negative first
    when the shared range is exhausted".  The function takes the cursor
    and returns the claimed range with the advanced cursor; the sentinel
    is the pair (-1, -1), an empty range. *)
Definition get_work_stealing_chunk (total chunk cursor : Z)
  : (Z * Z) * Z :=
  if cursor <? total
  then ((cursor, Z.min (cursor + chunk) total), cursor + chunk)
  else ((-1, -1), cursor).

(** The state of the shared range during a region: the cursor and, for
    every worker, the ranges its calls have returned so far, oldest first. *)
Definition steal_state : Type := Z * list (list (Z * Z)).

(** A worker has left its [do ... while (0 <= range.first)] loop once
    the last range it received has a negative first. *)
Definition finished (rs : list (Z * Z)) : bool :=
  match last rs with
  | Some r => r.1 <? 0
  | None => false
  end.

(** Modelled from the spec: the cursor is "pool-shared" and "contention
    [is] resolved by atomic compare-and-swap on the cursor" (4.1), so a
    claim is one atomic step.  Worker [w] reaches the cursor: unless it
    has left its loop it claims once. *)
Definition steal_step (total chunk : Z) (st : steal_state) (w : nat)
  : steal_state :=
  match st.2 !! w with
  | Some rs =>
      if finished rs then st
      else let '(r, cursor') := get_work_stealing_chunk total chunk st.1 in
           (cursor', <[w := rs ++ [r]]> st.2)
  | None => st
  end.

(** Once the given arrival order is used up, the workers still in their
    loop finish one after the other: each needs at most one call per
    remaining chunk and one for the sentinel. *)
Definition drain (total chunk : Z) (pool : nat) : list nat :=
  let calls := S (Z.to_nat (WorkPartitioner.chunk_count total chunk)) in
  concat ((λ w, replicate calls w) <$> seq 0 pool).

(** The ranges every worker receives in a region of [pool] workers,
    when the workers reach the cursor in the order [arrivals] (a list of
    ranks; which interleaving happens is the scheduler's choice). *)
Definition steal_run (total chunk : Z) (pool : nat) (arrivals : list nat)
  : list (list (Z * Z)) :=
  (foldl (steal_step total chunk) (0, replicate pool [])
         (arrivals ++ drain total chunk pool)).2.

(** The indices of a returned range once moved to the policy's begin
    [b], and all the indices a worker, or the pool, has received. *)
Definition range_indices (b : Z) (r : Z * Z) : list Z :=
  indices (r.1 + b) (r.2 + b).

Definition worker_indices (b : Z) (rs : list (Z * Z)) : list Z :=
  concat (range_indices b <$> rs).

Definition claimed_indices (b : Z) (rss : list (list (Z * Z))) : list Z :=
  concat (worker_indices b <$> rss).

(** A worker stops asking after the first negative answer. *)
Definition stops_at_sentinel (rs : list (Z * Z)) : Prop :=
  ∀ i r, rs !! i = Some r → r.1 < 0 → S i = length rs.

(** What every reachable state of the shared range satisfies. *)
Record steal_inv (total chunk b : Z) (pool : nat) (st : steal_state)
  : Prop := {
  inv_cursor : 0 ≤ st.1;
  inv_pool : length st.2 = pool;
  inv_claimed :
    claimed_indices b st.2 ≡ₚ indices b (b + Z.min st.1 (Z.max 0 total));
  inv_stops : Forall stops_at_sentinel st.2;
  inv_done : Forall (λ rs, finished rs = true → total ≤ st.1) st.2
}.

End WorkStealing.

(** The loop shared by the three engines,
<<
    do {
      range = is_dynamic ? data.get_work_stealing_chunk()
                         : data.get_work_partition();
      body(range);
    } while (is_dynamic && 0 <= range.first);
>>
    run on the stream [rs] of ranges that the successive calls return. *)
Fixpoint do_while {St : Type} (is_dynamic : bool) (body : Z * Z → St → St)
    (rs : list (Z * Z)) (s : St) : St :=
  match rs with
  | [] => s
  | r :: rs' =>
      let s' := body r s in
      if is_dynamic && (0 <=? r.1) then do_while is_dynamic body rs' s' else s'
  end.

Definition is_dynamic (p : RangePolicy) : bool :=
  match schedule p with Dynamic => true | Static => false end.

(** The ranges worker [rank] of [pool] receives for policy [p]. *)
Definition work_ranges (p : RangePolicy) (pool : nat) (arrivals : list nat)
    (rank : nat) : list (Z * Z) :=
  let total := pend p - pbegin p in
  if is_dynamic p
  then default []
         (WorkStealing.steal_run total (chunk_size p) pool arrivals !! rank)
  else [WorkPartitioner.get_work_partition total (chunk_size p) pool rank].

(** ** ParallelFor over a RangePolicy *)

Module ParallelForRange.

(** What a thread is seen to do: call the functor on an index, or take
    part in the pool rendezvous. *)
Inductive event :=
| Call (iwork : Z)
| PoolRendezvous.

(** [exec_range]: [for (iwork = ibeg; iwork < iend; ++iwork)
    exec_work(functor, iwork)]; both overloads of [exec_work] call the
    functor once. *)
Definition exec_range (ibeg iend : Z) : list event :=
  Call <$> indices ibeg iend.

(** [#pragma omp parallel for schedule(static, chunk)]: the iterations
    are cut into chunks of [chunk] and the chunks dealt to the threads
    round-robin in thread order (OpenMP worksharing-loop construct).
    [KOKKOS_OPENMP_OPTIONAL_CHUNK_SIZE] passes the policy's chunk size,
    as it does for every compiler but NVHPC. *)
Definition omp_static_owner (chunk : Z) (pool : nat) (offset : Z) : nat :=
  Z.to_nat ((offset / chunk) mod Z.of_nat pool).

Definition omp_for_static (p : RangePolicy) (pool : nat)
  : list (list event) :=
  (λ w, Call <$> filter (λ i, omp_static_owner (chunk_size p) pool
                                (i - pbegin p) = w)
                        (indices (pbegin p) (pend p)))
    <$> seq 0 pool.

(** [#pragma omp parallel for schedule(dynamic, chunk)]: every thread
    takes the next chunk when it is free, until none is left. *)
Definition omp_for_dynamic (p : RangePolicy) (pool : nat)
    (arrivals : list nat) : list (list event) :=
  (λ rs, concat ((λ r : Z * Z, exec_range (r.1 + pbegin p) (r.2 + pbegin p))
                   <$> rs))
    <$> WorkStealing.steal_run (pend p - pbegin p) (chunk_size p) pool arrivals.

(** [execute_parallel<Policy>()], one overload per schedule; the dynamic
    one returns before the region when the range is empty. *)
Definition execute_parallel (p : RangePolicy) (pool : nat)
    (arrivals : list nat) : list (list event) :=
  match schedule p with
  | Dynamic =>
      if pend p <=? pbegin p then []
      else omp_for_dynamic p pool arrivals
  | Static => omp_for_static p pool
  end.

(** The region written by hand, compiled when
    [KOKKOS_INTERNAL_DISABLE_NATIVE_OPENMP] is defined: the trace of the
    worker of rank [w]. *)
Definition worker (p : RangePolicy) (pool : nat) (arrivals : list nat)
    (w : nat) : list event :=
  (* data.set_work_partition(end - begin, chunk_size) *)
  let synced :=
    (* if (is_dynamic)
         if (data.pool_rendezvous()) data.pool_rendezvous_release() *)
    if is_dynamic p then [PoolRendezvous] else [] in
  do_while (is_dynamic p)
    (λ range trace,
       trace ++ exec_range (range.1 + pbegin p) (range.2 + pbegin p))
    (work_ranges p pool arrivals w) synced.

(** [execute]: one trace per thread that runs part of the call.
    [in_parallel] is [OpenMP::in_parallel()], [native] tells whether
    [KOKKOS_INTERNAL_DISABLE_NATIVE_OPENMP] is left undefined, [pool] is
    [OpenMP::impl_thread_pool_size()]. *)
Definition execute (in_parallel native : bool) (pool : nat)
    (p : RangePolicy) (arrivals : list nat) : list (list event) :=
  if in_parallel then [exec_range (pbegin p) (pend p)]
  else if native then execute_parallel p pool arrivals
  else (λ w, worker p pool arrivals w) <$> seq 0 pool.

(** How often a thread meets the pool rendezvous: once in the
    hand-written region under the Dynamic schedule, never otherwise. *)
Definition expected_rendezvous (in_parallel native : bool) (p : RangePolicy)
  : nat :=
  if negb in_parallel && negb native && is_dynamic p then 1%nat else 0%nat.

(** The indices a trace calls the functor on, and its rendezvous count. *)
Definition calls (trace : list event) : list Z :=
  omap (λ e, match e with Call i => Some i | PoolRendezvous => None end) trace.

Definition rendezvous_count (trace : list event) : nat :=
  length (omap (λ e, match e with
                     | PoolRendezvous => Some ()
                     | Call _ => None
                     end) trace).

End ParallelForRange.

(** ** Reducers *)

Record Reducer (V : Type) := {
  init : V;            (* init(ptr) stores the identity at ptr       *)
  join : V → V → V;    (* join(dst, src) stores the joined value at dst *)
  final : V → V        (* final(ptr) post-processes the value at ptr  *)
}.
Arguments init {V} _.
Arguments join {V} _ _ _.
Arguments final {V} _ _.

(** The merge after the region,
<<
    ptr = get_thread_data(0)->pool_reduce_local();
    for (int i = 1; i < pool_size; ++i)
      final_reducer.join(ptr, get_thread_data(i)->pool_reduce_local());
>>
    on the buffers of the pool. *)
Definition merge {V : Type} (R : Reducer V) (store : list V) : list V :=
  foldl (λ st i,
           match st !! 0%nat, st !! i with
           | Some dst, Some src => <[0%nat := join R dst src]> st
           | _, _ => st
           end)
        store (seq 1 (length store - 1)).

(** ** ParallelReduce over a RangePolicy *)

Module ParallelReduceRange.
Section execute.

Context {V : Type}.
Variable R : Reducer V.
(** The functor [functor(iwork, update)], as the new value of [update]. *)
Variable functor : Z → V → V.

Definition exec_range (ibeg iend : Z) (update : V) : V :=
  foldl (λ u iwork, functor iwork u) update (indices ibeg iend).

(** The body of the region for the worker of rank [w]: the final
    content of its [pool_reduce_local()]. *)
Definition worker (p : RangePolicy) (pool : nat) (arrivals : list nat)
    (w : nat) : V :=
  let update := init R in
  do_while (is_dynamic p)
    (λ range u, exec_range (range.1 + pbegin p) (range.2 + pbegin p) u)
    (work_ranges p pool arrivals w) update.

(** [execute]: [store] holds the content of the workers' buffers on
    entry (whatever earlier regions left), [has_result] tells whether
    [m_result_ptr] is non-null.  The result is the store on exit and the
    value written through [m_result_ptr], if any. *)
Definition execute (p : RangePolicy) (store : list V)
    (arrivals : list nat) (has_result : bool) : list V * option V :=
  if pend p <=? pbegin p then
    (store, if has_result then Some (final R (init R)) else None)
  else
    let pool_size := length store in
    let region := imap (λ w _, worker p pool_size arrivals w) store in
    let merged := merge R region in
    let finalized := alter (final R) 0%nat merged in
    (finalized, if has_result then finalized !! 0%nat else None).

End execute.
End ParallelReduceRange.

(** The Reducer of a sum: the functor adds its contribution to [update],
    [join] adds two partial sums. *)
Definition sum_reducer : Reducer Z :=
  {| init := 0; join := Z.add; final := λ v, v |}.

(** The sequential sum of the contributions [g] over a list of indices. *)
Definition sumZ (g : Z → Z) (l : list Z) : Z := foldl (λ u i, u + g i) 0 l.

(** An associative Reducer that is not commutative: values are lists and
    [join] appends. *)
Definition append_reducer : Reducer (list Z) :=
  {| init := []; join := app; final := λ v, v |}.

(** A Reducer and a functor that record what is applied to a value, in
    order, instead of computing with it. *)
Inductive reducer_op :=
| DidInit
| DidCall (iwork : Z)
| DidJoin
| DidFinal.

Definition log_reducer : Reducer (list reducer_op) :=
  {| init := [DidInit];
     join := λ dst src, dst ++ src ++ [DidJoin];
     final := λ v, v ++ [DidFinal] |}.

Definition log_functor (iwork : Z) (update : list reducer_op)
  : list reducer_op :=
  update ++ [DidCall iwork].

(** ** ParallelScan and ParallelScanWithTotal over a RangePolicy *)

Module ParallelScan.

(** A worker's [pool_reduce_local()] holds two values, since
    [pool_reduce_bytes = 2 * value_size]: the local sum at [ptr] and the
    base at [ptr + value_count]. *)
Record slot (V : Type) := { update_sum : V; update_base : V }.
Arguments update_sum {V} _.
Arguments update_base {V} _.

(** One call [functor(iwork, update, final)], as the functor sees it. *)
Record call (V : Type) := { c_index : Z; c_update : V; c_final : bool }.
Arguments c_index {V} _.
Arguments c_update {V} _.
Arguments c_final {V} _.

(** What a scan leaves behind: the buffers, the calls of the two passes
    per worker, and the stores into [m_returnvalue] with their author. *)
Record outcome (V : Type) := {
  out_store : list (slot V);
  out_discovery : list (list (call V));
  out_final : list (list (call V));
  out_published : list (nat * V)
}.
Arguments out_store {V} _.
Arguments out_discovery {V} _.
Arguments out_final {V} _.
Arguments out_published {V} _.

Section execute.

Context {V : Type}.
Variable R : Reducer V.
(** The functor [functor(iwork, update, final)], as the new [update]. *)
Variable functor : Z → V → bool → V.

(** [exec_range]: the final [update] and the calls made, oldest first. *)
Definition exec_range (ibeg iend : Z) (update : V) (final : bool)
  : V * list (call V) :=
  foldl (λ '(u, log) iwork,
           (functor iwork u final,
            log ++ [{| c_index := iwork; c_update := u; c_final := final |}]))
        (update, []) (indices ibeg iend).

(** First pass of worker [w] of [n]: [update_sum = init(ptr)], then the
    range with [final = false]. *)
Definition pass1 (p : RangePolicy) (n w : nat) (s : slot V)
  : slot V * list (call V) :=
  let range := WorkPartitioner.WorkRange p w n in
  let '(u, log) := exec_range range.1 range.2 (init R) false in
  ({| update_sum := u; update_base := update_base s |}, log).

(** One turn of the loop the rendezvous leader runs over the ranks,
<<
  if (i) {
    for (j...) ptr[j + value_count] = ptr_prev[j + value_count];
    final_reducer.join(ptr + value_count, ptr_prev);
  } else {
    final_reducer.init(ptr + value_count);
  }
  ptr_prev = ptr;
>>
    where [ptr_prev] is the buffer of rank [i - 1]. *)
Definition carry_step (store : list (slot V)) (i : nat) : list (slot V) :=
  match i with
  | O =>
      alter (λ s, {| update_sum := update_sum s; update_base := init R |})
            0%nat store
  | S prev =>
      match store !! prev, store !! i with
      | Some sp, Some si =>
          let copied := update_base sp in
          <[i := {| update_sum := update_sum si;
                    update_base := join R copied (update_sum sp) |}]> store
      | _, _ => store
      end
  end.

Definition carry_walk (store : list (slot V)) : list (slot V) :=
  foldl carry_step store (seq 0 (length store)).

(** The buffers once the leader has handled the ranks below [k]. *)
Definition carried_upto (store : list (slot V)) (k : nat) : list (slot V) :=
  imap (λ i s, if (i <? k)%nat
               then {| update_sum := update_sum s;
                       update_base := foldl (join R) (init R)
                                        (update_sum <$> take i store) |}
               else s) store.

(** Second pass of worker [w]: [update_base] refers to the base in the
    buffer, the range runs with [final = true]. *)
Definition pass2 (p : RangePolicy) (n w : nat) (s : slot V)
  : slot V * list (call V) :=
  let range := WorkPartitioner.WorkRange p w n in
  let '(u, log) := exec_range range.1 range.2 (update_base s) true in
  ({| update_sum := update_sum s; update_base := u |}, log).

(** [if (omp_get_thread_num() == omp_get_num_threads() - 1)
    m_returnvalue = update_base;] *)
Definition publish (n w : nat) (s : slot V) : option (nat * V) :=
  if Z.of_nat w =? Z.of_nat n - 1 then Some (w, update_base s) else None.

(** [execute] of [ParallelScanWithTotal] ([with_total = true]) and of
    [ParallelScan] ([with_total = false]), which differ in the last
    statement only.  The pool rendezvous separates the three phases, so
    they run one after the other over all workers; [store] is the
    content of the buffers on entry. *)
Definition execute (with_total : bool) (p : RangePolicy)
    (store : list (slot V)) : outcome V :=
  let n := length store in
  let first := imap (pass1 p n) store in
  let carried := carry_walk (fst <$> first) in
  let second := imap (pass2 p n) carried in
  {| out_store := fst <$> second;
     out_discovery := snd <$> first;
     out_final := snd <$> second;
     out_published :=
       if with_total
       then omap id (imap (publish n) (fst <$> second))
       else [] |}.

(** A scan functor over contributions [g]: it folds the contribution of
    [iwork] into [update] (and, on the final pass, would first store
    [update], the exclusive prefix, to its output). *)
Definition contribute (g : Z → V) (u : V) (iwork : Z) : V :=
  join R u (g iwork).

(** The sequential fold of the contributions of a list of indices:
    over [[begin, i)] it is the exclusive prefix at [i]. *)
Definition prefix_fold (g : Z → V) (l : list Z) : V :=
  foldl (contribute g) (init R) l.

End execute.

(** The exclusive prefix at index [i] of the range of [p], and the call
    of the final pass a correct scan makes at [i]. *)
Definition prefix_at {V : Type} (R : Reducer V) (g : Z → V)
    (p : RangePolicy) (i : Z) : V :=
  prefix_fold R g (indices (pbegin p) i).

Definition final_call {V : Type} (R : Reducer V) (g : Z → V)
    (p : RangePolicy) (i : Z) : call V :=
  {| c_index := i; c_update := prefix_at R g p i; c_final := true |}.

Definition scan_functor {V : Type} (R : Reducer V) (g : Z → V)
  : Z → V → bool → V :=
  λ iwork update _, contribute R g update iwork.

End ParallelScan.

(** ** Team policies *)

Record TeamPolicy := {
  league_size : Z;                 (* m_policy.league_size() *)
  team_size : nat;                 (* m_policy.team_size()   *)
  team_chunk_size : Z;             (* m_policy.chunk_size()  *)
  team_iter : Z;                   (* m_policy.team_iter()   *)
  team_schedule : schedule_type    (* Policy::schedule_type  *)
}.

Module TeamOrganizer.

(** The number of whole teams of [team_size] workers in the pool, and
    the team a rank falls into. *)
Definition num_teams (pool team_size : nat) : nat := (pool / team_size)%nat.

Definition team_of (team_size rank : nat) : nat := (rank / team_size)%nat.

(** Modelled from the spec: [HostThreadTeamData::organize_team] is
    declared in a header that is not among the sources.  The spec (4.6) has it "group
    contiguous workers into teams of the requested size (workers beyond
    an exact multiple are inactive for that region and return non-active
    status)": ranks [t * team_size .. t * team_size + team_size - 1] form
    team [t], for every [t] below [num_teams]; the result tells whether
    the calling worker is active. *)
Definition organize_team (pool team_size rank : nat) : bool :=
  (rank <? num_teams pool team_size * team_size)%nat.

(** The chunk handed to [set_work_partition]:
    [0 < chunk_size() ? chunk_size() : team_iter()]. *)
Definition team_chunk (p : TeamPolicy) : Z :=
  if 0 <? team_chunk_size p then team_chunk_size p else team_iter p.

(** Modelled from the spec: the league ranks a worker receives from
    [HostThreadTeamData].  "Each rank is processed by exactly one team"
    (glossary): under the Static schedule the league is split into one
    static slice per team, which all members of the team receive.  Under
    the Dynamic schedule the successive answers of
    [get_work_stealing_chunk] to the worker are the parameter [stolen],
    since the specification does not say how a team shares a claim. *)
Definition team_work_ranges (p : TeamPolicy) (pool : nat)
    (stolen : nat → list (Z * Z)) (rank : nat) : list (Z * Z) :=
  match team_schedule p with
  | Dynamic => stolen rank
  | Static =>
      [WorkPartitioner.get_work_partition (league_size p) (team_chunk p)
         (num_teams pool (team_size p)) (team_of (team_size p) rank)]
  end.

Definition team_is_dynamic (p : TeamPolicy) : bool :=
  match team_schedule p with Dynamic => true | Static => false end.

End TeamOrganizer.

(** ** ParallelFor over a TeamPolicy *)

Module ParallelForTeam.

(** What a team member does next: run the functor on a league rank, or
    call [team_rendezvous()]. *)
Inductive action :=
| Functor (league_rank : Z)
| TeamRendezvous.

(** [exec_team]:
<<
  for (int r = league_rank_begin; r < league_rank_end;) {
    functor(Member(data, r, league_size));
    if (++r < league_rank_end) {
      if (data.team_rendezvous()) data.team_rendezvous_release();
    }
  }
>>
    as the actions of the calling member, in order. *)
Definition exec_team (league_rank_begin league_rank_end : Z) : list action :=
  concat ((λ r, Functor r ::
                (if r + 1 <? league_rank_end then [TeamRendezvous] else []))
            <$> indices league_rank_begin league_rank_end).

(** The team-level actions of the worker of rank [w] in the region of
    [execute]: nothing when [organize_team] leaves it inactive.  (Under
    the Dynamic schedule every worker first passes one pool rendezvous,
    which is no action of a team.) *)
Definition worker (p : TeamPolicy) (pool : nat)
    (stolen : nat → list (Z * Z)) (w : nat) : list action :=
  if TeamOrganizer.organize_team pool (team_size p) w then
    do_while (TeamOrganizer.team_is_dynamic p)
      (λ range acts, acts ++ exec_team range.1 range.2)
      (TeamOrganizer.team_work_ranges p pool stolen w) []
  else [].

Definition execute (p : TeamPolicy) (pool : nat)
    (stolen : nat → list (Z * Z)) : list (list action) :=
  (λ w, worker p pool stolen w) <$> seq 0 pool.

(** *** The team rendezvous *)

(** A member of a team: what it still has to do, whether it is inside
    the functor call at the head of [todo], and whether it has called
    [team_rendezvous()] and not yet been let go. *)
Record member := {
  todo : list action;
  in_functor : bool;
  arrived : bool
}.

(** The scheduler lets member [m] take its next step, or lets the
    rendezvous complete. *)
Inductive choice :=
| Run (m : nat)
| Release.

(** What is seen of a team: a member enters the functor for a league
    rank, returns from it, enters the rendezvous; the rendezvous
    completes. *)
Inductive team_event :=
| Began (m : nat) (league_rank : Z)
| Ran (m : nat) (league_rank : Z)
| Arrived (m : nat)
| Released.

(** Modelled from the spec: [HostThreadTeamData::team_rendezvous] and
    [team_rendezvous_release] are declared in a header that is not among the sources.
    The spec (4.2) has the rendezvous "called by every participating
    thread block until all have called it"; the leader then returns and
    lets the others go by the release.  A member that has arrived cannot
    run; once all members of the team have arrived, the release lets
    all of them pass.  A functor call takes two steps, entry and return,
    so that calls of different members overlap.  A choice that is not
    enabled yields [None]. *)
Definition team_step (team : list member) (c : choice)
  : option (list member * team_event) :=
  match c with
  | Run m =>
      match team !! m with
      | Some mb =>
          if arrived mb then None
          else match todo mb, in_functor mb with
               | Functor r :: rest, false =>
                   Some (<[m := {| todo := Functor r :: rest;
                                   in_functor := true;
                                   arrived := false |}]> team,
                         Began m r)
               | Functor r :: rest, true =>
                   Some (<[m := {| todo := rest;
                                   in_functor := false;
                                   arrived := false |}]> team,
                         Ran m r)
               | TeamRendezvous :: rest, false =>
                   Some (<[m := {| todo := TeamRendezvous :: rest;
                                   in_functor := false;
                                   arrived := true |}]> team,
                         Arrived m)
               | _, _ => None
               end
      | None => None
      end
  | Release =>
      if forallb arrived team
      then Some ((λ mb, {| todo := tail (todo mb);
                           in_functor := false;
                           arrived := false |}) <$> team,
                 Released)
      else None
  end.

(** A run of the team under a schedule, with the events it produced. *)
Fixpoint team_run (team : list member) (trace : list team_event)
    (cs : list choice) : option (list member * list team_event) :=
  match cs with
  | [] => Some (team, trace)
  | c :: cs' =>
      match team_step team c with
      | Some (team', e) => team_run team' (trace ++ [e]) cs'
      | None => None
      end
  end.

(** All members of a team enter [exec_team] with the same range. *)
Definition team_start (size : nat) (league_rank_begin league_rank_end : Z)
  : list member :=
  replicate size {| todo := exec_team league_rank_begin league_rank_end;
                    in_functor := false;
                    arrived := false |}.

(** A rendezvous completed in [pre] after every member of the team had
    returned from the functor for league rank [r]. *)
Definition rendezvous_before (size : nat) (pre : list team_event) (r : Z)
  : Prop :=
  ∃ pre1 pre2, pre = pre1 ++ Released :: pre2
               ∧ ∀ m, (m < size)%nat → Ran m r ∈ pre1.

(** No member enters the functor for a league rank before the whole
    team is through the rank before it and the rendezvous that follows
    it. *)
Definition no_lapping (size : nat) (league_rank_begin : Z)
    (trace : list team_event) : Prop :=
  ∀ pre m r post,
    trace = pre ++ Began m (r + 1) :: post →
    league_rank_begin ≤ r →
    rendezvous_before size pre r.

(** Where a member stands while the team is at league rank [r]: before
    or inside the functor call, or after it (waiting in the rendezvous
    or not). *)
Definition member_at (trace : list team_event) (r league_rank_end : Z)
    (m : nat) (mb : member) : Prop :=
  (todo mb = exec_team r league_rank_end ∧ arrived mb = false)
  ∨ (r < league_rank_end
     ∧ todo mb = tail (exec_team r league_rank_end)
     ∧ in_functor mb = false
     ∧ Ran m r ∈ trace
     ∧ (arrived mb = true → r + 1 < league_rank_end)).

(** What every reachable state of a team satisfies. *)
Definition team_inv (size : nat) (league_rank_begin league_rank_end : Z)
    (team : list member) (trace : list team_event) : Prop :=
  ∃ r, league_rank_begin ≤ r
       ∧ length team = size
       ∧ (∀ m mb, team !! m = Some mb →
                  member_at trace r league_rank_end m mb)
       ∧ (league_rank_begin < r → rendezvous_before size trace (r - 1))
       ∧ no_lapping size league_rank_begin trace.

(** The schedule that runs every league rank in lock step: all members
    enter the functor, all return, all arrive, the rendezvous completes. *)
Definition lock_step (size : nat) (ranks : nat) : list choice :=
  let all := Run <$> seq 0 size in
  concat (replicate (ranks - 1) (all ++ all ++ all ++ [Release]))
  ++ (if ranks is O then [] else all ++ all).

End ParallelForTeam.

(** ** ParallelReduce over a TeamPolicy *)

Module ParallelReduceTeam.
Section execute.

Context {V : Type}.
Variable R : Reducer V.
(** [functor(Member(data, r, league_size), update)] called by the worker
    of pool rank [w] for league rank [r], as the new [update]. *)
Variable functor : nat → Z → V → V.

(** [exec_team]: the loop of [ParallelForTeam.exec_team] with [update]
    threaded through the functor calls; the team rendezvous between two
    ranks leaves [update] alone. *)
Definition exec_team (w : nat) (update : V)
    (league_rank_begin league_rank_end : Z) : V :=
  foldl (λ u r, functor w r u) update
        (indices league_rank_begin league_rank_end).

(** The body of the region for the worker of rank [w]: the final
    content of its [pool_reduce_local()].  An inactive worker only
    initialises its buffer. *)
Definition worker (p : TeamPolicy) (pool : nat)
    (stolen : nat → list (Z * Z)) (w : nat) : V :=
  if TeamOrganizer.organize_team pool (team_size p) w then
    let update := init R in
    do_while (TeamOrganizer.team_is_dynamic p)
      (λ range u, exec_team w u range.1 range.2)
      (TeamOrganizer.team_work_ranges p pool stolen w) update
  else init R.

Definition execute (p : TeamPolicy) (store : list V)
    (stolen : nat → list (Z * Z)) (has_result : bool)
  : list V * option V :=
  if (league_size p =? 0) || (team_size p =? 0)%nat then
    (store, if has_result then Some (final R (init R)) else None)
  else
    let pool_size := length store in
    let region := imap (λ w _, worker p pool_size stolen w) store in
    let merged := merge R region in
    let finalized := alter (final R) 0%nat merged in
    (finalized, if has_result then finalized !! 0%nat else None).

End execute.
End ParallelReduceTeam.

(** ** ParallelFor and ParallelReduce over an MDRangePolicy *)

(** What the engines read of an [MDRangePolicy]: the number of tiles and
    the schedule of its [impl_range_policy]. *)
Record MDRangePolicy := {
  m_num_tiles : Z;               (* m_mdr_policy.m_num_tiles *)
  md_schedule : schedule_type    (* Policy::schedule_type    *)
}.

(** The member [m_policy] the constructors build:
    [Policy(0, m_mdr_policy.m_num_tiles).set_chunk_size(1)]. *)
Definition m_policy (mdr : MDRangePolicy) : RangePolicy :=
  {| pbegin := 0; pend := m_num_tiles mdr; chunk_size := 1;
     schedule := md_schedule mdr |}.

Module ParallelForMDRange.

Import ParallelForRange.

(** [exec_range]: [for (iwork = ibeg; iwork < iend; ++iwork)
    iterate_type(mdr_policy, functor)(iwork)].  [Call iwork] stands for
    the application of [HostIterateTile] to the tile [iwork]. *)
Definition exec_range (ibeg iend : Z) : list event :=
  Call <$> indices ibeg iend.

(** [execute_parallel<Policy>()]: the two overloads are the loops of the
    [RangePolicy] engine over [m_policy]; the Dynamic one has no test for
    an empty range before the region. *)
Definition execute_parallel (mdr : MDRangePolicy) (pool : nat)
    (arrivals : list nat) : list (list event) :=
  match md_schedule mdr with
  | Dynamic => omp_for_dynamic (m_policy mdr) pool arrivals
  | Static => omp_for_static (m_policy mdr) pool
  end.

(** The hand-written region: the trace of the worker of rank [w]. *)
Definition worker (mdr : MDRangePolicy) (pool : nat) (arrivals : list nat)
    (w : nat) : list event :=
  let p := m_policy mdr in
  (* data.set_work_partition(end - begin, chunk_size) *)
  let synced :=
    (* if (is_dynamic)
         if (data.pool_rendezvous()) data.pool_rendezvous_release() *)
    if is_dynamic p then [PoolRendezvous] else [] in
  do_while (is_dynamic p)
    (λ range trace,
       trace ++ exec_range (range.1 + pbegin p) (range.2 + pbegin p))
    (work_ranges p pool arrivals w) synced.

(** [execute]: one trace per thread that runs part of the call. *)
Definition execute (in_parallel native : bool) (pool : nat)
    (mdr : MDRangePolicy) (arrivals : list nat) : list (list event) :=
  if in_parallel
  then [exec_range (pbegin (m_policy mdr)) (pend (m_policy mdr))]
  else if native then execute_parallel mdr pool arrivals
  else (λ w, worker mdr pool arrivals w) <$> seq 0 pool.

(** [max_tile_size_product]: a constant, whatever policy and functor. *)
Definition max_tile_size_product : Z := 1024.

End ParallelForMDRange.

Module ParallelReduceMDRange.
Section execute.

Context {V : Type}.
Variable R : Reducer V.
(** [iterate_type(mdr_policy, functor, update)(iwork)]: what the
    iteration over the tile [iwork] makes of [update]. *)
Variable iterate : Z → V → V.

Definition exec_range (ibeg iend : Z) (update : V) : V :=
  foldl (λ u iwork, iterate iwork u) update (indices ibeg iend).

(** The body of the region for the worker of rank [w]. *)
Definition worker (mdr : MDRangePolicy) (pool : nat) (arrivals : list nat)
    (w : nat) : V :=
  let p := m_policy mdr in
  let update := init R in
  do_while (is_dynamic p)
    (λ range u, exec_range (range.1 + pbegin p) (range.2 + pbegin p) u)
    (work_ranges p pool arrivals w) update.

(** [execute]: the region is entered whatever the number of tiles; the
    merge, [final] and the copy through [m_result_ptr] follow it. *)
Definition execute (mdr : MDRangePolicy) (store : list V)
    (arrivals : list nat) (has_result : bool) : list V * option V :=
  let pool_size := length store in
  let region := imap (λ w _, worker mdr pool_size arrivals w) store in
  let merged := merge R region in
  let finalized := alter (final R) 0%nat merged in
  (finalized, if has_result then finalized !! 0%nat else None).

End execute.
End ParallelReduceMDRange.

(** ** What a team member's actions amount to *)

(** The league ranks the actions of a member call the functor on, in
    order, and the number of team rendezvous the member enters. *)
Definition league_ranks (acts : list ParallelForTeam.action) : list Z :=
  omap (λ a, match a with
             | ParallelForTeam.Functor r => Some r
             | ParallelForTeam.TeamRendezvous => None
             end) acts.

Definition team_rendezvous_count (acts : list ParallelForTeam.action) : nat :=
  length (omap (λ a, match a with
                     | ParallelForTeam.TeamRendezvous => Some ()
                     | ParallelForTeam.Functor _ => None
                     end) acts).

(** The league ranks member [m] has returned from the functor for, in
    the order of the events of a run of its team. *)
Definition member_ranks (m : nat) (trace : list ParallelForTeam.team_event)
  : list Z :=
  omap (λ e, match e with
             | ParallelForTeam.Ran m' r =>
                 if (m' =? m)%nat then Some r else None
             | _ => None
             end) trace.

(** ** Kokkos_Core.cpp: version string and finalize hooks *)

Module Core.

(** The value of a 32-bit [int] that holds the integer [z]: [z] itself
    between [-2^31] and [2^31 - 1], wrapped around modulo [2^32]
    otherwise. *)
Definition to_int (z : Z) : Z :=
  (z + 2147483648) `mod` 4294967296 - 2147483648.

(** [version_string_from_int]:
<<
  str_builder << version_number / 10000 << "."
              << (version_number % 10000) / 100 << "."
              << version_number % 100;
>>
    The parameter is a 32-bit [int]: the function receives [to_int] of
    the number passed.  [/] and [%] on [int] truncate towards zero
    ([Z.quot], [Z.rem]); [operator<<] writes an [int] in decimal, with a
    minus sign when it is negative, as [pretty] does. *)
Definition version_string_from_int (version_number : Z) : string :=
  let v := to_int version_number in
  pretty (v `quot` 10000) +:+ "." +:+
  pretty ((v `rem` 10000) `quot` 100) +:+ "." +:+
  pretty (v `rem` 100).

Section finalize.

(** Everything a finalize hook, the tools and the back ends can change. *)
Context {W : Type}.

(** A finalize hook, [std::function<void()>]: the world it leaves, or
    [None] when it throws.  A hook acts on the world only: one that
    itself pushes finalize hooks is not covered. *)
Definition hook_function_type : Type := W → option W.

(** The globals of the translation unit; [finalize_hooks] is the stack,
    its top first. *)
Record globals := {
  g_is_initialized : bool;
  g_show_warnings : bool;
  g_tune_internals : bool;
  finalize_hooks : list hook_function_type;
  world : W
}.

(** [Kokkos::push_finalize_hook]: [finalize_hooks.push(f)]. *)
Definition push_finalize_hook (f : hook_function_type) (s : globals)
  : globals :=
  {| g_is_initialized := g_is_initialized s;
     g_show_warnings := g_show_warnings s;
     g_tune_internals := g_tune_internals s;
     finalize_hooks := f :: finalize_hooks s;
     world := world s |}.

(** How [finalize_internal] ends: it returns, or a hook threw and
    [std::terminate()] is called after the message that reports
    [numSuccessfulCalls] and [finalize_hooks.size()]. *)
Inductive finalized :=
| Returned (s : globals)
| Terminated (numSuccessfulCalls : nat) (size : nat).

(** The loop
<<
  while (!finalize_hooks.empty()) {
    auto f = finalize_hooks.top();
    try { f(); } catch (...) { ...; std::terminate(); }
    finalize_hooks.pop();
    ++numSuccessfulCalls;
  }
>>
    on the stack [hooks]: the world after the last hook, or the two
    numbers of the message. *)
Fixpoint run_finalize_hooks (hooks : list hook_function_type)
    (numSuccessfulCalls : nat) (w : W) : W + nat * nat :=
  match hooks with
  | [] => inl w
  | f :: rest =>
      match f w with
      | Some w' => run_finalize_hooks rest (S numSuccessfulCalls) w'
      | None => inr (numSuccessfulCalls, length hooks)
      end
  end.

(** [Kokkos::Profiling::finalize()] and
    [ExecSpaceManager::get_instance().finalize_spaces()]. *)
Variable profiling_finalize : W → W.
Variable finalize_spaces : W → W.

(** [finalize_internal], which [Kokkos::finalize()] calls. *)
Definition finalize_internal (s : globals) : finalized :=
  match run_finalize_hooks (finalize_hooks s) 0 (world s) with
  | inl w =>
      Returned {| g_is_initialized := false;
                  g_show_warnings := true;
                  g_tune_internals := false;
                  finalize_hooks := [];
                  world := finalize_spaces (profiling_finalize w) |}
  | inr (numSuccessfulCalls, size) => Terminated numSuccessfulCalls size
  end.

(** [Kokkos::is_initialized()]. *)
Definition is_initialized (s : globals) : bool := g_is_initialized s.

End finalize.

Arguments hook_function_type : clear implicits.
Arguments globals : clear implicits.
Arguments finalized : clear implicits.

End Core.

(** ** A team in the region of [execute] *)







(** ** Facts about cut points *)

Section cuts.

(** A non-decreasing sequence of cut points [c 0 <= c 1 <= ...] splits
    [[c 0, c n)] into the consecutive pieces [[c i, c (i+1))]. *)
Variable c : nat → Z.
Hypothesis c_mono : ∀ i, c i ≤ c (S i).

Lemma cuts_le (i j : nat) : (i ≤ j)%nat → c i ≤ c j.
Proof using c_mono.
  induction 1 as [|j _ IH]; [lia|]. specialize (c_mono j). lia.
Qed.

Lemma concat_cuts (n : nat) :
  concat ((λ i, indices (c i) (c (S i))) <$> seq 0 n)
  = indices (c 0%nat) (c n).
Proof using c_mono.
  induction n as [|n IH].
  - unfold indices. rewrite seqZ_nil; [done | lia].
  - rewrite seq_S, fmap_app, concat_app, IH. simpl. rewrite app_nil_r.
    unfold indices.
    pose proof (cuts_le 0 n ltac:(lia)) as H0.
    specialize (c_mono n).
    replace (c (S n) - c 0%nat) with ((c n - c 0%nat) + (c (S n) - c n)) by lia.
    rewrite seqZ_app by lia. do 2 f_equal. lia.
Qed.

End cuts.

(** ** The static split *)

Module PartitionFacts.
Import WorkPartitioner.

Lemma slice_first_next num parts rank :
  slice_first num parts (rank + 1)
  = slice_first num parts rank + slice_chunks num parts rank.
Proof.
  unfold slice_first, slice_chunks.
  destruct (Z.ltb_spec rank (num mod parts)); lia.
Qed.

Lemma slice_first_0 num parts : 0 < parts → slice_first num parts 0 = 0.
Proof.
  intros Hp. unfold slice_first.
  pose proof (Z.mod_pos_bound num parts Hp). lia.
Qed.

Lemma slice_first_all num parts :
  0 < parts → slice_first num parts parts = num.
Proof.
  intros Hp. unfold slice_first.
  pose proof (Z.mod_pos_bound num parts Hp).
  pose proof (Z.div_mod num parts ltac:(lia)). lia.
Qed.

Lemma slice_chunks_nonneg num parts rank :
  0 ≤ num → 0 < parts → 0 ≤ slice_chunks num parts rank.
Proof.
  intros Hn Hp. unfold slice_chunks.
  pose proof (Z.div_pos num parts Hn Hp).
  destruct (rank <? num mod parts); lia.
Qed.

Lemma chunk_count_nonneg total chunk :
  0 < chunk → 0 ≤ chunk_count total chunk.
Proof. intros Hc. unfold chunk_count. apply Z.div_pos; lia. Qed.

Lemma chunk_count_covers total chunk :
  0 < chunk → Z.max 0 total ≤ chunk_count total chunk * chunk.
Proof.
  intros Hc. unfold chunk_count.
  pose proof (Z.div_mod (Z.max 0 total + chunk - 1) chunk ltac:(lia)).
  pose proof (Z.mod_pos_bound (Z.max 0 total + chunk - 1) chunk Hc). lia.
Qed.

Lemma get_work_partition_cut total chunk parts rank :
  get_work_partition total chunk parts rank
  = (cut total chunk parts rank, cut total chunk parts (S rank)).
Proof.
  unfold get_work_partition, cut. cbv zeta. f_equal.
  rewrite Nat2Z.inj_succ, <- Z.add_1_r, slice_first_next. done.
Qed.

Lemma cut_mono total chunk parts rank :
  0 < chunk → (0 < parts)%nat →
  cut total chunk parts rank ≤ cut total chunk parts (S rank).
Proof.
  intros Hc Hp. unfold cut.
  rewrite (Nat2Z.inj_succ rank), <- Z.add_1_r, slice_first_next.
  pose proof (slice_chunks_nonneg (chunk_count total chunk) (Z.of_nat parts)
                (Z.of_nat rank) (chunk_count_nonneg _ _ Hc) ltac:(lia)).
  nia.
Qed.

Lemma cut_0 total chunk parts :
  (0 < parts)%nat → cut total chunk parts 0 = 0.
Proof.
  intros Hp. unfold cut. change (Z.of_nat 0) with 0.
  rewrite slice_first_0 by lia. lia.
Qed.

Lemma cut_last total chunk parts :
  0 < chunk → (0 < parts)%nat → cut total chunk parts parts = Z.max 0 total.
Proof.
  intros Hc Hp. unfold cut. rewrite slice_first_all by lia.
  pose proof (chunk_count_covers total chunk Hc). lia.
Qed.

Lemma all_slices_concat total chunk parts :
  0 < chunk → (0 < parts)%nat →
  concat (all_slices total chunk parts) = indices 0 (Z.max 0 total).
Proof.
  intros Hc Hp. unfold all_slices, slice_indices.
  erewrite list_fmap_ext; last first.
  { intros i x _. rewrite get_work_partition_cut. simpl. done. }
  rewrite (concat_cuts (cut total chunk parts)).
  - by rewrite cut_0, cut_last.
  - intros i. by apply cut_mono.
Qed.

End PartitionFacts.

(** ** Work stealing hands out every index once *)

Module StealFacts.
Import WorkPartitioner WorkStealing PartitionFacts.

Lemma indices_nil b e : e ≤ b → indices b e = [].
Proof. intros. unfold indices. apply seqZ_nil. lia. Qed.

Lemma indices_app b m e :
  b ≤ m → m ≤ e → indices b e = indices b m ++ indices m e.
Proof.
  intros. unfold indices.
  replace (e - b) with ((m - b) + (e - m)) by lia.
  rewrite seqZ_app by lia. do 2 f_equal. lia.
Qed.

Lemma claimed_insert b rss w rs r :
  rss !! w = Some rs →
  claimed_indices b (<[w := rs ++ [r]]> rss)
  ≡ₚ claimed_indices b rss ++ range_indices b r.
Proof.
  intros Hw. unfold claimed_indices.
  rewrite insert_take_drop by (by eapply lookup_lt_Some).
  rewrite <- (take_drop_middle rss w rs Hw) at 3.
  rewrite !fmap_app, !fmap_cons, !concat_app, !concat_cons.
  unfold worker_indices at 2. rewrite fmap_app, concat_app. simpl.
  rewrite app_nil_r. fold (worker_indices b rs).
  rewrite <- !app_assoc.
  apply Permutation_app_head. apply Permutation_app_head.
  apply Permutation_app_comm.
Qed.

Lemma steal_step_finished total chunk st w rs :
  st.2 !! w = Some rs → finished rs = true →
  steal_step total chunk st w = st.
Proof. intros Hw Hf. unfold steal_step. by rewrite Hw, Hf. Qed.

Lemma finished_snoc rs r : finished (rs ++ [r]) = (r.1 <? 0).
Proof. unfold finished. by rewrite last_snoc. Qed.

Lemma steal_inv_init total chunk b pool :
  steal_inv total chunk b pool (0, replicate pool []).
Proof.
  split; simpl.
  - lia.
  - apply length_replicate.
  - rewrite indices_nil by lia.
    unfold claimed_indices. induction pool; simpl; [done|]. done.
  - apply Forall_replicate. intros i r H. done.
  - apply Forall_replicate. done.
Qed.

Lemma steal_inv_step total chunk b pool st w :
  0 < chunk →
  steal_inv total chunk b pool st →
  steal_inv total chunk b pool (steal_step total chunk st w).
Proof.
  intros Hc [H1 H2 H3 H4 H5]. unfold steal_step.
  destruct (st.2 !! w) as [rs|] eqn:Hw; [|done].
  destruct (finished rs) eqn:Hf; [done|].
  unfold get_work_stealing_chunk.
  destruct (Z.ltb_spec st.1 total) as [Hlt|Hge]; simpl.
  - split; simpl.
    + lia.
    + by rewrite length_insert.
    + rewrite claimed_insert by done. rewrite H3.
      unfold range_indices. simpl.
      rewrite (indices_app b (b + Z.min st.1 (Z.max 0 total))
                 (b + Z.min (st.1 + chunk) (Z.max 0 total))) by lia.
      apply Permutation_app_head.
      replace (st.1 + b) with (b + Z.min st.1 (Z.max 0 total)) by lia.
      replace (Z.min (st.1 + chunk) total + b)
        with (b + Z.min (st.1 + chunk) (Z.max 0 total)) by lia.
      done.
    + apply Forall_insert; [done|].
      rewrite Forall_lookup in H4. specialize (H4 w rs Hw).
      intros i r Hi Hneg. rewrite length_app. simpl.
      destruct (decide (i < length rs)%nat) as [Hil|Hil].
      * rewrite lookup_app_l in Hi by done.
        specialize (H4 i r Hi Hneg).
        unfold finished in Hf.
        assert (last rs = Some r) as Hl.
        { rewrite last_lookup. rewrite <- H4. simpl. done. }
        rewrite Hl in Hf. apply Z.ltb_ge in Hf. lia.
      * apply lookup_lt_Some in Hi. rewrite length_app in Hi. simpl in Hi. lia.
    + apply Forall_insert.
      * eapply Forall_impl; [exact H5|]. simpl. intros x Hx Hfx.
        specialize (Hx Hfx). lia.
      * rewrite finished_snoc. simpl. intros ?%Z.ltb_lt. lia.
  - split; simpl.
    + done.
    + by rewrite length_insert.
    + rewrite claimed_insert by done. rewrite H3.
      unfold range_indices. simpl. rewrite (indices_nil (-1 + b)) by lia.
      by rewrite app_nil_r.
    + apply Forall_insert; [done|].
      rewrite Forall_lookup in H4. specialize (H4 w rs Hw).
      intros i r Hi Hneg. rewrite length_app. simpl.
      destruct (decide (i < length rs)%nat) as [Hil|Hil].
      * rewrite lookup_app_l in Hi by done.
        specialize (H4 i r Hi Hneg).
        unfold finished in Hf.
        assert (last rs = Some r) as Hl.
        { rewrite last_lookup. rewrite <- H4. simpl. done. }
        rewrite Hl in Hf. apply Z.ltb_ge in Hf. lia.
      * apply lookup_lt_Some in Hi. rewrite length_app in Hi. simpl in Hi. lia.
    + apply Forall_insert; [done|]. intros _. done.
Qed.

Lemma steal_inv_run total chunk b pool st ws :
  0 < chunk →
  steal_inv total chunk b pool st →
  steal_inv total chunk b pool (foldl (steal_step total chunk) st ws).
Proof.
  intros Hc. revert st. induction ws as [|w ws IH]; intros st Hst; [done|].
  simpl. apply IH. by apply steal_inv_step.
Qed.

Lemma steal_step_other total chunk st w w' rs :
  st.2 !! w = Some rs → finished rs = true →
  (steal_step total chunk st w').2 !! w = Some rs.
Proof.
  intros Hw Hf. destruct (decide (w' = w)) as [->|Hne].
  - by rewrite (steal_step_finished _ _ _ _ _ Hw Hf).
  - unfold steal_step. destruct (st.2 !! w') as [rs'|]; [|done].
    destruct (finished rs'); [done|].
    destruct (get_work_stealing_chunk total chunk st.1) as [r c]. simpl.
    by rewrite list_lookup_insert_ne.
Qed.

Lemma steal_run_other total chunk ws st w rs :
  st.2 !! w = Some rs → finished rs = true →
  (foldl (steal_step total chunk) st ws).2 !! w = Some rs.
Proof.
  revert st. induction ws as [|w' ws IH]; intros st Hw Hf; [done|].
  simpl. apply IH; [|done]. by apply steal_step_other.
Qed.

Lemma chunk_count_next total chunk cursor :
  0 < chunk → cursor < total →
  chunk_count (total - (cursor + chunk)) chunk
  = chunk_count (total - cursor) chunk - 1.
Proof.
  intros Hc Hlt. unfold chunk_count.
  destruct (Z.le_gt_cases (cursor + chunk) total).
  - rewrite !Z.max_r by lia.
    replace (total - cursor + chunk - 1)
      with ((total - (cursor + chunk) + chunk - 1) + 1 * chunk) by lia.
    rewrite Z.div_add by lia. lia.
  - rewrite Z.max_l, Z.max_r by lia.
    rewrite (Z.div_small (0 + chunk - 1)) by lia.
    assert ((total - cursor + chunk - 1) / chunk = 1); [|lia].
    symmetry. apply (Z.div_unique _ _ 1 (total - cursor - 1)); lia.
Qed.

(** A worker scheduled once more than there are chunks left has left
    its loop. *)
Lemma steal_block total chunk (n : nat) st w rs0 :
  0 < chunk →
  st.2 !! w = Some rs0 →
  chunk_count (total - st.1) chunk ≤ Z.of_nat n →
  ∃ rs,
    (foldl (steal_step total chunk) st (replicate (S n) w)).2 !! w = Some rs
    ∧ finished rs = true.
Proof.
  intros Hc. revert st rs0.
  induction n as [|n IH]; intros st rs0 Hw Hrem.
  all: destruct (finished rs0) eqn:Hf;
       [exists rs0; split; [by apply steal_run_other|done] |].
  all: rewrite replicate_S; cbn [foldl].
  all: remember (steal_step total chunk st w) as st1 eqn:E;
       unfold steal_step in E; rewrite Hw, Hf in E;
       unfold get_work_stealing_chunk in E;
       destruct (Z.ltb_spec st.1 total) as [Hlt|Hge]; subst st1.
  - pose proof (chunk_count_next total chunk st.1 Hc Hlt) as Hn.
    pose proof (chunk_count_nonneg (total - (st.1 + chunk)) chunk Hc).
    lia.
  - exists (rs0 ++ [(-1, -1)]). split; [|by rewrite finished_snoc].
    simpl. apply list_lookup_insert_eq. by eapply lookup_lt_Some.
  - eapply (IH (_, _)); cbn [fst snd].
    + apply list_lookup_insert_eq. by eapply lookup_lt_Some.
    + rewrite chunk_count_next by done. lia.
  - exists (rs0 ++ [(-1, -1)]). split; [|by rewrite finished_snoc].
    apply steal_run_other; [|by rewrite finished_snoc].
    simpl. apply list_lookup_insert_eq. by eapply lookup_lt_Some.
Qed.

Lemma chunk_count_mono total total' chunk :
  0 < chunk → total ≤ total' →
  chunk_count total chunk ≤ chunk_count total' chunk.
Proof. intros Hc Hle. unfold chunk_count. apply Z.div_le_mono; lia. Qed.

Lemma steal_drain total chunk b pool (m : nat) st :
  0 < chunk → (m ≤ pool)%nat →
  steal_inv total chunk b pool st →
  ∀ w, (w < m)%nat →
    ∃ rs, (foldl (steal_step total chunk) st
             (concat ((λ w, replicate (S (Z.to_nat (chunk_count total chunk))) w)
                        <$> seq 0 m))).2 !! w = Some rs
          ∧ finished rs = true.
Proof.
  intros Hc. induction m as [|m IH]; intros Hm Hst w Hw; [lia|].
  rewrite seq_S, fmap_app, concat_app, foldl_app.
  rewrite list_fmap_singleton, concat_cons, concat_nil, app_nil_r.
  change (0 + m)%nat with m.
  set (st1 := foldl _ st (concat _)).
  assert (steal_inv total chunk b pool st1) as Hst1.
  { apply steal_inv_run; [done|]. exact Hst. }
  destruct (decide (w = m)) as [->|Hne].
  - destruct (lookup_lt_is_Some_2 st1.2 m) as [rs0 Hrs0].
    { rewrite (inv_pool _ _ _ _ _ Hst1). lia. }
    eapply steal_block; [done|exact Hrs0|].
    pose proof (inv_cursor _ _ _ _ _ Hst1).
    pose proof (chunk_count_mono (total - st1.1) total chunk Hc ltac:(lia)).
    pose proof (chunk_count_nonneg total chunk Hc). lia.
  - destruct (IH ltac:(lia) Hst w ltac:(lia)) as (rs & Hrs & Hf).
    exists rs. split; [|done]. apply steal_run_other; [exact Hrs|done].
Qed.

(** Every index of the range is handed out exactly once, whatever the
    order in which the workers reach the cursor. *)
Lemma steal_run_complete total chunk b pool arrivals :
  0 < chunk → (0 < pool)%nat →
  claimed_indices b (steal_run total chunk pool arrivals)
  ≡ₚ indices b (b + Z.max 0 total).
Proof.
  intros Hc Hp. unfold steal_run, drain. rewrite foldl_app.
  set (st := foldl _ _ arrivals).
  assert (steal_inv total chunk b pool st) as Hst.
  { apply steal_inv_run; [done|]. apply steal_inv_init. }
  set (st' := foldl _ st _).
  assert (steal_inv total chunk b pool st') as Hst'.
  { by apply steal_inv_run. }
  destruct (steal_drain total chunk b pool pool st Hc ltac:(lia) Hst 0%nat Hp)
    as (rs & Hrs & Hf). fold st' in Hrs.
  pose proof (inv_done _ _ _ _ _ Hst') as Hd.
  rewrite Forall_lookup in Hd. specialize (Hd _ _ Hrs Hf).
  rewrite (inv_claimed _ _ _ _ _ Hst').
  pose proof (inv_cursor _ _ _ _ _ Hst').
  by replace (Z.min st'.1 (Z.max 0 total)) with (Z.max 0 total) by lia.
Qed.

Lemma steal_run_length total chunk pool arrivals :
  0 < chunk → length (steal_run total chunk pool arrivals) = pool.
Proof.
  intros Hc. unfold steal_run.
  eapply (inv_pool total chunk 0). apply steal_inv_run; [done|].
  apply steal_inv_init.
Qed.

Lemma steal_run_stops total chunk pool arrivals :
  0 < chunk → Forall stops_at_sentinel (steal_run total chunk pool arrivals).
Proof.
  intros Hc. unfold steal_run.
  eapply (inv_stops total chunk 0). apply steal_inv_run; [done|].
  apply steal_inv_init.
Qed.

Lemma do_while_stops {St : Type} (body : Z * Z → St → St) rs s :
  stops_at_sentinel rs →
  do_while true body rs s = foldl (λ s r, body r s) s rs.
Proof.
  revert s. induction rs as [|r rs IH]; intros s Hst; [done|].
  simpl. destruct (Z.leb_spec 0 r.1) as [Hr|Hr].
  - apply IH. intros i r' Hi Hneg. specialize (Hst (S i) r' Hi Hneg).
    simpl in Hst. lia.
  - specialize (Hst 0%nat r eq_refl Hr). simpl in Hst.
    destruct rs; [done|simpl in Hst; lia].
Qed.

End StealFacts.

(** ** ParallelFor over a RangePolicy: every index once *)

Module ForFacts.
Import WorkPartitioner WorkStealing PartitionFacts StealFacts ParallelForRange.

Lemma calls_app t1 t2 : calls (t1 ++ t2) = calls t1 ++ calls t2.
Proof. unfold calls. apply omap_app. Qed.

Lemma calls_Call l : calls (Call <$> l) = l.
Proof.
  induction l as [|i l IH]; [done|]. unfold calls in *. csimpl. by rewrite IH.
Qed.

Lemma calls_exec_range b e : calls (exec_range b e) = indices b e.
Proof. apply calls_Call. Qed.

Lemma rendezvous_count_app t1 t2 :
  rendezvous_count (t1 ++ t2) = (rendezvous_count t1 + rendezvous_count t2)%nat.
Proof. unfold rendezvous_count. by rewrite omap_app, length_app. Qed.

Lemma rendezvous_count_calls l : rendezvous_count (Call <$> l) = 0%nat.
Proof.
  induction l as [|i l IH]; [done|]. unfold rendezvous_count in *. csimpl. done.
Qed.

Lemma rendezvous_count_exec_range b e :
  rendezvous_count (exec_range b e) = 0%nat.
Proof. apply rendezvous_count_calls. Qed.

(** Dealing a list out by owner and gathering the hands gives the list
    back, up to order. *)
Lemma filter_owner_below {A : Type} (owner : A → nat) (n : nat) (l : list A) :
  concat ((λ w, filter (λ x, owner x = w) l) <$> seq 0 n)
  ≡ₚ filter (λ x, (owner x < n)%nat) l.
Proof.
  induction n as [|n IH].
  - simpl. induction l as [|x l IHl]; [done|].
    rewrite filter_cons. case_decide; [lia|done].
  - rewrite seq_S, fmap_app, concat_app, IH. simpl. rewrite app_nil_r.
    clear IH. induction l as [|x l IHl]; [done|].
    rewrite !filter_cons. repeat case_decide; try lia.
    + simpl. by rewrite IHl.
    + rewrite <- Permutation_middle. by rewrite IHl.
    + done.
Qed.

Lemma filter_owner_perm {A : Type} (owner : A → nat) (n : nat) (l : list A) :
  (∀ x, (owner x < n)%nat) →
  concat ((λ w, filter (λ x, owner x = w) l) <$> seq 0 n) ≡ₚ l.
Proof.
  intros Hn. rewrite filter_owner_below.
  induction l as [|x l IH]; [done|].
  rewrite filter_cons. case_decide; [|by specialize (Hn x)]. by rewrite IH.
Qed.

Lemma omp_static_owner_lt chunk pool offset :
  (0 < pool)%nat → (omp_static_owner chunk pool offset < pool)%nat.
Proof.
  intros Hp. unfold omp_static_owner.
  pose proof (Z.mod_pos_bound (offset / chunk) (Z.of_nat pool) ltac:(lia)). lia.
Qed.

Lemma fmap_lookup_seq {A B : Type} (f : A → B) (d : A) (l : list A) :
  (λ w, f (default d (l !! w))) <$> seq 0 (length l) = f <$> l.
Proof.
  apply list_eq. intros i. rewrite !list_lookup_fmap.
  destruct (l !! i) as [x|] eqn:Hi; simpl.
  - rewrite lookup_seq_lt by (by eapply lookup_lt_Some). simpl. by rewrite Hi.
  - apply lookup_ge_None in Hi. by rewrite lookup_seq_ge.
Qed.

Lemma slices_shifted total chunk b pool :
  0 < chunk → (0 < pool)%nat →
  concat ((λ w, let r := get_work_partition total chunk pool w in
                indices (r.1 + b) (r.2 + b)) <$> seq 0 pool)
  = indices b (b + Z.max 0 total).
Proof.
  intros Hc Hp.
  erewrite list_fmap_ext; last first.
  { intros i x _. rewrite get_work_partition_cut. simpl. done. }
  rewrite (concat_cuts (λ i, cut total chunk pool i + b)).
  - rewrite cut_0, cut_last by done. f_equal; lia.
  - intros i. pose proof (cut_mono total chunk pool i Hc Hp). lia.
Qed.

Lemma indices_max b e : indices b (b + Z.max 0 (e - b)) = indices b e.
Proof.
  destruct (Z.le_gt_cases b e).
  - f_equal. lia.
  - rewrite !indices_nil; [done|lia|lia].
Qed.

Lemma foldl_trace rs b tr :
  foldl (λ (s : list event) (r : Z * Z), s ++ exec_range (r.1 + b) (r.2 + b)) tr rs
  = tr ++ concat ((λ r : Z * Z, exec_range (r.1 + b) (r.2 + b)) <$> rs).
Proof.
  revert tr. induction rs as [|r rs IH]; intros tr; simpl.
  - by rewrite app_nil_r.
  - by rewrite IH, app_assoc.
Qed.

Lemma calls_ranges b rs :
  calls (concat ((λ r : Z * Z, exec_range (r.1 + b) (r.2 + b)) <$> rs))
  = worker_indices b rs.
Proof.
  unfold worker_indices. induction rs as [|r rs IH]; [done|].
  rewrite !fmap_cons, !concat_cons, calls_app, calls_exec_range, IH. done.
Qed.

Lemma rendezvous_count_ranges b rs :
  rendezvous_count (concat ((λ r : Z * Z, exec_range (r.1 + b) (r.2 + b)) <$> rs))
  = 0%nat.
Proof.
  induction rs as [|r rs IH]; [done|].
  rewrite !fmap_cons, !concat_cons, rendezvous_count_app,
    rendezvous_count_exec_range, IH. done.
Qed.

(** The trace of a worker of the hand-written region. *)
Lemma worker_trace p pool arrivals w :
  0 < chunk_size p →
  worker p pool arrivals w
  = (if is_dynamic p then [PoolRendezvous] else [])
    ++ concat ((λ r : Z * Z, exec_range (r.1 + pbegin p) (r.2 + pbegin p))
                 <$> work_ranges p pool arrivals w).
Proof.
  intros Hc. unfold worker, work_ranges. destruct (is_dynamic p) eqn:Hd.
  - rewrite do_while_stops.
    + apply foldl_trace.
    + pose proof (steal_run_stops (pend p - pbegin p) (chunk_size p) pool
                    arrivals Hc) as Hs.
      destruct (_ !! w) as [rs|] eqn:Hw; simpl.
      * rewrite Forall_lookup in Hs. by eapply Hs.
      * intros i r Hi. done.
  - simpl. by rewrite app_nil_r.
Qed.

(** The ranges the workers receive cover the range exactly once. *)
Lemma work_ranges_cover p pool arrivals :
  0 < chunk_size p → (0 < pool)%nat →
  concat ((λ w, worker_indices (pbegin p) (work_ranges p pool arrivals w))
            <$> seq 0 pool)
  ≡ₚ indices (pbegin p) (pend p).
Proof.
  intros Hc Hp. unfold work_ranges. destruct (is_dynamic p).
  - replace (seq 0 pool)
      with (seq 0 (length (steal_run (pend p - pbegin p) (chunk_size p) pool
                             arrivals)))
      by (by rewrite steal_run_length).
    rewrite (fmap_lookup_seq (worker_indices (pbegin p)) []).
    fold (claimed_indices (pbegin p)
            (steal_run (pend p - pbegin p) (chunk_size p) pool arrivals)).
    rewrite steal_run_complete by done. by rewrite indices_max.
  - erewrite list_fmap_ext; last first.
    { intros i x _. unfold worker_indices. simpl. rewrite app_nil_r.
      unfold range_indices. done. }
    rewrite (slices_shifted _ _ (pbegin p)) by done. by rewrite indices_max.
Qed.

Lemma execute_calls in_parallel native pool p arrivals :
  0 < chunk_size p → (0 < pool)%nat →
  concat (calls <$> execute in_parallel native pool p arrivals)
  ≡ₚ indices (pbegin p) (pend p).
Proof.
  intros Hc Hp. unfold execute.
  destruct in_parallel.
  { simpl. by rewrite calls_exec_range, app_nil_r. }
  destruct native.
  - unfold execute_parallel. destruct (schedule p) eqn:Hs.
    + unfold omp_for_static. rewrite <- list_fmap_compose.
      erewrite list_fmap_ext; last first.
      { intros i x _. simpl. rewrite calls_Call. done. }
      apply (filter_owner_perm
               (λ i, omp_static_owner (chunk_size p) pool (i - pbegin p))).
      intros x. by apply omp_static_owner_lt.
    + destruct (Z.leb_spec (pend p) (pbegin p)).
      * by rewrite indices_nil.
      * unfold omp_for_dynamic. rewrite <- list_fmap_compose.
        erewrite list_fmap_ext; last first.
        { intros i x _. simpl. rewrite calls_ranges. done. }
        fold (claimed_indices (pbegin p)
                (steal_run (pend p - pbegin p) (chunk_size p) pool arrivals)).
        rewrite steal_run_complete by done. by rewrite indices_max.
  - rewrite <- list_fmap_compose.
    erewrite list_fmap_ext; last first.
    { intros i x _. simpl. rewrite worker_trace by done.
      rewrite calls_app, calls_ranges.
      replace (calls (if is_dynamic p then [PoolRendezvous] else []))
        with (@nil Z) by (by destruct (is_dynamic p)).
      simpl. done. }
    by apply work_ranges_cover.
Qed.

Lemma execute_rendezvous in_parallel native pool p arrivals :
  0 < chunk_size p →
  Forall (λ trace, rendezvous_count trace
                   = expected_rendezvous in_parallel native p)
         (execute in_parallel native pool p arrivals).
Proof.
  intros Hc. unfold execute, expected_rendezvous.
  destruct in_parallel; simpl.
  { repeat constructor. apply rendezvous_count_exec_range. }
  destruct native; simpl.
  - unfold execute_parallel. destruct (schedule p).
    + unfold omp_for_static. apply Forall_fmap, Forall_forall.
      intros w _. simpl. apply rendezvous_count_calls.
    + destruct (pend p <=? pbegin p); [constructor|].
      unfold omp_for_dynamic. apply Forall_fmap, Forall_forall.
      intros rs _. simpl. apply rendezvous_count_ranges.
  - apply Forall_fmap, Forall_forall. intros w _. simpl.
    rewrite worker_trace by done.
    rewrite rendezvous_count_app, rendezvous_count_ranges.
    by destruct (is_dynamic p).
Qed.

Lemma concat_nil_Forall {A : Type} (ls : list (list A)) :
  concat ls = [] → Forall (λ l, l = []) ls.
Proof.
  induction ls as [|l ls IH]; [constructor|]. simpl.
  intros [-> Hls]%app_eq_nil. constructor; [done|]. by apply IH.
Qed.

(** C3 (as amended): [execute] calls the functor exactly once on every
    index of [[begin, end)]: the calls of all threads together are a
    permutation of the range.  On an empty range no functor call is
    made, and no thread meets the pool rendezvous except in the
    hand-written region under the Dynamic schedule, where every worker
    still meets it once before it asks for work. *)
Theorem run_for_exactly_once in_parallel native pool p arrivals :
  0 < chunk_size p → (0 < pool)%nat →
  concat (calls <$> execute in_parallel native pool p arrivals)
    ≡ₚ indices (pbegin p) (pend p)
  ∧ (pend p ≤ pbegin p →
     Forall (λ trace,
               calls trace = []
               ∧ rendezvous_count trace
                 = if negb in_parallel && negb native && is_dynamic p
                   then 1%nat else 0%nat)
            (execute in_parallel native pool p arrivals)).
Proof.
  intros Hc Hp.
  pose proof (execute_calls in_parallel native pool p arrivals Hc Hp) as Hcalls.
  split; [done|]. intros Hempty.
  rewrite indices_nil in Hcalls by done.
  apply Permutation_nil_r, concat_nil_Forall in Hcalls.
  rewrite Forall_fmap in Hcalls.
  pose proof (execute_rendezvous in_parallel native pool p arrivals Hc) as Hr.
  rewrite Forall_forall in Hcalls, Hr. apply Forall_forall.
  intros trace Hin. split; [by apply Hcalls | by apply Hr].
Qed.

Lemma run_for_exactly_once_witness :
  let p := {| pbegin := 5; pend := 5; chunk_size := 2;
              schedule := Dynamic |} in
  (0 < chunk_size p ∧ (0 < 3)%nat ∧ pend p ≤ pbegin p)
  ∧ concat (calls <$> execute false false 3 p [2; 0; 2]%nat) ≡ₚ indices 5 5
  ∧ Forall (λ trace, calls trace = [] ∧ rendezvous_count trace = 1%nat)
           (execute false false 3 p [2; 0; 2]%nat).
Proof.
  intros p. split; [simpl; lia|].
  pose proof (run_for_exactly_once false false 3 p [2; 0; 2]%nat
                ltac:(simpl; lia) ltac:(lia)) as [Hcalls Hempty].
  split; [exact Hcalls|]. apply Hempty. simpl. lia.
Defined.

(** Seven indices in chunks of two on three workers, the worker of rank
    2 being first at the cursor twice. *)
Example run_for_dynamic_traces :
  execute false false 3
    {| pbegin := 2; pend := 9; chunk_size := 2; schedule := Dynamic |}
    [2; 0; 2]%nat
  = [[PoolRendezvous; Call 4; Call 5; Call 8];
     [PoolRendezvous];
     [PoolRendezvous; Call 2; Call 3; Call 6; Call 7]].
Proof. reflexivity. Qed.

(** C3, as stated, fails: in the hand-written region a Dynamic policy
    with an empty range still sends every worker through the pool
    rendezvous. *)
Lemma run_for_empty_range_rendezvous :
  let p := {| pbegin := 0; pend := 0; chunk_size := 1; schedule := Dynamic |} in
  pbegin p >= pend p
  ∧ execute false false 2 p [] = [[PoolRendezvous]; [PoolRendezvous]]
  ∧ ¬ Forall (λ trace, rendezvous_count trace = 0%nat)
             (execute false false 2 p []).
Proof.
  intros p. split; [simpl; lia|]. split; [reflexivity|].
  intros H. apply Forall_cons_1 in H as [H _]. vm_compute in H. discriminate.
Qed.

(** C9: called from inside a parallel region, [execute] has the calling
    thread alone run the functor over the whole range in ascending
    order, whatever the pool and the schedule, and meet no rendezvous. *)
Theorem run_for_nested_sequential native pool p arrivals :
  ∃ trace,
    execute true native pool p arrivals = [trace]
    ∧ trace = Call <$> indices (pbegin p) (pend p)
    ∧ calls trace = indices (pbegin p) (pend p)
    ∧ rendezvous_count trace = 0%nat.
Proof.
  exists (exec_range (pbegin p) (pend p)).
  split; [done|]. split; [done|].
  split; [apply calls_exec_range | apply rendezvous_count_exec_range].
Qed.

End ForFacts.

(** ** ParallelReduce: merge order, sums, empty ranges, teams *)

Module ReduceFacts.
Import WorkPartitioner WorkStealing PartitionFacts StealFacts ForFacts.

Section merge.
Context {V : Type}.
Variable R : Reducer V.

Lemma merge_steps (a : V) (rest : list V) (k : nat) :
  (k ≤ length rest)%nat →
  foldl (λ st i,
           match st !! 0%nat, st !! i with
           | Some dst, Some src => <[0%nat := join R dst src]> st
           | _, _ => st
           end) (a :: rest) (seq 1 k)
  = foldl (join R) a (take k rest) :: rest.
Proof.
  induction k as [|k IH]; intros Hk; [done|].
  rewrite seq_S, foldl_app, IH by lia. simpl.
  destruct (lookup_lt_is_Some_2 rest k ltac:(lia)) as [b Hb].
  rewrite Hb. erewrite take_S_r by done. by rewrite foldl_snoc.
Qed.

(** The merge loop is the left fold of [join] over the buffers in
    ascending rank order, left in the buffer of rank 0. *)
Lemma merge_fold (a : V) (rest : list V) :
  merge R (a :: rest) = foldl (join R) a rest :: rest.
Proof.
  unfold merge. simpl. rewrite Nat.sub_0_r.
  rewrite merge_steps by done. by rewrite firstn_all.
Qed.

End merge.

Section range.
Import ParallelReduceRange.
Context {V : Type}.
Variable R : Reducer V.
Variable functor : Z → V → V.

Lemma exec_ranges_fold b rs u :
  foldl (λ (u : V) (r : Z * Z), exec_range functor (r.1 + b) (r.2 + b) u) u rs
  = foldl (λ u i, functor i u) u (worker_indices b rs).
Proof.
  revert u. unfold worker_indices.
  induction rs as [|r rs IH]; intros u; [done|].
  rewrite fmap_cons, concat_cons, foldl_app. simpl. by rewrite IH.
Qed.

(** A worker folds the functor, from [init], over the indices of the
    ranges it receives, in the order it receives them. *)
Lemma worker_fold p pool arrivals w :
  0 < chunk_size p →
  worker R functor p pool arrivals w
  = foldl (λ u i, functor i u) (init R)
          (worker_indices (pbegin p) (work_ranges p pool arrivals w)).
Proof.
  intros Hc. unfold worker, work_ranges. destruct (is_dynamic p) eqn:Hd.
  - rewrite do_while_stops; [apply exec_ranges_fold|].
    pose proof (steal_run_stops (pend p - pbegin p) (chunk_size p) pool
                  arrivals Hc) as Hs.
    destruct (_ !! w) as [rs|] eqn:Hw; simpl.
    + rewrite Forall_lookup in Hs. by eapply Hs.
    + intros i r Hi. done.
  - simpl. unfold worker_indices, range_indices. simpl.
    by rewrite app_nil_r.
Qed.

(** On a non-empty range the value written through the result
    pointer is [final] of the left fold of [join] over the workers'
    partial values in ascending rank order. *)
Lemma execute_merge p (s0 : V) (store : list V) arrivals :
  pbegin p < pend p →
  let pool := S (length store) in
  (execute R functor p (s0 :: store) arrivals true).2
  = Some (final R (foldl (join R)
                     (worker R functor p pool arrivals 0)
                     (worker R functor p pool arrivals <$> seq 1 (length store)))).
Proof.
  intros Hne pool. unfold execute.
  destruct (Z.leb_spec (pend p) (pbegin p)) as [?|_]; [lia|].
  cbn [snd]. rewrite imap_seq_0. cbn [length]. subst pool.
  rewrite <- cons_seq, fmap_cons, merge_fold. done.
Qed.

Lemma execute_empty p store arrivals has_result :
  pend p ≤ pbegin p →
  execute R functor p store arrivals has_result
  = (store, if has_result then Some (final R (init R)) else None).
Proof.
  intros He. unfold execute.
  by destruct (Z.leb_spec (pend p) (pbegin p)) as [_|?]; [|lia].
Qed.
End range.

Lemma foldl_sumZ g a l : foldl (λ u i, u + g i) a l = a + sumZ g l.
Proof.
  unfold sumZ. revert a. induction l as [|i l IH] using rev_ind; intros a.
  - simpl. lia.
  - rewrite !foldl_snoc, IH. lia.
Qed.

Lemma sumZ_cons g i l : sumZ g (i :: l) = g i + sumZ g l.
Proof. unfold sumZ at 1. simpl. by rewrite foldl_sumZ. Qed.

Lemma sumZ_app g l1 l2 : sumZ g (l1 ++ l2) = sumZ g l1 + sumZ g l2.
Proof. unfold sumZ at 1. by rewrite foldl_app, foldl_sumZ. Qed.

Lemma sumZ_perm g l1 l2 : l1 ≡ₚ l2 → sumZ g l1 = sumZ g l2.
Proof.
  induction 1 as [|x l l' _ IH|x y l|l l' l'' _ IH1 _ IH2].
  - done.
  - by rewrite !sumZ_cons, IH.
  - rewrite !sumZ_cons. lia.
  - by rewrite IH1.
Qed.

Lemma foldl_add_sumZ {A : Type} g a (f : A → list Z) (l : list A) :
  foldl Z.add a ((λ x, sumZ g (f x)) <$> l) = a + sumZ g (concat (f <$> l)).
Proof.
  revert a. induction l as [|x l IH]; intros a.
  - unfold sumZ. simpl. lia.
  - rewrite !fmap_cons, concat_cons. cbn [foldl]. rewrite IH, sumZ_app. lia.
Qed.

(** C1: with the Reducer of a sum, [execute] of [ParallelReduce] over a
    [RangePolicy] writes the sequential left-to-right sum of the
    contributions of [begin .. end - 1] through the result pointer: for
    every range, every pool size (one buffer per worker, at least one),
    both schedules and every order in which the workers claim chunks. *)
Theorem run_reduce_sum (g : Z → Z) p (store : list Z) arrivals :
  0 < chunk_size p → (0 < length store)%nat →
  (ParallelReduceRange.execute sum_reducer (λ i u, u + g i) p store arrivals
     true).2
  = Some (foldl (λ u i, u + g i) 0 (indices (pbegin p) (pend p))).
Proof.
  intros Hc Hn. destruct store as [|s0 store]; [simpl in Hn; lia|].
  destruct (Z.le_gt_cases (pend p) (pbegin p)) as [He|Hne].
  - rewrite execute_empty by done. simpl. by rewrite indices_nil.
  - rewrite execute_merge by lia. simpl. f_equal.
    erewrite list_fmap_ext; last first.
    { intros i w _. rewrite worker_fold by done. simpl.
      fold (sumZ g (worker_indices (pbegin p)
                      (work_ranges p (S (length store)) arrivals w))). done. }
    rewrite worker_fold by done. simpl.
    rewrite foldl_add_sumZ, foldl_sumZ, Z.add_0_l.
    rewrite <- sumZ_app.
    fold (sumZ g (indices (pbegin p) (pend p))). apply sumZ_perm.
    rewrite <- (work_ranges_cover p (S (length store)) arrivals) by (done || lia).
    by rewrite <- cons_seq.
Qed.

Lemma run_reduce_sum_witness :
  let p := {| pbegin := 0; pend := 10; chunk_size := 3;
              schedule := Dynamic |} in
  (0 < chunk_size p ∧ (0 < length [7; 7; 7; 7])%nat)
  ∧ (ParallelReduceRange.execute sum_reducer (λ i u, u + (i + 1)) p
       [7; 7; 7; 7] [3; 1; 1; 0]%nat true).2 = Some 55.
Proof.
  intros p. split; [simpl; lia|].
  exact (run_reduce_sum (λ i, i + 1) p [7; 7; 7; 7] [3; 1; 1; 0]%nat
           ltac:(simpl; lia) ltac:(simpl; lia)).
Defined.

(** The example of the specification: the values [index + 1] over
    [0 .. 9] sum to 55 with 1, 2, 4 and 8 workers, under both schedules. *)
Example run_reduce_55 :
  ∀ s, (λ n, (ParallelReduceRange.execute sum_reducer (λ i u, u + (i + 1))
                {| pbegin := 0; pend := 10; chunk_size := 1; schedule := s |}
                (replicate n 0) [1; 0; 3; 1; 2]%nat true).2)
       <$> [1; 2; 4; 8]%nat
       = [Some 55; Some 55; Some 55; Some 55].
Proof. intros []; vm_compute; reflexivity. Qed.

Section order.
Import ParallelReduceRange.
Context {V : Type}.
Variable R : Reducer V.
Variable functor : Z → V → V.

Lemma worker_static p pool arrivals arrivals' w :
  schedule p = Static →
  worker R functor p pool arrivals w = worker R functor p pool arrivals' w.
Proof. intros Hs. unfold worker, work_ranges, is_dynamic. by rewrite Hs. Qed.

(** C6 (as amended): on a non-empty range the partial values of the
    workers, listed by ascending rank as [v0 :: vs], are merged by the
    left fold [join (.. (join (join v0 v1) v2) ..) v_last] and [final]
    is applied once; under the Static schedule the value written is
    the same for every run with the same policy, functor and pool
    size, whatever the buffers held before and whatever the workers'
    timing. *)
Theorem run_reduce_merge_order p (store : list V) arrivals :
  pbegin p < pend p → (0 < length store)%nat →
  (∃ v0 vs,
     worker R functor p (length store) arrivals <$> seq 0 (length store)
       = v0 :: vs
     ∧ (execute R functor p store arrivals true).2
       = Some (final R (foldl (join R) v0 vs)))
  ∧ (schedule p = Static →
     ∀ store' arrivals', length store' = length store →
       (execute R functor p store' arrivals' true).2
       = (execute R functor p store arrivals true).2).
Proof.
  intros Hne Hn. split.
  - destruct store as [|s0 store]; [simpl in Hn; lia|].
    eexists _, _. split; [|by apply execute_merge].
    cbn [length]. by rewrite <- cons_seq, fmap_cons.
  - intros Hs store' arrivals' Hlen.
    destruct store as [|s0 store]; [simpl in Hn; lia|].
    destruct store' as [|s0' store']; [done|].
    rewrite !execute_merge by done. simpl in Hlen.
    assert (length store' = length store) as -> by lia.
    rewrite (worker_static p _ arrivals' arrivals 0 Hs).
    do 3 f_equal. apply list_fmap_ext. intros i w _.
    by apply worker_static.
Qed.
End order.

Lemma run_reduce_merge_order_witness :
  let p := {| pbegin := 0; pend := 4; chunk_size := 1; schedule := Static |} in
  let f := λ (i : Z) (u : list Z), u ++ [i] in
  (pbegin p < pend p ∧ (0 < length [[9]; [9]])%nat)
  ∧ (∃ v0 vs,
       ParallelReduceRange.worker append_reducer f p 2 [] <$> seq 0 2 = v0 :: vs
       ∧ (ParallelReduceRange.execute append_reducer f p [[9]; [9]] [] true).2
         = Some (foldl app v0 vs))
    ∧ (schedule p = Static →
       ∀ store' arrivals', length store' = 2%nat →
         (ParallelReduceRange.execute append_reducer f p store' arrivals' true).2
         = (ParallelReduceRange.execute append_reducer f p [[9]; [9]] [] true).2).
Proof.
  intros p f. split; [simpl; lia|].
  exact (run_reduce_merge_order append_reducer f p [[9]; [9]] []
           ltac:(simpl; lia) ltac:(simpl; lia)).
Defined.

(** C6, as stated, fails under the Dynamic schedule: with an
    associative Reducer that is not commutative, two runs on the same
    policy, functor and pool differ as soon as the workers claim the two
    chunks in a different order. *)
Lemma run_reduce_dynamic_not_reproducible :
  let p := {| pbegin := 0; pend := 2; chunk_size := 1; schedule := Dynamic |} in
  let f := λ (i : Z) (u : list Z), u ++ [i] in
  (ParallelReduceRange.execute append_reducer f p [[]; []] [0; 1]%nat true).2
    = Some [0; 1]
  ∧ (ParallelReduceRange.execute append_reducer f p [[]; []] [1; 0]%nat true).2
    = Some [1; 0]
  ∧ (ParallelReduceRange.execute append_reducer f p [[]; []] [0; 1]%nat true).2
    ≠ (ParallelReduceRange.execute append_reducer f p [[]; []] [1; 0]%nat true).2.
Proof.
  intros p f. split; [reflexivity|]. split; [reflexivity|]. discriminate.
Qed.

Section team.
Import TeamOrganizer ParallelReduceTeam.
Context {V : Type}.
Variable R : Reducer V.
Variable functor : nat → Z → V → V.

Lemma team_execute_merge p (s0 : V) (store : list V) stolen :
  league_size p ≠ 0 → team_size p ≠ 0%nat →
  let pool := S (length store) in
  (execute R functor p (s0 :: store) stolen true).2
  = Some (final R (foldl (join R)
                     (worker R functor p pool stolen 0)
                     (worker R functor p pool stolen <$> seq 1 (length store)))).
Proof.
  intros Hl Ht pool. unfold execute.
  destruct (Z.eqb_spec (league_size p) 0) as [?|_]; [done|].
  destruct (Nat.eqb_spec (team_size p) 0) as [?|_]; [done|].
  cbn [orb snd]. rewrite imap_seq_0. cbn [length]. subst pool.
  rewrite <- cons_seq, fmap_cons, merge_fold. done.
Qed.

Lemma team_execute_empty p store stolen has_result :
  league_size p = 0 ∨ team_size p = 0%nat →
  execute R functor p store stolen has_result
  = (store, if has_result then Some (final R (init R)) else None).
Proof.
  intros He. unfold execute.
  destruct (Z.eqb_spec (league_size p) 0) as [?|?]; [done|].
  destruct (Nat.eqb_spec (team_size p) 0) as [?|?]; [done|].
  by destruct He.
Qed.

(** C10: in the team reduce every worker of the pool leaves the region
    with its buffer initialised: the buffers after the region are
    [worker] of each rank, whatever they held before, and that of a
    worker [organize_team] left inactive is exactly [init].  The merge
    is the left fold of [join] over the buffers of all [pool_size]
    ranks in ascending order, followed by [final]. *)
Theorem team_reduce_inactive_identity p (store : list V) stolen :
  league_size p ≠ 0 → team_size p ≠ 0%nat → (0 < length store)%nat →
  let pool := length store in
  let slots := worker R functor p pool stolen <$> seq 0 pool in
  length slots = pool
  ∧ (∀ w, (w < pool)%nat → organize_team pool (team_size p) w = false →
          slots !! w = Some (init R))
  ∧ (∃ v0 vs,
       slots = v0 :: vs
       ∧ (execute R functor p store stolen true).2
         = Some (final R (foldl (join R) v0 vs))).
Proof.
  intros Hl Ht Hn pool slots. split; [|split].
  - subst slots. by rewrite length_fmap, length_seq.
  - intros w Hw Hin. subst slots.
    rewrite list_lookup_fmap, lookup_seq_lt by done. simpl.
    unfold worker. by rewrite Hin.
  - subst slots pool. destruct store as [|s0 store]; [simpl in Hn; lia|].
    eexists _, _. split; [|by apply team_execute_merge].
    cbn [length]. by rewrite <- cons_seq, fmap_cons.
Qed.
End team.

Lemma team_reduce_inactive_identity_witness :
  let p := {| league_size := 5; team_size := 2; team_chunk_size := 1;
              team_iter := 1; team_schedule := Static |} in
  let f := λ (w : nat) (r : Z) (u : list Z), u ++ [r] in
  let store := [[7]; [7]; [7]; [7]; [7]] in
  let slots := ParallelReduceTeam.worker append_reducer f p 5 (λ _, []) <$> seq 0 5 in
  (league_size p ≠ 0 ∧ team_size p ≠ 0%nat ∧ (0 < length store)%nat)
  ∧ length slots = 5%nat
  ∧ (∀ w, (w < 5)%nat → TeamOrganizer.organize_team 5 2 w = false →
          slots !! w = Some [])
  ∧ (∃ v0 vs,
       slots = v0 :: vs
       ∧ (ParallelReduceTeam.execute append_reducer f p store (λ _, []) true).2
         = Some (foldl app v0 vs)).
Proof.
  intros p f store slots. split; [simpl; repeat split; (lia || discriminate)|].
  exact (team_reduce_inactive_identity append_reducer f p store (λ _, [])
           ltac:(simpl; lia) ltac:(simpl; lia) ltac:(simpl; lia)).
Defined.

(** C8: on an empty range ([begin = end]), and in the team variant with
    [league_size = 0] or [team_size = 0], [execute] returns before the
    region: no buffer is touched, neither the functor nor [join] is
    called, and the value written through the result pointer is
    [final] applied to [init]. *)
Theorem run_reduce_empty_identity {V : Type} (R : Reducer V)
    (functor : Z → V → V) (team_functor : nat → Z → V → V)
    p tp (store : list V) arrivals stolen :
  pbegin p = pend p →
  league_size tp = 0 ∨ team_size tp = 0%nat →
  ParallelReduceRange.execute R functor p store arrivals true
    = (store, Some (final R (init R)))
  ∧ ParallelReduceTeam.execute R team_functor tp store stolen true
    = (store, Some (final R (init R))).
Proof.
  intros Hp Ht. split.
  - by rewrite execute_empty by lia.
  - by rewrite team_execute_empty.
Qed.

Lemma run_reduce_empty_identity_witness :
  let p := {| pbegin := 3; pend := 3; chunk_size := 1; schedule := Dynamic |} in
  let tp := {| league_size := 0; team_size := 2; team_chunk_size := 1;
               team_iter := 1; team_schedule := Static |} in
  (pbegin p = pend p ∧ (league_size tp = 0 ∨ team_size tp = 0%nat))
  ∧ ParallelReduceRange.execute sum_reducer (λ i u, u + i) p [5; 6] [1]%nat true
    = ([5; 6], Some 0)
  ∧ ParallelReduceTeam.execute sum_reducer (λ w r u, u + r) tp [5; 6] (λ _, []) true
    = ([5; 6], Some 0).
Proof.
  intros p tp. split; [split; [reflexivity | left; reflexivity]|].
  exact (run_reduce_empty_identity sum_reducer (λ i u, u + i) (λ w r u, u + r)
           p tp [5; 6] [1]%nat (λ _, []) eq_refl (or_introl eq_refl)).
Defined.

(** With the recording Reducer: on an empty range the value written is
    [init] then [final], and nothing else; on [0 .. 2] with two workers
    it is each worker's [init] and calls, one [join], one [final]. *)
Example run_reduce_empty_log :
  ParallelReduceRange.execute log_reducer log_functor
    {| pbegin := 4; pend := 4; chunk_size := 1; schedule := Static |}
    [[]; []] [] true
  = ([[]; []], Some [DidInit; DidFinal]).
Proof. reflexivity. Qed.

Example run_reduce_log :
  (ParallelReduceRange.execute log_reducer log_functor
     {| pbegin := 0; pend := 3; chunk_size := 1; schedule := Static |}
     [[]; []] [] true).2
  = Some [DidInit; DidCall 0; DidCall 1; DidInit; DidCall 2; DidJoin; DidFinal].
Proof. reflexivity. Qed.

End ReduceFacts.

(** ** ParallelScan: carry walk and exclusive prefixes *)

Module ScanFacts.
Import WorkPartitioner PartitionFacts StealFacts ForFacts ParallelScan.

Section carry.
Context {V : Type}.
Variable R : Reducer V.

Lemma carried_upto_lookup store k i s :
  store !! i = Some s →
  carried_upto R store k !! i
  = Some (if (i <? k)%nat
          then {| update_sum := update_sum s;
                  update_base := foldl (join R) (init R)
                                   (update_sum <$> take i store) |}
          else s).
Proof. intros Hi. unfold carried_upto. by rewrite list_lookup_imap, Hi. Qed.

Lemma carried_upto_length store k :
  length (carried_upto R store k) = length store.
Proof. unfold carried_upto. apply length_imap. Qed.

Lemma carry_walk_upto store k :
  (k ≤ length store)%nat →
  foldl (carry_step R) store (seq 0 k) = carried_upto R store k.
Proof.
  induction k as [|k IH]; intros Hk.
  - simpl. unfold carried_upto. apply list_eq. intros i.
    rewrite list_lookup_imap. by destruct (store !! i).
  - rewrite seq_S, foldl_app, IH by lia. cbn [foldl Nat.add].
    destruct (lookup_lt_is_Some_2 store k ltac:(lia)) as [sk Hsk].
    apply list_eq. intros i.
    destruct (store !! i) as [si|] eqn:Hsi; last first.
    { apply lookup_ge_None in Hsi.
      rewrite (lookup_ge_None_2 (carried_upto R store (S k)))
        by (by rewrite carried_upto_length).
      apply lookup_ge_None_2. unfold carry_step.
      destruct k; [by rewrite length_alter, carried_upto_length|].
      repeat case_match; rewrite ?length_insert, carried_upto_length; lia. }
    rewrite (carried_upto_lookup _ (S k) _ _ Hsi).
    unfold carry_step. destruct k as [|prev].
    + rewrite list_lookup_alter. destruct (decide (0%nat = i)) as [<-|Hi].
      * rewrite (carried_upto_lookup _ 0 _ _ Hsi). simpl. done.
      * rewrite (carried_upto_lookup _ 0 _ _ Hsi). simpl.
        destruct i; [done|]. done.
    + destruct (lookup_lt_is_Some_2 store prev ltac:(lia)) as [sp Hsp].
      rewrite (carried_upto_lookup _ (S prev) _ _ Hsp).
      rewrite (carried_upto_lookup _ (S prev) _ _ Hsk).
      rewrite Nat.ltb_irrefl.
      destruct (Nat.ltb_spec prev (S prev)) as [_|?]; [|lia].
      destruct (decide (S prev = i)) as [<-|Hi].
      * rewrite list_lookup_insert_eq by (rewrite carried_upto_length; lia).
        destruct (Nat.ltb_spec (S prev) (S (S prev))) as [_|?]; [|lia].
        rewrite Hsk in Hsi. injection Hsi as <-.
        simpl. do 2 f_equal.
        erewrite (take_S_r store prev) by done.
        by rewrite fmap_app, foldl_app.
      * rewrite list_lookup_insert_ne by done.
        rewrite (carried_upto_lookup _ (S prev) _ _ Hsi).
        destruct (Nat.ltb_spec i (S prev)), (Nat.ltb_spec i (S (S prev)));
          (done || lia).
Qed.

Lemma carry_walk_all (store : list (slot V)) :
  carry_walk R store = carried_upto R store (length store).
Proof. unfold carry_walk. by apply carry_walk_upto. Qed.

Lemma carry_walk_bases (store : list (slot V)) :
  carry_walk R store
  = imap (λ i s, {| update_sum := update_sum s;
                    update_base := foldl (join R) (init R)
                                     (update_sum <$> take i store) |})
         store.
Proof.
  rewrite carry_walk_all.
  unfold carried_upto. apply list_eq. intros i.
  rewrite !list_lookup_imap.
  destruct (store !! i) eqn:Hi; simpl; [|done].
  apply lookup_lt_Some in Hi.
  by destruct (Nat.ltb_spec i (length store)) as [_|?]; [|lia].
Qed.

(** C5: after the leader's walk over the ranks, and so before the second
    pass, the base stored in the buffer of every worker [i] is the left
    fold of [join], from [init], over the local sums of the workers
    [0 .. i - 1] in ascending rank order (so the base of worker 0 is
    [init]), and the local sum of every worker is the one it had before
    the walk.  This holds for any Reducer and any content of the buffers. *)
Theorem scan_carry_walk_bases (store : list (slot V)) :
  carry_walk R store
  = imap (λ i s, {| update_sum := update_sum s;
                    update_base := foldl (join R) (init R)
                                     (update_sum <$> take i store) |})
         store
  ∧ update_sum <$> carry_walk R store = update_sum <$> store
  ∧ (update_base <$> carry_walk R store) !! 0%nat
    = (λ _, init R) <$> store !! 0%nat.
Proof.
  rewrite carry_walk_bases. split; [done|]. split.
  - rewrite fmap_imap. apply list_eq. intros i.
    rewrite list_lookup_imap, list_lookup_fmap. by destruct (store !! i).
  - rewrite list_lookup_fmap, list_lookup_imap. by destruct store.
Qed.
End carry.

Section passes.
Context {V : Type}.
Variable R : Reducer V.
Variable functor : Z → V → bool → V.

(** [exec_range] returns the fold of the functor over the range and
    logs, at every index, the fold over the indices before it. *)
Lemma exec_range_steps b (n : nat) u fin :
  exec_range functor b (b + Z.of_nat n) u fin
  = (foldl (λ u i, functor i u fin) u (indices b (b + Z.of_nat n)),
     (λ i, {| c_index := i;
              c_update := foldl (λ u i, functor i u fin) u (indices b i);
              c_final := fin |}) <$> indices b (b + Z.of_nat n)).
Proof.
  unfold exec_range, indices.
  induction n as [|n IH].
  - replace (b + Z.of_nat 0 - b) with 0 by lia. done.
  - replace (b + Z.of_nat (S n) - b) with (Z.of_nat (S n)) by lia.
    replace (b + Z.of_nat n - b) with (Z.of_nat n) in IH by lia.
    rewrite seqZ_S, !foldl_snoc, IH, fmap_app. simpl.
    by replace (b + Z.of_nat n - b) with (Z.of_nat n) by lia.
Qed.

Lemma exec_range_spec b e u fin :
  exec_range functor b e u fin
  = (foldl (λ u i, functor i u fin) u (indices b e),
     (λ i, {| c_index := i;
              c_update := foldl (λ u i, functor i u fin) u (indices b i);
              c_final := fin |}) <$> indices b e).
Proof.
  destruct (Z.le_gt_cases e b) as [He|He].
  - unfold exec_range. by rewrite indices_nil.
  - replace e with (b + Z.of_nat (Z.to_nat (e - b))) by lia.
    apply exec_range_steps.
Qed.
End passes.

Section scan.
Context {V : Type}.
Variable R : Reducer V.
Variable g : Z → V.
Hypothesis join_assoc :
  ∀ a b c, join R (join R a b) c = join R a (join R b c).
Hypothesis join_init_r : ∀ a, join R a (init R) = a.

Lemma contribute_from a l :
  foldl (contribute R g) a l = join R a (prefix_fold R g l).
Proof using join_assoc join_init_r.
  unfold prefix_fold.
  induction l as [|i l IH] using rev_ind.
  - simpl. by rewrite join_init_r.
  - rewrite !foldl_snoc, IH. unfold contribute. by rewrite join_assoc.
Qed.

Lemma prefix_app l1 l2 :
  prefix_fold R g (l1 ++ l2)
  = join R (prefix_fold R g l1) (prefix_fold R g l2).
Proof using join_assoc join_init_r.
  unfold prefix_fold at 1. by rewrite foldl_app, contribute_from.
Qed.

Lemma prefix_concat {A : Type} (f : A → list Z) (l : list A) :
  foldl (join R) (init R) ((λ x, prefix_fold R g (f x)) <$> l)
  = prefix_fold R g (concat (f <$> l)).
Proof using join_assoc join_init_r.
  induction l as [|x l IH] using rev_ind; [done|].
  rewrite !fmap_app, foldl_app, concat_app, prefix_app, IH. simpl.
  by rewrite app_nil_r.
Qed.

Variable p : RangePolicy.
Variable store : list (slot V).
Hypothesis chunk_pos : 0 < chunk_size p.
Hypothesis pool_pos : (0 < length store)%nat.

Lemma WorkRange_cuts w :
  WorkRange p w (length store)
  = (slice_begin p (length store) w, slice_begin p (length store) (S w)).
Proof.
  unfold WorkRange, slice_begin. by rewrite get_work_partition_cut.
Qed.

Lemma slice_begin_mono w :
  slice_begin p (length store) w ≤ slice_begin p (length store) (S w).
Proof using chunk_pos pool_pos.
  unfold slice_begin.
  pose proof (cut_mono (pend p - pbegin p) (chunk_size p) (length store) w
                chunk_pos pool_pos).
  lia.
Qed.

Lemma slice_begin_0 : slice_begin p (length store) 0 = pbegin p.
Proof using pool_pos. unfold slice_begin. rewrite cut_0 by done. lia. Qed.

Lemma slice_begin_last :
  indices (pbegin p) (slice_begin p (length store) (length store))
  = indices (pbegin p) (pend p).
Proof using chunk_pos pool_pos.
  unfold slice_begin. rewrite cut_last by done. apply indices_max.
Qed.

Lemma slices_below w :
  concat (slice_of p (length store) <$> seq 0 w)
  = indices (pbegin p) (slice_begin p (length store) w).
Proof using chunk_pos pool_pos.
  unfold slice_of.
  rewrite (concat_cuts (slice_begin p (length store)) slice_begin_mono).
  by rewrite slice_begin_0.
Qed.

(** The buffers after the first pass. *)
Lemma first_pass :
  fst <$> imap (pass1 R (scan_functor R g) p (length store)) store
  = imap (λ w s, {| update_sum := prefix_fold R g (slice_of p (length store) w);
                    update_base := update_base s |}) store.
Proof.
  rewrite fmap_imap. apply imap_ext. intros w s _. simpl.
  unfold pass1. rewrite WorkRange_cuts, exec_range_spec. done.
Qed.

(** The buffers after the rendezvous: every base is the exclusive
    prefix at the first index of the worker's slice. *)
Lemma carried :
  carry_walk R (fst <$> imap (pass1 R (scan_functor R g) p (length store)) store)
  = imap (λ w s,
            {| update_sum := prefix_fold R g (slice_of p (length store) w);
               update_base := prefix_at R g p (slice_begin p (length store) w) |})
         store.
Proof using All.
  rewrite carry_walk_bases, first_pass.
  apply list_eq. intros w. rewrite !list_lookup_imap.
  destruct (store !! w) as [s|] eqn:Hw; simpl; [|done]. do 2 f_equal.
  apply lookup_lt_Some in Hw.
  rewrite fmap_take, fmap_imap.
  rewrite (imap_ext _ (λ i _, prefix_fold R g (slice_of p (length store) i)))
    by done.
  rewrite imap_seq_0, <- fmap_take, take_seq.
  replace (w `min` length store)%nat with w by lia.
  unfold prefix_at. rewrite <- slices_below.
  apply (prefix_concat (slice_of p (length store))).
Qed.

Lemma prefix_from_base w i :
  slice_begin p (length store) w ≤ i →
  foldl (λ u k, scan_functor R g k u true)
        (prefix_at R g p (slice_begin p (length store) w))
        (indices (slice_begin p (length store) w) i)
  = prefix_at R g p i.
Proof using All.
  intros Hi.
  pose proof (cuts_le (slice_begin p (length store)) slice_begin_mono 0 w
                ltac:(lia)) as H0.
  rewrite slice_begin_0 in H0.
  change (foldl (λ u k, scan_functor R g k u true))
    with (foldl (contribute R g)).
  unfold prefix_at. rewrite contribute_from, <- prefix_app.
  by rewrite <- indices_app.
Qed.

Lemma second_pass w s :
  pass2 (scan_functor R g) p (length store) w
    {| update_sum := s;
       update_base := prefix_at R g p (slice_begin p (length store) w) |}
  = ({| update_sum := s;
        update_base := prefix_at R g p (slice_begin p (length store) (S w)) |},
     final_call R g p <$> slice_of p (length store) w).
Proof using All.
  unfold pass2. rewrite WorkRange_cuts, exec_range_spec. cbn [fst snd].
  pose proof (slice_begin_mono w) as Hm.
  cbn [update_base update_sum]. f_equal.
  - f_equal. by apply prefix_from_base.
  - apply list_fmap_ext. intros k i Hi. unfold final_call. f_equal.
    apply list_elem_of_lookup_2, elem_of_seqZ in Hi.
    apply prefix_from_base. lia.
Qed.

Lemma second_pass_all :
  imap (pass2 (scan_functor R g) p (length store))
       (carry_walk R (fst <$> imap (pass1 R (scan_functor R g) p (length store))
                                   store))
  = (λ w, ({| update_sum := prefix_fold R g (slice_of p (length store) w);
              update_base :=
                prefix_at R g p (slice_begin p (length store) (S w)) |},
           final_call R g p <$> slice_of p (length store) w))
      <$> seq 0 (length store).
Proof using All.
  rewrite carried. apply list_eq. intros w.
  rewrite !list_lookup_imap, list_lookup_fmap.
  destruct (store !! w) as [s|] eqn:Hw; simpl.
  - apply lookup_lt_Some in Hw. rewrite lookup_seq_lt by done. simpl.
    by rewrite second_pass.
  - apply lookup_ge_None in Hw. by rewrite lookup_seq_ge.
Qed.

Lemma concat_fmap_fmap {A B C : Type} (f : B → C) (h : A → list B)
    (l : list A) :
  concat ((λ x, f <$> h x) <$> l) = f <$> concat (h <$> l).
Proof.
  induction l as [|x l IH]; [done|].
  by rewrite !fmap_cons, !concat_cons, fmap_app, IH.
Qed.

Lemma imap_fmap_seq {A B : Type} (f : nat → A → B) (h : nat → A)
    (k : nat) :
  imap f (h <$> seq 0 k) = (λ w, f w (h w)) <$> seq 0 k.
Proof.
  apply list_eq. intros i. rewrite list_lookup_imap, !list_lookup_fmap.
  destruct (seq 0 k !! i) as [w|] eqn:Hi; [|done].
  apply lookup_seq in Hi as [-> _]. done.
Qed.

Lemma publish_below (h : nat → slot V) (m k : nat) :
  (k ≤ m)%nat →
  omap id ((λ w, publish (S m) w (h w)) <$> seq 0 k) = [].
Proof.
  induction k as [|k IH]; intros Hk; [done|].
  rewrite seq_S, fmap_app, omap_app, IH by lia. simpl. unfold publish.
  by destruct (Z.eqb_spec (Z.of_nat k) (Z.of_nat (S m) - 1)) as [?|_]; [lia|].
Qed.

Lemma publish_last (h : nat → slot V) (k : nat) :
  (0 < k)%nat →
  omap id ((λ w, publish k w (h w)) <$> seq 0 k)
  = [((k - 1)%nat, update_base (h (k - 1)%nat))].
Proof.
  intros Hk. destruct k as [|m]; [lia|].
  rewrite seq_S, fmap_app, omap_app, publish_below by done.
  simpl. rewrite Nat.sub_0_r. unfold publish.
  by destruct (Z.eqb_spec (Z.of_nat m) (Z.of_nat (S m) - 1)) as [_|?]; [|lia].
Qed.

(** C2: [execute] of [ParallelScanWithTotal] computes an exclusive
    prefix scan for every pool size.  The calls of the final pass,
    taken worker by worker in rank order, are the indices
    [begin .. end - 1] in ascending order, and at index [i] the
    functor receives the fold of the contributions of
    [begin .. i - 1] (the Reducer's [init] at [begin]).  The total over
    the whole range is stored into the return value once, by the
    worker of the highest rank.  The Reducer's [join] is associative
    and has [init] as its unit on the right. *)
Theorem run_scan_exclusive_prefix :
  let out := execute R (scan_functor R g) true p store in
  concat (out_final out)
    = (λ i, {| c_index := i;
               c_update := prefix_fold R g (indices (pbegin p) i);
               c_final := true |}) <$> indices (pbegin p) (pend p)
  ∧ out_published out
    = [((length store - 1)%nat,
        prefix_fold R g (indices (pbegin p) (pend p)))].
Proof using All.
  unfold execute. cbn [out_final out_published].
  rewrite second_pass_all, <- !list_fmap_compose. split.
  - rewrite (list_fmap_ext _
               (λ w, final_call R g p <$> slice_of p (length store) w)
               (seq 0 (length store))) by done.
    rewrite (concat_fmap_fmap _ (slice_of p (length store))).
    by rewrite slices_below, slice_begin_last.
  - set (h := λ w,
          {| update_sum := prefix_fold R g (slice_of p (length store) w);
             update_base :=
               prefix_at R g p (slice_begin p (length store) (S w)) |}).
    rewrite (list_fmap_ext _ h (seq 0 (length store))) by done.
    rewrite imap_fmap_seq.
    rewrite (publish_last h) by exact pool_pos.
    subst h. cbn [update_base]. do 2 f_equal.
    replace (S (length store - 1)) with (length store) by lia.
    unfold prefix_at. f_equal. apply slice_begin_last.
Qed.
End scan.

Lemma run_scan_exclusive_prefix_witness :
  let p := {| pbegin := 0; pend := 4; chunk_size := 1; schedule := Static |} in
  let store := replicate 3 {| update_sum := 7; update_base := 7 |} in
  let out := execute sum_reducer (scan_functor sum_reducer (λ i, i + 1)) true
                     p store in
  ((∀ a b c : Z, a + b + c = a + (b + c))
   ∧ (∀ a : Z, a + 0 = a) ∧ 0 < chunk_size p ∧ (0 < length store)%nat)
  ∧ concat (out_final out)
    = [ {| c_index := 0; c_update := 0; c_final := true |};
        {| c_index := 1; c_update := 1; c_final := true |};
        {| c_index := 2; c_update := 3; c_final := true |};
        {| c_index := 3; c_update := 6; c_final := true |} ]
  ∧ out_published out = [(2%nat, 10)].
Proof.
  intros p store out.
  split; [repeat split; intros; simpl; lia|].
  exact (run_scan_exclusive_prefix sum_reducer (λ i, i + 1)
           ltac:(simpl; intros; lia) ltac:(simpl; intros; lia) p store
           ltac:(simpl; lia) ltac:(simpl; lia)).
Defined.

(** The example of the specification: the input [1; 2; 3; 4] yields the
    exclusive prefixes [0; 1; 3; 6] and the total 10, for 1 to 8 workers. *)
Example run_scan_1234 :
  (λ n, let out := execute sum_reducer (scan_functor sum_reducer (λ i, i + 1)) true
                     {| pbegin := 0; pend := 4; chunk_size := 1; schedule := Static |}
                     (replicate n {| update_sum := 0; update_base := 0 |}) in
        (c_update <$> concat (out_final out), snd <$> out_published out))
    <$> [1; 2; 4; 8]%nat
  = replicate 4 ([0; 1; 3; 6], [10]).
Proof. vm_compute. reflexivity. Qed.

End ScanFacts.

(** ** The static slices partition the range *)

Module PartitionTheorem.
Import WorkPartitioner PartitionFacts StealFacts.

Lemma slice_indices_cut total chunk parts rank :
  slice_indices total chunk parts rank
  = indices (cut total chunk parts rank) (cut total chunk parts (S rank)).
Proof. unfold slice_indices. by rewrite get_work_partition_cut. Qed.

Lemma cut_le total chunk parts (i j : nat) :
  0 < chunk → (0 < parts)%nat → (i ≤ j)%nat →
  cut total chunk parts i ≤ cut total chunk parts j.
Proof.
  intros Hc Hp. apply (cuts_le (cut total chunk parts)).
  intros k. by apply cut_mono.
Qed.

(** The slices are whole chunks dealt as evenly as possible: two
    workers differ by at most one chunk, the lower rank never having
    fewer. *)
Lemma slice_chunks_balanced num parts rank rank' :
  0 < parts → rank ≤ rank' →
  0 ≤ slice_chunks num parts rank - slice_chunks num parts rank' ≤ 1.
Proof.
  intros Hp Hr. unfold slice_chunks.
  destruct (Z.ltb_spec rank (num mod parts)),
    (Z.ltb_spec rank' (num mod parts)); lia.
Qed.

(** C4: for every [total >= 0], [chunk_size >= 1] and [pool_size >= 1]
    (so in particular on [0..10000] x [1..64] x [1..32]) the Static
    slices of the workers partition [[0, total)]: each slice lies inside
    the range, the slices taken in rank order list [0 .. total - 1]
    without gap or repetition, and every index belongs to the slice of
    exactly one rank.  The slices are made of whole chunks, a lower rank
    owning as many chunks as a higher one or one more. *)
Theorem static_slices_partition total chunk (pool : nat) :
  0 ≤ total → 1 ≤ chunk → (1 ≤ pool)%nat →
  (∀ rank, (rank < pool)%nat →
     let r := get_work_partition total chunk pool rank in
     0 ≤ r.1 ∧ r.1 ≤ r.2 ∧ r.2 ≤ total)
  ∧ concat (all_slices total chunk pool) = indices 0 total
  ∧ (∀ k, 0 ≤ k < total →
       ∃ rank, (rank < pool)%nat
               ∧ k ∈ slice_indices total chunk pool rank
               ∧ ∀ rank', (rank' < pool)%nat →
                          k ∈ slice_indices total chunk pool rank' →
                          rank' = rank)
  ∧ (∀ rank rank' : nat, (rank ≤ rank')%nat →
       let num := chunk_count total chunk in
       0 ≤ slice_chunks num (Z.of_nat pool) (Z.of_nat rank)
           - slice_chunks num (Z.of_nat pool) (Z.of_nat rank') ≤ 1).
Proof.
  intros Ht Hc Hp.
  assert (concat (all_slices total chunk pool) = indices 0 total) as Hall.
  { rewrite all_slices_concat by lia. f_equal. lia. }
  split; [|split; [done|split]].
  - intros rank Hr. rewrite get_work_partition_cut. simpl.
    pose proof (cut_le total chunk pool 0 rank
                  ltac:(lia) ltac:(lia) ltac:(lia)) as H0.
    pose proof (cut_mono total chunk pool rank ltac:(lia) ltac:(lia)).
    pose proof (cut_le total chunk pool (S rank) pool
                  ltac:(lia) ltac:(lia) ltac:(lia)) as Hl.
    rewrite cut_0 in H0 by lia. rewrite cut_last in Hl by lia. lia.
  - intros k Hk.
    assert (k ∈ concat (all_slices total chunk pool)) as Hin.
    { rewrite Hall. apply elem_of_seqZ. lia. }
    unfold all_slices in Hin.
    apply list_elem_of_In, in_concat in Hin as (l & Hl & Hkl).
    apply list_elem_of_In, list_elem_of_fmap in Hl as (rank & -> & Hrank).
    apply list_elem_of_In in Hkl.
    apply elem_of_seq in Hrank.
    exists rank. split; [lia|]. split; [done|].
    intros rank' Hr' Hk'.
    rewrite slice_indices_cut in Hkl, Hk'.
    apply elem_of_seqZ in Hkl, Hk'.
    destruct (Nat.lt_trichotomy rank rank') as [Hlt|[Heq|Hgt]]; [|done|].
    + pose proof (cut_le total chunk pool (S rank) rank'
                    ltac:(lia) ltac:(lia) ltac:(lia)).
      lia.
    + pose proof (cut_le total chunk pool (S rank') rank
                    ltac:(lia) ltac:(lia) ltac:(lia)).
      lia.
  - intros rank rank' Hle. apply slice_chunks_balanced; lia.
Qed.

Lemma static_slices_partition_witness :
  (0 ≤ 10 ∧ 1 ≤ 3 ∧ (1 ≤ 4)%nat)
  ∧ (∀ rank, (rank < 4)%nat →
       let r := get_work_partition 10 3 4 rank in
       0 ≤ r.1 ∧ r.1 ≤ r.2 ∧ r.2 ≤ 10)
  ∧ concat (all_slices 10 3 4) = indices 0 10
  ∧ (∀ k, 0 ≤ k < 10 →
       ∃ rank, (rank < 4)%nat
               ∧ k ∈ slice_indices 10 3 4 rank
               ∧ ∀ rank', (rank' < 4)%nat →
                          k ∈ slice_indices 10 3 4 rank' →
                          rank' = rank)
  ∧ (∀ rank rank' : nat, (rank ≤ rank')%nat →
       let num := chunk_count 10 3 in
       0 ≤ slice_chunks num (Z.of_nat 4) (Z.of_nat rank)
           - slice_chunks num (Z.of_nat 4) (Z.of_nat rank') ≤ 1).
Proof.
  split; [lia|].
  exact (static_slices_partition 10 3 4 ltac:(lia) ltac:(lia) ltac:(lia)).
Defined.

Example static_slices_10_3_4 :
  all_slices 10 3 4 = [[0; 1; 2]; [3; 4; 5]; [6; 7; 8]; [9]].
Proof. reflexivity. Qed.

End PartitionTheorem.

(** ** Teams do not lap one another *)

Module TeamFacts.
Import WorkPartitioner TeamOrganizer ParallelForTeam StealFacts.

Lemma exec_team_nil rb re : re ≤ rb → exec_team rb re = [].
Proof. intros H. unfold exec_team. by rewrite indices_nil. Qed.

Lemma exec_team_cons rb re :
  rb < re →
  exec_team rb re
  = Functor rb :: (if rb + 1 <? re then TeamRendezvous :: exec_team (rb + 1) re
                   else []).
Proof.
  intros H. unfold exec_team, indices. rewrite seqZ_cons by lia.
  rewrite fmap_cons, concat_cons.
  replace (Z.pred (re - rb)) with (re - (rb + 1)) by lia.
  replace (Z.succ rb) with (rb + 1) by lia.
  destruct (Z.ltb_spec (rb + 1) re) as [Hlt|Hge]; [done|].
  simpl. by rewrite seqZ_nil by lia.
Qed.

(** The head of [exec_team] is a functor call, if anything. *)
Lemma exec_team_head r re r0 rest :
  exec_team r re = Functor r0 :: rest →
  r < re ∧ r0 = r ∧ rest = tail (exec_team r re).
Proof.
  intros H. destruct (Z.lt_ge_cases r re) as [Hlt|Hge].
  - split; [done|]. rewrite H. simpl.
    rewrite exec_team_cons in H by done. by injection H as -> _.
  - by rewrite exec_team_nil in H by lia.
Qed.

Lemma exec_team_not_rendezvous r re rest :
  exec_team r re ≠ TeamRendezvous :: rest.
Proof.
  destruct (Z.lt_ge_cases r re) as [Hlt|Hge].
  - by rewrite exec_team_cons by done.
  - by rewrite exec_team_nil by lia.
Qed.

(** After the functor call comes the rendezvous, if another rank
    follows, and then the rest of the range. *)
Lemma exec_team_tail r re :
  r < re →
  tail (exec_team r re)
  = if r + 1 <? re then TeamRendezvous :: exec_team (r + 1) re else [].
Proof. intros H. by rewrite exec_team_cons by done. Qed.

Lemma elem_of_snoc {A : Type} (l : list A) (x : A) : x ∈ l ++ [x].
Proof. apply elem_of_app. right. constructor. Qed.

Lemma rendezvous_before_snoc size pre r e :
  rendezvous_before size pre r → rendezvous_before size (pre ++ [e]) r.
Proof.
  intros (pre1 & pre2 & -> & H). exists pre1, (pre2 ++ [e]).
  split; [|done]. by rewrite <- app_assoc.
Qed.

Lemma member_at_snoc tr r re m mb e :
  member_at tr r re m mb → member_at (tr ++ [e]) r re m mb.
Proof.
  intros [H|(H1 & H2 & H3 & H4 & H5)]; [by left|right].
  repeat split; try done. apply elem_of_app. by left.
Qed.

(** Only the entry into a functor call can start a lap. *)
Lemma no_lapping_snoc size rb tr e :
  no_lapping size rb tr →
  (∀ m r, e = Began m (r + 1) → rb ≤ r → rendezvous_before size tr r) →
  no_lapping size rb (tr ++ [e]).
Proof.
  intros Hold Hnew pre m r post Heq Hr.
  destruct post as [|x post _] using rev_ind.
  - apply app_inj_tail in Heq as [-> ->]. by eapply Hnew.
  - rewrite app_comm_cons, app_assoc in Heq.
    apply app_inj_tail in Heq as [-> _]. by eapply Hold.
Qed.

Lemma team_inv_start size rb re :
  team_inv size rb re (team_start size rb re) [].
Proof.
  exists rb. split; [lia|]. split; [apply length_replicate|].
  split; [|split].
  - intros m mb [-> _]%lookup_replicate. by left.
  - lia.
  - intros pre m r post Heq. by destruct pre.
Qed.

(** A step of one member keeps the invariant when the member's new
    state fits the current rank and the event starts no lap. *)
Lemma team_inv_member size rb re team tr r m mb' e :
  rb ≤ r → length team = size →
  (∀ m mb, team !! m = Some mb → member_at tr r re m mb) →
  (rb < r → rendezvous_before size tr (r - 1)) →
  no_lapping size rb tr →
  (m < length team)%nat →
  member_at (tr ++ [e]) r re m mb' →
  (∀ m0 r0, e = Began m0 (r0 + 1) → r0 + 1 = r) →
  team_inv size rb re (<[m := mb']> team) (tr ++ [e]).
Proof.
  intros Hr Hlen Hmem Hprev Hlap Hm Hnew He.
  exists r. split; [done|]. split; [by rewrite length_insert|].
  split; [|split].
  - intros m' mb Hm'. destruct (decide (m = m')) as [<-|Hne].
    + rewrite list_lookup_insert_eq in Hm' by done. by injection Hm' as <-.
    + rewrite list_lookup_insert_ne in Hm' by done.
      by apply member_at_snoc, Hmem.
  - intros H. by apply rendezvous_before_snoc, Hprev.
  - apply no_lapping_snoc; [done|]. intros m0 r0 Heq Hr0.
    specialize (He m0 r0 Heq). replace r0 with (r - 1) by lia.
    apply Hprev. lia.
Qed.

Lemma team_inv_step size rb re team tr c team' e :
  team_step team c = Some (team', e) →
  team_inv size rb re team tr →
  team_inv size rb re team' (tr ++ [e]).
Proof.
  intros Hstep (r & Hr & Hlen & Hmem & Hprev & Hlap).
  destruct c as [m|]; simpl in Hstep.
  - destruct (team !! m) as [mb|] eqn:Hm; [|done].
    pose proof (lookup_lt_Some _ _ _ Hm) as Hmlt.
    destruct (arrived mb) eqn:Harr; [done|].
    destruct (todo mb) as [|[r0|] rest] eqn:Htodo; [done| |].
    + destruct (Hmem m mb Hm) as [[Ht _]|(Hlt & Ht & _)];
        rewrite Htodo in Ht; last first.
      { rewrite exec_team_tail in Ht by done.
        by destruct (r + 1 <? re). }
      symmetry in Ht. apply exec_team_head in Ht as (Hlt & -> & ->).
      destruct (in_functor mb) eqn:Hin; injection Hstep as <- <-.
      * (* the member returns from the functor *)
        eapply team_inv_member; try done.
        right. simpl. repeat split; [done|apply elem_of_snoc|done].
      * (* the member enters the functor *)
        eapply team_inv_member; try done.
        -- left. simpl. split; [|done].
           destruct (Hmem m mb Hm) as [[Ht _]|(_ & Ht & _)].
           ++ by rewrite <- Ht, Htodo.
           ++ rewrite Htodo in Ht. rewrite exec_team_tail in Ht by done.
              by destruct (r + 1 <? re).
        -- by intros m0 r0 [= _ ->].
    + destruct (in_functor mb) eqn:Hin; [done|]. injection Hstep as <- <-.
      (* the member calls the rendezvous *)
      destruct (Hmem m mb Hm) as [[Ht _]|(Hlt & Ht & _ & Hran & _)];
        rewrite Htodo in Ht.
      { symmetry in Ht. by apply exec_team_not_rendezvous in Ht. }
      eapply team_inv_member; try done.
      right. simpl. repeat split; [done|done|by apply elem_of_app; left|].
      intros _. rewrite exec_team_tail in Ht by done.
      by destruct (Z.ltb_spec (r + 1) re).
  - (* the rendezvous completes *)
    destruct (forallb arrived team) eqn:Hall; [|done].
    injection Hstep as <- <-.
    rewrite forallb_forall in Hall.
    assert (∀ m mb, team !! m = Some mb →
              r + 1 < re ∧ todo mb = tail (exec_team r re) ∧ Ran m r ∈ tr)
      as Hwait.
    { intros m mb Hm.
      assert (arrived mb = true) as Ha.
      { apply Hall. by eapply list_elem_of_In, list_elem_of_lookup_2. }
      destruct (Hmem m mb Hm) as [[_ Hf]|(Hlt & Ht & _ & Hran & Hnext)];
        [congruence|]. auto. }
    destruct team as [|mb0 team0] eqn:Hteam.
    + exists r. split; [done|]. split; [done|]. split; [|split].
      * intros m mb Hm. done.
      * intros H. by apply rendezvous_before_snoc, Hprev.
      * apply no_lapping_snoc; [done|]. intros m' r' [=].
    + rewrite <- Hteam in *. clear Hteam mb0 team0.
      exists (r + 1). split; [lia|]. split; [by rewrite length_fmap|].
      split; [|split].
      * intros m mb' Hm. rewrite list_lookup_fmap in Hm.
        destruct (team !! m) as [mb|] eqn:Hmb; [|done].
        injection Hm as <-. left. simpl. split; [|done].
        destruct (Hwait m mb Hmb) as (Hlt & -> & _).
        rewrite exec_team_tail by lia.
        by destruct (Z.ltb_spec (r + 1) re) as [_|?]; [|lia].
      * intros _. replace (r + 1 - 1) with r by lia.
        exists tr, []. split; [done|].
        intros m Hmlt.
        destruct (lookup_lt_is_Some_2 team m ltac:(lia)) as [mb Hmb].
        by destruct (Hwait m mb Hmb) as (_ & _ & ?).
      * apply no_lapping_snoc; [done|]. intros m' r' [=].
Qed.

Lemma team_inv_run size rb re cs team tr team' tr' :
  team_run team tr cs = Some (team', tr') →
  team_inv size rb re team tr →
  team_inv size rb re team' tr'.
Proof.
  revert team tr. induction cs as [|c cs IH]; intros team tr Hrun Hinv.
  - by injection Hrun as <- <-.
  - simpl in Hrun.
    destruct (team_step team c) as [[team1 e]|] eqn:Hstep; [|done].
    eapply IH; [exact Hrun|]. by eapply team_inv_step.
Qed.

(** One call of [exec_team] that the members of a team enter together:
    under any scheduling of the members, a member enters the functor
    for league rank [r + 1] only after a team rendezvous has completed,
    which every member of the team entered after returning from the
    functor for rank [r]. *)
Lemma exec_team_call_no_lapping size rb re cs team trace :
  team_run (team_start size rb re) [] cs = Some (team, trace) →
  ∀ pre m r post,
    trace = pre ++ Began m (r + 1) :: post →
    rb ≤ r →
    ∃ pre1 pre2,
      pre = pre1 ++ Released :: pre2
      ∧ ∀ m', (m' < size)%nat → Ran m' r ∈ pre1.
Proof.
  intros Hrun.
  destruct (team_inv_run size rb re cs _ _ _ _ Hrun (team_inv_start size rb re))
    as (r0 & _ & _ & _ & _ & Hlap).
  exact Hlap.
Qed.

Example exec_team_call_two_ranks :
  let cs := [Run 1; Run 0; Run 0; Run 1; Run 0; Run 1; Release;
             Run 1; Run 0; Run 1; Run 0]%nat in
  let pre := [Began 1 0; Began 0 0; Ran 0 0; Ran 1 0; Arrived 0; Arrived 1;
              Released]%nat in
  let post := [Began 0 1; Ran 1 1; Ran 0 1]%nat in
  (team_run (team_start 2 0 2) [] cs
     = Some (replicate 2 {| todo := []; in_functor := false; arrived := false |},
             pre ++ Began 1 (0 + 1) :: post)
   ∧ 0 ≤ 0)
  ∧ ∃ pre1 pre2,
      pre = pre1 ++ Released :: pre2
      ∧ ∀ m', (m' < 2)%nat → Ran m' 0 ∈ pre1.
Proof.
  intros cs pre post. split; [split; [reflexivity | lia]|].
  exact (exec_team_call_no_lapping 2 0 2 cs _ _ eq_refl pre 1%nat 0 post
           eq_refl ltac:(lia)).
Qed.

(** A member cannot leave the rendezvous on its own: a schedule that
    lets it run on is not a run of the team. *)
Example team_member_cannot_overtake :
  team_run (team_start 2 0 3) [] [Run 0; Run 0; Run 0; Run 0]%nat = None.
Proof. reflexivity. Qed.

(** The team of the specification's test (two members, five league
    ranks) runs to completion in lock step. *)
Example team_lock_step_completes :
  fst <$> team_run (team_start 2 0 5) [] (lock_step 2 5)
  = Some (replicate 2 {| todo := []; in_functor := false; arrived := false |}).
Proof. vm_compute. reflexivity. Qed.

(** Under the Static schedule an active worker enters [exec_team] once,
    with the slice of its team: the members of a team share it. *)
Lemma static_team_program p pool stolen w :
  team_schedule p = Static →
  organize_team pool (team_size p) w = true →
  worker p pool stolen w
  = let r := get_work_partition (league_size p) (team_chunk p)
               (num_teams pool (team_size p)) (team_of (team_size p) w) in
    exec_team r.1 r.2.
Proof.
  intros Hs Ha. unfold worker, team_work_ranges, team_is_dynamic.
  by rewrite Ha, Hs.
Qed.

End TeamFacts.

(** ** Reductions with a lawful Reducer *)

Module ReduceLaws.
Import WorkPartitioner WorkStealing StealFacts ForFacts ReduceFacts.
Import ParallelScan.

Section region.
Context {V : Type}.
Variable R : Reducer V.

(** The region, the merge and [final], for any body [f] of the workers:
    the buffer of rank 0 ends with [final] of the left fold of [join] over
    the workers' values, the other buffers keep the workers' values. *)
Lemma region_merge (f : nat → V) (s0 : V) (store : list V) :
  alter (final R) 0%nat (merge R (imap (λ w _, f w) (s0 :: store)))
  = final R (foldl (join R) (f 0%nat) (f <$> seq 1 (length store)))
    :: (f <$> seq 1 (length store)).
Proof.
  rewrite imap_seq_0. cbn [length].
  rewrite <- cons_seq, fmap_cons, merge_fold. done.
Qed.

Lemma foldl_join_init (k : nat) :
  (∀ a, join R a (init R) = a) →
  foldl (join R) (init R) (replicate k (init R)) = init R.
Proof.
  intros Hr. induction k as [|k IH]; [done|].
  simpl. by rewrite Hr.
Qed.

End region.

(** No worker receives an index of an empty range. *)
Lemma worker_indices_empty p pool arrivals w :
  0 < chunk_size p → (w < pool)%nat → pend p ≤ pbegin p →
  worker_indices (pbegin p) (work_ranges p pool arrivals w) = [].
Proof.
  intros Hc Hw He.
  pose proof (work_ranges_cover p pool arrivals Hc ltac:(lia)) as Hcov.
  rewrite (indices_nil (pbegin p) (pend p)) in Hcov by done.
  apply Permutation_nil_r in Hcov.
  apply concat_nil_Forall in Hcov.
  rewrite Forall_fmap, Forall_lookup in Hcov.
  apply (Hcov w w). by apply lookup_seq_lt.
Qed.

Section monoid.
Context {V : Type}.
Variable R : Reducer V.
Variable g : Z → V.
Hypothesis join_assoc :
  ∀ a b c, join R (join R a b) c = join R a (join R b c).
Hypothesis join_init_r : ∀ a, join R a (init R) = a.

Lemma prefix_fold_from (l0 : list Z) (ls : list (list Z)) :
  foldl (join R) (prefix_fold R g l0) (prefix_fold R g <$> ls)
  = prefix_fold R g (l0 ++ concat ls).
Proof.
  revert l0. induction ls as [|l ls IH]; intros l0.
  - simpl. by rewrite app_nil_r.
  - rewrite fmap_cons. cbn [foldl concat].
    rewrite <- (ScanFacts.prefix_app R g join_assoc join_init_r), IH.
    by rewrite app_assoc.
Qed.

Lemma prefix_fold_perm (l1 l2 : list Z) :
  (∀ a b, join R a b = join R b a) →
  l1 ≡ₚ l2 → prefix_fold R g l1 = prefix_fold R g l2.
Proof.
  intros Hcomm Hp. unfold prefix_fold. generalize (init R).
  induction Hp as [|x l l' _ IH|x y l|l l' l'' _ IH1 _ IH2]; intros a.
  - done.
  - simpl. apply IH.
  - simpl. f_equal. unfold contribute.
    rewrite !join_assoc. f_equal. apply Hcomm.
  - by rewrite IH1.
Qed.

End monoid.

Section ordered.
Context {V : Type}.
Variable R : Reducer V.
Variable g : Z → V.
Hypothesis join_assoc :
  ∀ a b c, join R (join R a b) c = join R a (join R b c).
Hypothesis join_init_r : ∀ a, join R a (init R) = a.

(** The value of a worker whose functor joins the contribution of the
    index into [update]. *)
Lemma worker_prefix p pool arrivals w :
  0 < chunk_size p →
  ParallelReduceRange.worker R (λ i u, join R u (g i)) p pool arrivals w
  = prefix_fold R g (worker_indices (pbegin p) (work_ranges p pool arrivals w)).
Proof. intros Hc. by rewrite worker_fold. Qed.

(** The merged value of the region is the fold over the indices of the
    workers, rank after rank. *)
Lemma region_prefix p (pool : nat) arrivals :
  0 < chunk_size p →
  foldl (join R)
    (ParallelReduceRange.worker R (λ i u, join R u (g i)) p (S pool)
       arrivals 0)
    (ParallelReduceRange.worker R (λ i u, join R u (g i)) p (S pool) arrivals
       <$> seq 1 pool)
  = prefix_fold R g
      (concat ((λ w, worker_indices (pbegin p)
                       (work_ranges p (S pool) arrivals w))
                 <$> seq 0 (S pool))).
Proof.
  intros Hc. rewrite worker_prefix by done.
  erewrite list_fmap_ext; last first.
  { intros i w _. by rewrite worker_prefix. }
  rewrite (list_fmap_compose
             (λ w, worker_indices (pbegin p)
                     (work_ranges p (S pool) arrivals w))
             (prefix_fold R g)).
  rewrite (prefix_fold_from R g join_assoc join_init_r).
  by rewrite <- cons_seq.
Qed.

(** Under the Static schedule the workers' indices, rank after rank,
    are the range in ascending order. *)
Lemma static_ranges_ordered p pool arrivals :
  0 < chunk_size p → (0 < pool)%nat → schedule p = Static →
  concat ((λ w, worker_indices (pbegin p) (work_ranges p pool arrivals w))
            <$> seq 0 pool)
  = indices (pbegin p) (pend p).
Proof.
  intros Hc Hp Hs. unfold work_ranges, is_dynamic. rewrite Hs.
  erewrite list_fmap_ext; last first.
  { intros i x _. unfold worker_indices. simpl. rewrite app_nil_r.
    unfold range_indices. done. }
  rewrite (slices_shifted _ _ (pbegin p)) by done. by rewrite indices_max.
Qed.

End ordered.

(** X1: under the Static schedule [ParallelReduce] over a [RangePolicy]
    computes the sequential left-to-right fold of the contributions over
    [begin .. end - 1], also when [join] is not commutative: it is enough
    that [join] is associative with [init] as unit on the right.  The
    functor joins the contribution [g i] of its index into [update]. *)
Theorem run_reduce_static_ordered {V : Type} (R : Reducer V) (g : Z → V)
    p (store : list V) arrivals :
  (∀ a b c, join R (join R a b) c = join R a (join R b c)) →
  (∀ a, join R a (init R) = a) →
  0 < chunk_size p → (0 < length store)%nat → schedule p = Static →
  (ParallelReduceRange.execute R (λ i u, join R u (g i)) p store arrivals
     true).2
  = Some (final R (foldl (λ u i, join R u (g i)) (init R)
                     (indices (pbegin p) (pend p)))).
Proof.
  intros Ha Hr Hc Hn Hs. destruct store as [|s0 store]; [simpl in Hn; lia|].
  destruct (Z.le_gt_cases (pend p) (pbegin p)) as [He|Hne].
  - rewrite execute_empty by done. simpl. by rewrite indices_nil.
  - rewrite execute_merge by lia. cbv zeta.
    rewrite (region_prefix R g Ha Hr) by done.
    rewrite static_ranges_ordered by (done || lia). done.
Qed.

Lemma run_reduce_static_ordered_witness :
  let p := {| pbegin := 0; pend := 5; chunk_size := 2; schedule := Static |} in
  ((∀ a b c : list Z, (a ++ b) ++ c = a ++ (b ++ c))
   ∧ (∀ a : list Z, a ++ [] = a)
   ∧ 0 < chunk_size p ∧ (0 < length [[9]; [9]; [9]])%nat
   ∧ schedule p = Static)
  ∧ (ParallelReduceRange.execute append_reducer (λ i u, u ++ [i]) p
       [[9]; [9]; [9]] [2; 1]%nat true).2
    = Some [0; 1; 2; 3; 4].
Proof.
  intros p.
  assert (H1 : ∀ a b c : list Z, (a ++ b) ++ c = a ++ (b ++ c)).
  { intros. by rewrite <- app_assoc. }
  assert (H2 : ∀ a : list Z, a ++ [] = a) by (intros; apply app_nil_r).
  assert (H3 : 0 < chunk_size p) by (simpl; lia).
  assert (H4 : (0 < length [[9]; [9]; [9]])%nat) by (simpl; lia).
  assert (H5 : schedule p = Static) by reflexivity.
  split; [done|].
  exact (run_reduce_static_ordered append_reducer (λ i, [i]) p
           [[9]; [9]; [9]] [2; 1]%nat H1 H2 H3 H4 H5).
Defined.

(** X2: when [join] is moreover commutative, the value is the sequential
    fold under the Dynamic schedule as well, whichever worker claims
    which chunk. *)
Theorem run_reduce_commutative {V : Type} (R : Reducer V) (g : Z → V)
    p (store : list V) arrivals :
  (∀ a b c, join R (join R a b) c = join R a (join R b c)) →
  (∀ a, join R a (init R) = a) →
  (∀ a b, join R a b = join R b a) →
  0 < chunk_size p → (0 < length store)%nat →
  (ParallelReduceRange.execute R (λ i u, join R u (g i)) p store arrivals
     true).2
  = Some (final R (foldl (λ u i, join R u (g i)) (init R)
                     (indices (pbegin p) (pend p)))).
Proof.
  intros Ha Hr Hcomm Hc Hn. destruct store as [|s0 store]; [simpl in Hn; lia|].
  destruct (Z.le_gt_cases (pend p) (pbegin p)) as [He|Hne].
  - rewrite execute_empty by done. simpl. by rewrite indices_nil.
  - rewrite execute_merge by lia. cbv zeta.
    rewrite (region_prefix R g Ha Hr) by done.
    do 2 f_equal.
    apply (prefix_fold_perm R g Ha); [done|].
    apply work_ranges_cover; [done|lia].
Qed.

Lemma run_reduce_commutative_witness :
  let p := {| pbegin := 1; pend := 6; chunk_size := 2; schedule := Dynamic |} in
  let R := {| init := 1; join := Z.mul; final := λ v, v + 1000 |} in
  ((∀ a b c, a * b * c = a * (b * c))
   ∧ (∀ a, a * 1 = a) ∧ (∀ a b, a * b = b * a)
   ∧ 0 < chunk_size p ∧ (0 < length [7; 7; 7])%nat)
  ∧ (ParallelReduceRange.execute R (λ i u, u * i) p
       [7; 7; 7] [2; 2; 0]%nat true).2
    = Some 1120.
Proof.
  intros p R.
  assert (H1 : ∀ a b c, a * b * c = a * (b * c)) by (intros; lia).
  assert (H2 : ∀ a, a * 1 = a) by (intros; lia).
  assert (H3 : ∀ a b, a * b = b * a) by (intros; lia).
  assert (H4 : 0 < chunk_size p) by (simpl; lia).
  assert (H5 : (0 < length [7; 7; 7])%nat) by (simpl; lia).
  split; [done|].
  exact (run_reduce_commutative R (λ i, i) p [7; 7; 7] [2; 2; 0]%nat
           H1 H2 H3 H4 H5).
Defined.

End ReduceLaws.

(** ** MDRangePolicy: tiles *)

Module MDRangeFacts.
Import WorkPartitioner WorkStealing ParallelForRange StealFacts ForFacts.

Lemma md_worker_range mdr pool arrivals w :
  ParallelForMDRange.worker mdr pool arrivals w
  = ParallelForRange.worker (m_policy mdr) pool arrivals w.
Proof. done. Qed.

Lemma md_execute_calls in_parallel native pool mdr arrivals :
  (0 < pool)%nat →
  concat (calls <$> ParallelForMDRange.execute in_parallel native pool mdr
                      arrivals)
  ≡ₚ indices 0 (m_num_tiles mdr).
Proof.
  intros Hp. unfold ParallelForMDRange.execute.
  destruct in_parallel.
  { simpl. unfold ParallelForMDRange.exec_range.
    by rewrite calls_Call, app_nil_r. }
  destruct native.
  - unfold ParallelForMDRange.execute_parallel.
    destruct (md_schedule mdr) eqn:Hs.
    + unfold omp_for_static. rewrite <- list_fmap_compose.
      erewrite list_fmap_ext; last first.
      { intros i x _. simpl. rewrite calls_Call. done. }
      apply (filter_owner_perm (λ i, omp_static_owner 1 pool (i - 0))).
      intros x. by apply omp_static_owner_lt.
    + unfold omp_for_dynamic. rewrite <- list_fmap_compose.
      erewrite list_fmap_ext; last first.
      { intros i x _. simpl. rewrite calls_ranges. done. }
      simpl.
      fold (claimed_indices 0
              (steal_run (m_num_tiles mdr - 0) 1 pool arrivals)).
      rewrite steal_run_complete by done.
      by rewrite (indices_max 0 (m_num_tiles mdr)).
  - rewrite <- list_fmap_compose.
    erewrite list_fmap_ext; last first.
    { intros i x _. simpl. rewrite md_worker_range, worker_trace by done.
      rewrite calls_app, calls_ranges.
      replace (calls (if is_dynamic (m_policy mdr)
                      then [PoolRendezvous] else []))
        with (@nil Z) by (by destruct (is_dynamic (m_policy mdr))).
      simpl. done. }
    by apply (work_ranges_cover (m_policy mdr)).
Qed.

Lemma md_execute_length in_parallel native pool mdr arrivals :
  length (ParallelForMDRange.execute in_parallel native pool mdr arrivals)
  = if in_parallel then 1%nat else pool.
Proof.
  unfold ParallelForMDRange.execute. destruct in_parallel; [done|].
  destruct native.
  - unfold ParallelForMDRange.execute_parallel.
    destruct (md_schedule mdr).
    + unfold omp_for_static. by rewrite length_fmap, length_seq.
    + unfold omp_for_dynamic. rewrite length_fmap.
      by apply steal_run_length.
  - by rewrite length_fmap, length_seq.
Qed.

(** X3: [ParallelFor] over an [MDRangePolicy] applies the tile iteration
    exactly once to every tile [0 .. m_num_tiles - 1], in the nested
    call, in both builds and under both schedules, whatever the order in
    which the threads take the tiles; with no tile (also for a negative
    count) it applies it to none, although all threads of the pool still
    enter the region. *)
Theorem md_for_every_tile_once in_parallel native pool mdr arrivals :
  (0 < pool)%nat →
  let traces :=
    ParallelForMDRange.execute in_parallel native pool mdr arrivals in
  concat (calls <$> traces) ≡ₚ indices 0 (m_num_tiles mdr)
  ∧ length traces = (if in_parallel then 1%nat else pool)
  ∧ (m_num_tiles mdr ≤ 0 → Forall (λ trace, calls trace = []) traces).
Proof.
  intros Hp traces. split; [by apply md_execute_calls|].
  split; [apply md_execute_length|].
  intros He.
  pose proof (md_execute_calls in_parallel native pool mdr arrivals Hp) as Hc.
  rewrite indices_nil in Hc by lia.
  apply Permutation_nil_r in Hc.
  apply concat_nil_Forall in Hc. by rewrite Forall_fmap in Hc.
Qed.

Lemma md_for_every_tile_once_witness :
  let mdr := {| m_num_tiles := 5; md_schedule := Dynamic |} in
  let traces := ParallelForMDRange.execute false true 2 mdr [1; 1; 0]%nat in
  (0 < 2)%nat
  ∧ concat (calls <$> traces) ≡ₚ indices 0 5
  ∧ length traces = 2%nat
  ∧ (5 ≤ 0 → Forall (λ trace, calls trace = []) traces).
Proof.
  intros mdr traces.
  assert (H : (0 < 2)%nat) by lia.
  split; [exact H|].
  exact (md_for_every_tile_once false true 2 mdr [1; 1; 0]%nat H).
Defined.

Section md_reduce.
Context {V : Type}.
Variable R : Reducer V.
Variable iterate : Z → V → V.

Lemma md_reduce_worker mdr pool arrivals w :
  ParallelReduceMDRange.worker R iterate mdr pool arrivals w
  = ParallelReduceRange.worker R iterate (m_policy mdr) pool arrivals w.
Proof. done. Qed.

Lemma md_reduce_execute mdr (s0 : V) (store : list V) arrivals has_result :
  let f := ParallelReduceRange.worker R iterate (m_policy mdr)
             (S (length store)) arrivals in
  let v := final R (foldl (join R) (f 0%nat) (f <$> seq 1 (length store))) in
  ParallelReduceMDRange.execute R iterate mdr (s0 :: store) arrivals has_result
  = (v :: (f <$> seq 1 (length store)), if has_result then Some v else None).
Proof.
  intros f v. unfold ParallelReduceMDRange.execute.
  rewrite (ReduceLaws.region_merge R
             (ParallelReduceMDRange.worker R iterate mdr (length (s0 :: store))
                arrivals)).
  done.
Qed.

(** X4: [ParallelReduce] over an [MDRangePolicy] has no early return for
    an empty tile range.  With no tile every worker still initialises
    its buffer and the merge still joins the buffers: the buffers of the
    ranks above 0 are left at [init], and the value written is [final]
    of [init] joined [pool_size - 1] times with [init].  The tile
    iteration is never applied. *)
Theorem md_reduce_no_tiles mdr (store : list V) arrivals has_result :
  m_num_tiles mdr ≤ 0 → (0 < length store)%nat →
  let others := replicate (length store - 1) (init R) in
  let v := final R (foldl (join R) (init R) others) in
  ParallelReduceMDRange.execute R iterate mdr store arrivals has_result
  = (v :: others, if has_result then Some v else None).
Proof.
  intros He Hn. destruct store as [|s0 store]; [simpl in Hn; lia|].
  cbn [length]. rewrite Nat.sub_succ, Nat.sub_0_r. cbv zeta.
  rewrite md_reduce_execute. cbv zeta.
  assert (Hw : ∀ w, (w < S (length store))%nat →
            ParallelReduceRange.worker R iterate (m_policy mdr)
              (S (length store)) arrivals w = init R).
  { intros w Hlt. rewrite ReduceFacts.worker_fold by (simpl; lia).
    rewrite ReduceLaws.worker_indices_empty; simpl; (done || lia). }
  rewrite Hw by lia.
  assert (Hall : ParallelReduceRange.worker R iterate (m_policy mdr)
                   (S (length store)) arrivals <$> seq 1 (length store)
                 = replicate (length store) (init R)).
  { apply list_eq. intros i. rewrite list_lookup_fmap.
    destruct (decide (i < length store)%nat) as [Hi|Hi].
    - rewrite lookup_seq_lt, lookup_replicate_2 by done. simpl.
      by rewrite Hw by lia.
    - rewrite lookup_seq_ge by lia.
      symmetry. apply lookup_ge_None_2. rewrite length_replicate. lia. }
  by rewrite Hall.
Qed.

End md_reduce.

Lemma md_reduce_no_tiles_witness :
  let mdr := {| m_num_tiles := 0; md_schedule := Dynamic |} in
  let store := [[DidCall 7]; [DidCall 8]; [DidCall 9]] in
  (m_num_tiles mdr ≤ 0 ∧ (0 < length store)%nat)
  ∧ ParallelReduceMDRange.execute log_reducer log_functor mdr store
      [1]%nat true
    = ([[DidInit; DidInit; DidJoin; DidInit; DidJoin; DidFinal];
        [DidInit]; [DidInit]],
       Some [DidInit; DidInit; DidJoin; DidInit; DidJoin; DidFinal]).
Proof.
  intros mdr store.
  assert (H1 : m_num_tiles mdr ≤ 0) by (simpl; lia).
  assert (H2 : (0 < length store)%nat) by (simpl; lia).
  split; [done|].
  exact (md_reduce_no_tiles log_reducer log_functor mdr store [1]%nat true
           H1 H2).
Defined.

(** X5: with a Reducer whose [join] is associative and commutative with
    [init] as unit on the right, [ParallelReduce] over an [MDRangePolicy]
    writes [final] of the fold of the tiles' contributions over
    [0 .. m_num_tiles - 1], for every pool size, both schedules and every
    order in which the workers claim tiles; the joins of [init] made on
    an empty tile range then cancel. *)
Theorem md_reduce_commutative {V : Type} (R : Reducer V) (g : Z → V)
    mdr (store : list V) arrivals :
  (∀ a b c, join R (join R a b) c = join R a (join R b c)) →
  (∀ a, join R a (init R) = a) →
  (∀ a b, join R a b = join R b a) →
  (0 < length store)%nat →
  (ParallelReduceMDRange.execute R (λ i u, join R u (g i)) mdr store arrivals
     true).2
  = Some (final R (foldl (λ u i, join R u (g i)) (init R)
                     (indices 0 (m_num_tiles mdr)))).
Proof.
  intros Ha Hr Hcomm Hn. destruct store as [|s0 store]; [simpl in Hn; lia|].
  rewrite md_reduce_execute. cbv zeta. cbn [snd].
  rewrite (ReduceLaws.region_prefix R g Ha Hr) by (simpl; lia).
  do 2 f_equal.
  apply (ReduceLaws.prefix_fold_perm R g Ha); [done|].
  apply (work_ranges_cover (m_policy mdr)); simpl; lia.
Qed.

Lemma md_reduce_commutative_witness :
  let mdr := {| m_num_tiles := 4; md_schedule := Dynamic |} in
  ((∀ a b c, a + b + c = a + (b + c)) ∧ (∀ a, a + 0 = a)
   ∧ (∀ a b, a + b = b + a) ∧ (0 < length [7; 7; 7])%nat)
  ∧ (ParallelReduceMDRange.execute sum_reducer (λ i u, u + 10 * i) mdr
       [7; 7; 7] [2; 2; 0]%nat true).2
    = Some 60.
Proof.
  intros mdr.
  assert (H1 : ∀ a b c, a + b + c = a + (b + c)) by (intros; lia).
  assert (H2 : ∀ a, a + 0 = a) by (intros; lia).
  assert (H3 : ∀ a b, a + b = b + a) by (intros; lia).
  assert (H4 : (0 < length [7; 7; 7])%nat) by (simpl; lia).
  split; [done|].
  exact (md_reduce_commutative sum_reducer (λ i, 10 * i) mdr [7; 7; 7]
           [2; 2; 0]%nat H1 H2 H3 H4).
Defined.

End MDRangeFacts.

(** ** ParallelScan: the calls of the two passes *)

Module ScanCalls.
Import WorkPartitioner ParallelScan StealFacts ScanFacts.

Lemma fmap_concat_lists {A B : Type} (f : A → B) (ls : list (list A)) :
  f <$> concat ls = concat ((λ l : list A, f <$> l) <$> ls).
Proof.
  induction ls as [|l ls IH]; [done|].
  simpl. by rewrite fmap_app, IH.
Qed.

Lemma Forall_concat_lists {A : Type} (P : A → Prop) (ls : list (list A)) :
  Forall (Forall P) ls → Forall P (concat ls).
Proof.
  induction 1 as [|l ls Hl _ IH]; [constructor|].
  simpl. by apply Forall_app.
Qed.

Lemma concat_all_nil {A : Type} (ls : list (list A)) :
  Forall (λ l, l = []) ls → concat ls = [].
Proof. induction 1 as [|l ls -> _ IH]; [done|]. by simpl. Qed.

Section calls.
Context {V : Type}.
Variable R : Reducer V.
Variable functor : Z → V → bool → V.

(** What [exec_range] logs: the indices of the range in ascending
    order, all with the given [final], the first with the given
    [update]. *)
Lemma exec_range_calls b e u fin :
  c_index <$> (exec_range functor b e u fin).2 = indices b e
  ∧ Forall (λ c, c_final c = fin) (exec_range functor b e u fin).2
  ∧ (∀ c cs, (exec_range functor b e u fin).2 = c :: cs → c_update c = u).
Proof.
  rewrite exec_range_spec. cbn [snd]. split; [|split].
  - rewrite <- list_fmap_compose. simpl.
    rewrite <- (list_fmap_id (indices b e)) at 2.
    by apply list_fmap_ext.
  - apply Forall_fmap, Forall_forall. by intros i _.
  - intros c cs Hl. destruct (decide (b < e)) as [Hlt|Hge].
    + assert (Hi : indices b e = b :: seqZ (Z.succ b) (Z.pred (e - b))).
      { unfold indices. apply seqZ_cons. lia. }
      rewrite Hi, fmap_cons in Hl. injection Hl as <- _. cbn [c_update].
      by rewrite indices_nil by lia.
    + by rewrite indices_nil in Hl by lia.
Qed.

Variable p : RangePolicy.

Lemma pass1_calls n w s :
  (pass1 R functor p n w s).2
  = (exec_range functor (WorkRange p w n).1 (WorkRange p w n).2
       (init R) false).2.
Proof.
  unfold pass1. cbv zeta.
  by destruct (exec_range functor _ _ (init R) false).
Qed.

Lemma pass2_calls n w s :
  (pass2 functor p n w s).2
  = (exec_range functor (WorkRange p w n).1 (WorkRange p w n).2
       (update_base s) true).2.
Proof.
  unfold pass2. cbv zeta.
  by destruct (exec_range functor _ _ (update_base s) true).
Qed.

(** The indices a pass calls the functor on, worker after worker, are
    the range in ascending order. *)
Lemma pass_indices (pass : nat → slot V → slot V * list (call V))
    (store : list (slot V)) :
  0 < chunk_size p → (0 < length store)%nat →
  (∀ w s, c_index <$> (pass w s).2 = slice_of p (length store) w) →
  c_index <$> concat (snd <$> imap pass store) = indices (pbegin p) (pend p).
Proof.
  intros Hc Hn Hpass.
  rewrite fmap_concat_lists, <- list_fmap_compose, fmap_imap.
  rewrite (imap_ext _ (λ w _, slice_of p (length store) w)); last first.
  { intros w s _. simpl. apply Hpass. }
  rewrite imap_seq_0.
  by rewrite (slices_below p store), (slice_begin_last p store).
Qed.

Lemma pass_final (pass : nat → slot V → slot V * list (call V))
    (store : list (slot V)) (fin : bool) :
  (∀ w s, Forall (λ c, c_final c = fin) (pass w s).2) →
  Forall (λ c, c_final c = fin) (concat (snd <$> imap pass store)).
Proof.
  intros Hpass. apply Forall_concat_lists, Forall_fmap, Forall_lookup.
  intros i [s' log] Hi. apply list_lookup_imap_Some in Hi as (s & _ & Hi).
  simpl. pose proof (Hpass i s) as H. by rewrite <- Hi in H.
Qed.

Lemma slice_of_WorkRange (store : list (slot V)) w :
  indices (WorkRange p w (length store)).1 (WorkRange p w (length store)).2
  = slice_of p (length store) w.
Proof. by rewrite (WorkRange_cuts p store). Qed.

Lemma carry_walk_length (store : list (slot V)) :
  length (carry_walk R store) = length store.
Proof. by rewrite carry_walk_bases, length_imap. Qed.

(** X6: whatever the functor and the Reducer, [ParallelScan] and
    [ParallelScanWithTotal] call the functor exactly twice on every index
    of [[begin, end)]: once with [final = false] and once with
    [final = true].  In each pass the calls of the workers, rank after
    rank, run through [begin .. end - 1] in ascending order, and in the
    first pass every worker starts from [init]. *)
Theorem scan_two_calls_per_index with_total (store : list (slot V)) :
  0 < chunk_size p → (0 < length store)%nat →
  let out := execute R functor with_total p store in
  c_index <$> concat (out_discovery out) = indices (pbegin p) (pend p)
  ∧ Forall (λ c, c_final c = false) (concat (out_discovery out))
  ∧ c_index <$> concat (out_final out) = indices (pbegin p) (pend p)
  ∧ Forall (λ c, c_final c = true) (concat (out_final out))
  ∧ (∀ w c cs, out_discovery out !! w = Some (c :: cs) →
               c_update c = init R).
Proof.
  intros Hc Hn out. subst out. unfold execute.
  cbn [out_discovery out_final].
  assert (Hlen : length (carry_walk R
                   (fst <$> imap (pass1 R functor p (length store)) store))
                 = length store).
  { by rewrite carry_walk_length, length_fmap, length_imap. }
  repeat split.
  - apply pass_indices; [done..|]. intros w s.
    rewrite pass1_calls, <- slice_of_WorkRange. apply exec_range_calls.
  - apply pass_final. intros w s. rewrite pass1_calls. apply exec_range_calls.
  - rewrite <- Hlen at 1.
    rewrite <- (slice_begin_last p store) by done.
    rewrite <- (slices_below p store) by done.
    rewrite fmap_concat_lists, <- list_fmap_compose, fmap_imap.
    rewrite (imap_ext _ (λ w _, slice_of p (length store) w)); last first.
    { intros w s _. simpl. rewrite Hlen, pass2_calls, <- slice_of_WorkRange.
      apply exec_range_calls. }
    by rewrite imap_seq_0, Hlen.
  - apply pass_final. intros w s. rewrite pass2_calls. apply exec_range_calls.
  - intros w c cs Hw. rewrite list_lookup_fmap in Hw.
    rewrite list_lookup_imap in Hw.
    destruct (store !! w) as [s|]; [|done]. simpl in Hw.
    injection Hw as Hw. rewrite pass1_calls in Hw.
    by eapply exec_range_calls.
Qed.

(** On an empty range every slice is empty. *)
Lemma WorkRange_empty n w :
  0 < chunk_size p → (w < n)%nat → pend p ≤ pbegin p →
  WorkRange p w n = (pbegin p, pbegin p).
Proof.
  intros Hc Hw He. unfold WorkRange.
  rewrite PartitionFacts.get_work_partition_cut. cbn [fst snd].
  assert (Hcut : ∀ k, (k ≤ n)%nat →
            cut (pend p - pbegin p) (chunk_size p) n k = 0).
  { intros k Hk.
    pose proof (PartitionTheorem.cut_le (pend p - pbegin p) (chunk_size p) n
                  0 k Hc ltac:(lia) ltac:(lia)) as H1.
    pose proof (PartitionTheorem.cut_le (pend p - pbegin p) (chunk_size p) n
                  k n Hc ltac:(lia) Hk) as H2.
    rewrite PartitionFacts.cut_0 in H1 by lia.
    rewrite PartitionFacts.cut_last in H2 by (done || lia). lia. }
  rewrite !Hcut by lia. f_equal; lia.
Qed.

Lemma exec_range_empty b e u fin :
  e ≤ b → exec_range functor b e u fin = (u, []).
Proof. intros He. unfold exec_range. by rewrite indices_nil. Qed.

(** X7: on an empty range the scan calls the functor in neither pass.
    Every worker still initialises its local sum, and the leader still
    walks the buffers: the base of rank [i] is [init] joined [i] times
    with [init], and [ParallelScanWithTotal] stores the base of the last
    rank as the total, which is [init] when [init] is a unit of [join]
    on the right. *)
Theorem scan_empty_range with_total (store : list (slot V)) :
  0 < chunk_size p → (0 < length store)%nat → pend p ≤ pbegin p →
  let out := execute R functor with_total p store in
  let base := λ i : nat, foldl (join R) (init R) (replicate i (init R)) in
  concat (out_discovery out) = [] ∧ concat (out_final out) = []
  ∧ out_store out
    = imap (λ i _, {| update_sum := init R; update_base := base i |}) store
  ∧ out_published out
    = (if with_total
       then [((length store - 1)%nat, base (length store - 1)%nat)]
       else [])
  ∧ ((∀ a, join R a (init R) = a) → ∀ i, base i = init R).
Proof.
  intros Hc Hn He out base.
  assert (H1 : imap (pass1 R functor p (length store)) store
               = imap (λ _ s, ({| update_sum := init R;
                                  update_base := update_base s |}, [])) store).
  { apply imap_ext. intros w s Hw. apply lookup_lt_Some in Hw.
    unfold pass1. rewrite WorkRange_empty by done. cbn [fst snd].
    by rewrite exec_range_empty. }
  assert (H2 : carry_walk R
                 (fst <$> imap (pass1 R functor p (length store)) store)
               = imap (λ i _, {| update_sum := init R;
                                 update_base := base i |}) store).
  { rewrite H1, carry_walk_bases. apply list_eq. intros i.
    rewrite !list_lookup_imap, list_lookup_fmap, list_lookup_imap.
    destruct (store !! i) as [s|] eqn:Hi; [|done].
    apply lookup_lt_Some in Hi. simpl. do 2 f_equal. unfold base. f_equal.
    rewrite <- fmap_take, <- list_fmap_compose.
    rewrite (const_fmap _ _ (init R)); last first.
    { intros j x Hj. apply lookup_take_Some in Hj as [Hj _].
      rewrite list_lookup_imap in Hj. destruct (store !! j); [|done].
      simpl in Hj. by injection Hj as <-. }
    by rewrite length_take_le by (rewrite length_imap; lia). }
  assert (H3 : imap (pass2 functor p (length store))
                 (carry_walk R
                    (fst <$> imap (pass1 R functor p (length store)) store))
               = imap (λ i _, ({| update_sum := init R;
                                  update_base := base i |}, [])) store).
  { rewrite H2. apply list_eq. intros w. rewrite !list_lookup_imap.
    destruct (store !! w) as [s|] eqn:Hw; [|done].
    apply lookup_lt_Some in Hw. simpl. f_equal.
    unfold pass2. rewrite WorkRange_empty by done. cbn [fst snd].
    by rewrite exec_range_empty. }
  subst out. unfold execute. cbn [out_discovery out_final out_store
    out_published]. rewrite H3, H1. clear H1 H2 H3.
  split; [|split; [|split; [|split]]].
  - apply concat_all_nil, Forall_fmap, Forall_lookup. intros i x Hi.
    apply list_lookup_imap_Some in Hi as (s & _ & ->). done.
  - apply concat_all_nil, Forall_fmap, Forall_lookup. intros i x Hi.
    apply list_lookup_imap_Some in Hi as (s & _ & ->). done.
  - rewrite fmap_imap. by apply imap_ext.
  - destruct with_total; [|done].
    set (h := λ i, {| update_sum := init R; update_base := base i |}).
    assert (Hs : fst <$> imap (λ i (_ : slot V), (h i, @nil (call V))) store
                 = h <$> seq 0 (length store)).
    { rewrite fmap_imap, <- (imap_seq_0 store h). by apply imap_ext. }
    change (omap id (imap (publish (length store))
                       (fst <$> imap (λ i (_ : slot V), (h i, @nil (call V)))
                                  store))
            = [((length store - 1)%nat, base (length store - 1)%nat)]).
    rewrite Hs, ScanFacts.imap_fmap_seq.
    by rewrite (publish_last store Hn h (length store) Hn).
  - intros Hr i. unfold base. by apply ReduceLaws.foldl_join_init.
Qed.

(** After the leader's walk the buffers are a function of the local
    sums alone. *)
Lemma carry_walk_sums (store : list (slot V)) :
  carry_walk R store
  = imap (λ i v, {| update_sum := v;
                    update_base := foldl (join R) (init R)
                                     (take i (update_sum <$> store)) |})
         (update_sum <$> store).
Proof.
  rewrite carry_walk_bases, imap_fmap. apply imap_ext.
  intros i s _. simpl. by rewrite fmap_take.
Qed.

(** The first pass overwrites every local sum and logs calls that do not
    depend on what the buffers held. *)
Lemma pass1_fresh (store : list (slot V)) :
  update_sum <$> (fst <$> imap (pass1 R functor p (length store)) store)
  = (λ w, (exec_range functor (WorkRange p w (length store)).1
             (WorkRange p w (length store)).2 (init R) false).1)
      <$> seq 0 (length store)
  ∧ snd <$> imap (pass1 R functor p (length store)) store
    = (λ w, (exec_range functor (WorkRange p w (length store)).1
               (WorkRange p w (length store)).2 (init R) false).2)
        <$> seq 0 (length store).
Proof.
  rewrite <- list_fmap_compose, !fmap_imap, <- !imap_seq_0.
  split; apply imap_ext; intros w s _; simpl; unfold pass1; cbv zeta;
    by destruct (exec_range functor _ _ (init R) false).
Qed.

(** X8: a scan never reads what an earlier region left in the pool's
    buffers.  Whatever the functor and the Reducer, two runs of
    [ParallelScan] or [ParallelScanWithTotal] on pools of the same size
    make the same calls, leave the same buffers and store the same
    total: every local sum is initialised in the first pass and every
    base is written by the leader before the second pass reads it. *)
Theorem scan_ignores_stale_buffers with_total (store store' : list (slot V)) :
  length store = length store' →
  execute R functor with_total p store
  = execute R functor with_total p store'.
Proof.
  intros Hlen. unfold execute.
  destruct (pass1_fresh store) as [H1 H2].
  destruct (pass1_fresh store') as [H1' H2'].
  rewrite <- Hlen in H1', H2'.
  assert (Hc : carry_walk R
                 (fst <$> imap (pass1 R functor p (length store)) store)
               = carry_walk R
                   (fst <$> imap (pass1 R functor p (length store')) store')).
  { rewrite !carry_walk_sums, <- Hlen. by rewrite H1, H1'. }
  rewrite Hc, H2. rewrite <- Hlen. by rewrite H2'.
Qed.

End calls.

Lemma scan_two_calls_per_index_witness :
  let p := {| pbegin := 3; pend := 7; chunk_size := 1; schedule := Static |} in
  let store := replicate 3 {| update_sum := 9; update_base := 9 |} in
  let f := λ (i u : Z) (fin : bool), if fin then 2 * u + i else u - i in
  let out := execute sum_reducer f true p store in
  (0 < chunk_size p ∧ (0 < length store)%nat)
  ∧ c_index <$> concat (out_discovery out) = indices 3 7
  ∧ Forall (λ c, c_final c = false) (concat (out_discovery out))
  ∧ c_index <$> concat (out_final out) = indices 3 7
  ∧ Forall (λ c, c_final c = true) (concat (out_final out))
  ∧ (∀ w c cs, out_discovery out !! w = Some (c :: cs) → c_update c = 0).
Proof.
  intros p store f out.
  assert (H1 : 0 < chunk_size p) by (simpl; lia).
  assert (H2 : (0 < length store)%nat) by (simpl; lia).
  split; [done|].
  exact (scan_two_calls_per_index sum_reducer f p true store H1 H2).
Defined.

Lemma scan_empty_range_witness :
  let p := {| pbegin := 4; pend := 4; chunk_size := 2; schedule := Static |} in
  let store := replicate 3 {| update_sum := [DidFinal];
                              update_base := [DidFinal] |} in
  let f := λ (i : Z) (u : list reducer_op) (fin : bool), u ++ [DidCall i] in
  let out := execute log_reducer f true p store in
  let base := λ i : nat,
    foldl (join log_reducer) (init log_reducer)
          (replicate i (init log_reducer)) in
  (0 < chunk_size p ∧ (0 < length store)%nat ∧ pend p ≤ pbegin p)
  ∧ concat (out_discovery out) = [] ∧ concat (out_final out) = []
  ∧ out_store out
    = imap (λ i _, {| update_sum := [DidInit]; update_base := base i |}) store
  ∧ out_published out
    = [(2%nat, [DidInit; DidInit; DidJoin; DidInit; DidJoin])]
  ∧ ((∀ a, join log_reducer a (init log_reducer) = a) →
     ∀ i, base i = init log_reducer).
Proof.
  intros p store f out base.
  assert (H1 : 0 < chunk_size p) by (simpl; lia).
  assert (H2 : (0 < length store)%nat) by (simpl; lia).
  assert (H3 : pend p ≤ pbegin p) by (simpl; lia).
  split; [done|].
  exact (scan_empty_range log_reducer f p true store H1 H2 H3).
Defined.

Lemma scan_ignores_stale_buffers_witness :
  let p := {| pbegin := 0; pend := 5; chunk_size := 2; schedule := Static |} in
  let f := λ (i u : Z) (fin : bool), if fin then 2 * u + i else u - i in
  let store := replicate 3 {| update_sum := 0; update_base := 0 |} in
  let store' := [ {| update_sum := 4; update_base := 5 |};
                  {| update_sum := 6; update_base := 7 |};
                  {| update_sum := 8; update_base := 9 |} ] in
  length store = length store'
  ∧ execute sum_reducer f true p store = execute sum_reducer f true p store'.
Proof.
  intros p f store store'.
  assert (H : length store = length store') by reflexivity.
  split; [exact H|].
  exact (scan_ignores_stale_buffers sum_reducer f p true store store' H).
Defined.

Section prefixes.
Context {V : Type}.
Variable R : Reducer V.
Variable g : Z → V.
Variable p : RangePolicy.

(** X9: [ParallelScan], the scan without a total, makes the final-pass
    calls of an exclusive prefix scan (at index [i] the functor receives
    the fold of the contributions of [begin .. i - 1]) and stores no
    return value.  It leaves in the buffer of every worker the fold of
    the worker's own slice as local sum and, as base, the fold of the
    range up to the end of that slice.  The Reducer's [join] is
    associative with [init] as unit on the right. *)
Theorem scan_without_total (store : list (slot V)) :
  (∀ a b c, join R (join R a b) c = join R a (join R b c)) →
  (∀ a, join R a (init R) = a) →
  0 < chunk_size p → (0 < length store)%nat →
  let n := length store in
  let out := execute R (scan_functor R g) false p store in
  concat (out_final out)
    = (λ i, {| c_index := i;
               c_update := prefix_fold R g (indices (pbegin p) i);
               c_final := true |}) <$> indices (pbegin p) (pend p)
  ∧ out_published out = []
  ∧ out_store out
    = (λ w, {| update_sum := prefix_fold R g (slice_of p n w);
               update_base :=
                 prefix_fold R g
                   (indices (pbegin p) (slice_begin p n (S w))) |})
        <$> seq 0 n.
Proof.
  intros Ha Hr Hc Hn n out. subst out n. unfold execute.
  cbn [out_final out_published out_store].
  rewrite (second_pass_all R g Ha Hr p store Hc Hn), <- !list_fmap_compose.
  split; [|split; [done|]].
  - rewrite (list_fmap_ext _
               (λ w, final_call R g p <$> slice_of p (length store) w)
               (seq 0 (length store))) by done.
    rewrite (concat_fmap_fmap _ (slice_of p (length store))).
    by rewrite (slices_below p store), (slice_begin_last p store).
  - by apply list_fmap_ext.
Qed.

End prefixes.

Lemma scan_without_total_witness :
  let p := {| pbegin := 0; pend := 4; chunk_size := 1; schedule := Static |} in
  let store := replicate 2 {| update_sum := 7; update_base := 7 |} in
  let out := execute sum_reducer (scan_functor sum_reducer (λ i, i + 1)) false
                     p store in
  ((∀ a b c : Z, a + b + c = a + (b + c))
   ∧ (∀ a : Z, a + 0 = a) ∧ 0 < chunk_size p ∧ (0 < length store)%nat)
  ∧ concat (out_final out)
    = [ {| c_index := 0; c_update := 0; c_final := true |};
        {| c_index := 1; c_update := 1; c_final := true |};
        {| c_index := 2; c_update := 3; c_final := true |};
        {| c_index := 3; c_update := 6; c_final := true |} ]
  ∧ out_published out = []
  ∧ out_store out = [ {| update_sum := 3; update_base := 3 |};
                      {| update_sum := 7; update_base := 10 |} ].
Proof.
  intros p store out.
  assert (H1 : ∀ a b c : Z, a + b + c = a + (b + c)) by (intros; lia).
  assert (H2 : ∀ a : Z, a + 0 = a) by (intros; lia).
  assert (H3 : 0 < chunk_size p) by (simpl; lia).
  assert (H4 : (0 < length store)%nat) by (simpl; lia).
  split; [done|].
  exact (scan_without_total sum_reducer (λ i, i + 1) p store H1 H2 H3 H4).
Defined.

End ScanCalls.

(** ** Teams: the league is covered, the rendezvous never blocks *)

Module TeamLeague.
Import WorkPartitioner TeamOrganizer ParallelForTeam StealFacts TeamFacts.

Lemma league_ranks_exec_team_n rb (n : nat) :
  league_ranks (exec_team rb (rb + Z.of_nat n)) = indices rb (rb + Z.of_nat n)
  ∧ team_rendezvous_count (exec_team rb (rb + Z.of_nat n)) = (n - 1)%nat.
Proof.
  revert rb. induction n as [|n IH]; intros rb.
  - rewrite exec_team_nil, indices_nil by lia. done.
  - rewrite exec_team_cons by lia.
    replace (rb + Z.of_nat (S n)) with (rb + 1 + Z.of_nat n) by lia.
    destruct (IH (rb + 1)) as [IH1 IH2].
    assert (Hi : indices rb (rb + 1 + Z.of_nat n)
                 = rb :: indices (rb + 1) (rb + 1 + Z.of_nat n)).
    { unfold indices. rewrite seqZ_cons by lia. f_equal. f_equal; lia. }
    rewrite Hi.
    destruct (Z.ltb_spec (rb + 1) (rb + 1 + Z.of_nat n)) as [Hlt|Hge].
    + unfold league_ranks, team_rendezvous_count in *. cbn [omap].
      csimpl. rewrite IH1. split; [done|].
      cbn [length]. rewrite IH2. lia.
    + assert (n = 0%nat) as -> by lia.
      rewrite indices_nil by lia. done.
Qed.

(** [exec_team] calls the functor on the league ranks of its range in
    ascending order and enters one rendezvous between two consecutive
    calls. *)
Lemma league_ranks_exec_team rb re :
  league_ranks (exec_team rb re) = indices rb re
  ∧ team_rendezvous_count (exec_team rb re)
    = (length (indices rb re) - 1)%nat.
Proof.
  destruct (Z.le_gt_cases re rb) as [Hle|Hgt].
  - rewrite exec_team_nil, indices_nil by lia. done.
  - replace re with (rb + Z.of_nat (Z.to_nat (re - rb))) by lia.
    destruct (league_ranks_exec_team_n rb (Z.to_nat (re - rb))) as [H1 H2].
    split; [done|]. rewrite H2. unfold indices.
    rewrite length_seqZ. lia.
Qed.

Lemma team_of_member ts t m : (m < ts)%nat → team_of ts (t * ts + m) = t.
Proof.
  intros Hm. unfold team_of.
  rewrite Nat.div_add_l by lia. rewrite Nat.div_small by done. lia.
Qed.

Lemma organize_team_member pool ts t m :
  (m < ts)%nat → (t < num_teams pool ts)%nat →
  organize_team pool ts (t * ts + m) = true.
Proof.
  intros Hm Ht. unfold organize_team. apply Nat.ltb_lt. nia.
Qed.

Lemma indices_0_max n : indices 0 (Z.max 0 n) = indices 0 n.
Proof.
  destruct (Z.le_gt_cases n 0) as [Hle|Hgt].
  - by rewrite !indices_nil by lia.
  - by rewrite Z.max_r by lia.
Qed.

Lemma num_teams_pos pool ts :
  (0 < ts)%nat → (ts ≤ pool)%nat → (0 < num_teams pool ts)%nat.
Proof.
  intros H1 H2. unfold num_teams.
  apply Nat.div_str_pos. lia.
Qed.

(** X10: under the Static schedule [ParallelFor] over a [TeamPolicy] has
    every league rank [0 .. league_size - 1] run by exactly one team, and
    within it once by each of its [team_size] members: for every member
    position, the league ranks run by the members at that position,
    team after team, are the league in ascending order.  The members of
    a team run the same program, a worker beyond the last whole team
    runs nothing, and every worker enters one team rendezvous less than
    it runs league ranks. *)
Theorem team_for_static_league p pool stolen :
  team_schedule p = Static → 0 < team_chunk p →
  (0 < team_size p)%nat → (team_size p ≤ pool)%nat →
  let ts := team_size p in
  let nt := num_teams pool ts in
  let prog := λ w, worker p pool stolen w in
  (∀ m, (m < ts)%nat →
     concat ((λ t, league_ranks (prog (t * ts + m)%nat)) <$> seq 0 nt)
     = indices 0 (league_size p))
  ∧ (∀ t m, (t < nt)%nat → (m < ts)%nat →
       prog (t * ts + m)%nat = prog (t * ts)%nat)
  ∧ (∀ w, (nt * ts ≤ w)%nat → prog w = [])
  ∧ (∀ w, team_rendezvous_count (prog w)
          = (length (league_ranks (prog w)) - 1)%nat).
Proof.
  intros Hs Hc Hts Hpool ts nt prog.
  assert (Hnt : (0 < nt)%nat) by by apply num_teams_pos.
  assert (Hprog : ∀ t m, (t < nt)%nat → (m < ts)%nat →
            prog (t * ts + m)%nat
            = let r := get_work_partition (league_size p) (team_chunk p) nt t in
              exec_team r.1 r.2).
  { intros t m Ht Hm. subst prog. cbv beta.
    rewrite static_team_program by (done || by apply organize_team_member).
    by rewrite team_of_member. }
  split; [|split; [|split]].
  - intros m Hm.
    rewrite (list_fmap_ext _ (slice_indices (league_size p) (team_chunk p) nt)
               (seq 0 nt)); last first.
    { intros i t Ht. apply lookup_seq in Ht as [Heq Hlt].
      simpl in Heq. subst i. cbv beta.
      rewrite Hprog by done. cbv zeta.
      by destruct (league_ranks_exec_team
                     (get_work_partition (league_size p) (team_chunk p) nt t).1
                     (get_work_partition (league_size p) (team_chunk p) nt t).2)
        as [-> _]. }
    change (concat (all_slices (league_size p) (team_chunk p) nt)
            = indices 0 (league_size p)).
    rewrite PartitionFacts.all_slices_concat by done.
    apply indices_0_max.
  - intros t m Ht Hm. rewrite Hprog by done.
    replace (t * ts)%nat with (t * ts + 0)%nat by lia.
    by rewrite Hprog by lia.
  - intros w Hw. subst prog. cbv beta. unfold worker.
    replace (organize_team pool (team_size p) w) with false; [done|].
    symmetry. unfold organize_team. apply Nat.ltb_ge. done.
  - intros w. subst prog. cbv beta.
    destruct (organize_team pool (team_size p) w) eqn:Ha.
    + rewrite static_team_program by done. cbv zeta.
      destruct (league_ranks_exec_team
                  (get_work_partition (league_size p) (team_chunk p)
                     (num_teams pool (team_size p))
                     (team_of (team_size p) w)).1
                  (get_work_partition (league_size p) (team_chunk p)
                     (num_teams pool (team_size p))
                     (team_of (team_size p) w)).2) as [H1 H2].
      by rewrite H1, H2.
    + unfold worker. by rewrite Ha.
Qed.

Lemma team_for_static_league_witness :
  let p := {| league_size := 5; team_size := 2; team_chunk_size := 0;
              team_iter := 1; team_schedule := Static |} in
  let prog := λ w, worker p 5 (λ _, []) w in
  (team_schedule p = Static ∧ 0 < team_chunk p
   ∧ (0 < team_size p)%nat ∧ (team_size p ≤ 5)%nat)
  ∧ (∀ m, (m < 2)%nat →
       concat ((λ t, league_ranks (prog (t * 2 + m)%nat)) <$> seq 0 2)
       = indices 0 5)
  ∧ (∀ t m, (t < 2)%nat → (m < 2)%nat →
       prog (t * 2 + m)%nat = prog (t * 2)%nat)
  ∧ (∀ w, (2 * 2 ≤ w)%nat → prog w = [])
  ∧ (∀ w, team_rendezvous_count (prog w)
          = (length (league_ranks (prog w)) - 1)%nat).
Proof.
  intros p prog.
  assert (H1 : team_schedule p = Static) by reflexivity.
  assert (H2 : 0 < team_chunk p) by (vm_compute; reflexivity).
  assert (H3 : (0 < team_size p)%nat) by (simpl; lia).
  assert (H4 : (team_size p ≤ 5)%nat) by (simpl; lia).
  split; [done|].
  exact (team_for_static_league p 5 (λ _, []) H1 H2 H3 H4).
Defined.

(** A member that has work left and is not waiting in the rendezvous
    can take a step. *)
Lemma member_can_run trace r re m mb team :
  team !! m = Some mb → member_at trace r re m mb →
  arrived mb = false → todo mb ≠ [] →
  ∃ team' e, team_step team (Run m) = Some (team', e).
Proof.
  intros Hm Hat Ha Ht. unfold team_step. rewrite Hm, Ha.
  destruct Hat as [[Htodo _]|(Hlt & Htodo & Hin & _ & _)].
  - destruct (Z.lt_ge_cases r re) as [Hlt|Hge].
    + rewrite exec_team_cons in Htodo by done. rewrite Htodo.
      destruct (in_functor mb); eauto.
    + rewrite exec_team_nil in Htodo by lia. done.
  - rewrite exec_team_tail in Htodo by done.
    destruct (r + 1 <? re); [|done]. rewrite Htodo, Hin. eauto.
Qed.

(** A member waiting in the rendezvous has another league rank ahead,
    and then no member of the team is through with its work. *)
Lemma member_waiting trace r re m mb m' mb' :
  member_at trace r re m mb → arrived mb = true →
  member_at trace r re m' mb' → todo mb' ≠ [].
Proof.
  intros [[_ Hna]|(Hlt & _ & _ & _ & Hnext)] Ha Hat'; [congruence|].
  specialize (Hnext Ha).
  destruct Hat' as [[Htodo _]|(_ & Htodo & _)].
  - rewrite exec_team_cons in Htodo by done. by rewrite Htodo.
  - rewrite exec_team_tail in Htodo by done.
    destruct (Z.ltb_spec (r + 1) re); [|lia]. by rewrite Htodo.
Qed.

(** X11: a team never blocks in [exec_team].  In every state the team
    can reach from the entry of its members into [exec_team] with a
    common range, under any scheduling, either every member has run
    through its whole program, or some member can take its next step, or
    all have arrived and the rendezvous completes: since all members
    enter the same number of rendezvous, none waits for a member that
    has already left. *)
Theorem team_never_stuck size rb re cs team trace :
  team_run (team_start size rb re) [] cs = Some (team, trace) →
  Forall (λ mb, todo mb = []) team
  ∨ ∃ c team' e, team_step team c = Some (team', e).
Proof.
  intros Hrun.
  destruct (team_inv_run size rb re cs _ _ _ _ Hrun (team_inv_start size rb re))
    as (r & _ & _ & Hat & _ & _).
  assert (dec1 : ∀ mb, {arrived mb = true} + {arrived mb = false}).
  { intros mb. destruct (arrived mb); [by left|by right]. }
  assert (dec2 : ∀ mb, {todo mb = [] ∨ arrived mb = true}
                       + {arrived mb = false ∧ todo mb ≠ [] }).
  { intros mb. destruct (arrived mb); [left; by right|].
    destruct (todo mb); [left; by left|by right]. }
  destruct (Forall_Exists_dec (λ mb, arrived mb = true)
              (λ mb, arrived mb = false) dec1 team) as [Hall|Hsome].
  { right. exists Release. unfold team_step.
    replace (forallb arrived team) with true; [eauto|].
    symmetry. apply forallb_forall. intros mb Hin.
    rewrite Forall_forall in Hall. apply Hall. by apply list_elem_of_In. }
  destruct (Forall_Exists_dec (λ mb, todo mb = [] ∨ arrived mb = true)
              (λ mb, arrived mb = false ∧ todo mb ≠ []) dec2 team)
    as [Hidle|Hcan].
  - left. apply Forall_lookup. intros m mb Hm.
    rewrite Forall_lookup in Hidle.
    destruct (Hidle m mb Hm) as [Hdone|Harr]; [done|].
    apply Exists_exists in Hsome as (mb0 & Hin0 & Hna0).
    apply list_elem_of_lookup_1 in Hin0 as [m0 Hm0].
    destruct (Hidle m0 mb0 Hm0) as [Hdone0|Harr0]; [|congruence].
    exfalso.
    by apply (member_waiting trace r re m mb m0 mb0 (Hat m mb Hm) Harr
                (Hat m0 mb0 Hm0)).
  - right. apply Exists_exists in Hcan as (mb & Hin & Hna & Htodo).
    apply list_elem_of_lookup_1 in Hin as [m Hm].
    exists (Run m).
    by apply (member_can_run trace r re m mb team Hm (Hat m mb Hm)).
Qed.

Lemma team_never_stuck_witness :
  let team := [ {| todo := [TeamRendezvous; Functor 1];
                   in_functor := false; arrived := true |};
                {| todo := [Functor 0; TeamRendezvous; Functor 1];
                   in_functor := false; arrived := false |} ] in
  let trace := [Began 0 0; Ran 0 0; Arrived 0]%nat in
  team_run (team_start 2 0 2) [] [Run 0; Run 0; Run 0]%nat
    = Some (team, trace)
  ∧ (Forall (λ mb, todo mb = []) team
     ∨ ∃ c team' e, team_step team c = Some (team', e)).
Proof.
  intros team trace.
  assert (H : team_run (team_start 2 0 2) [] [Run 0; Run 0; Run 0]%nat
              = Some (team, trace)) by reflexivity.
  split; [exact H|].
  exact (team_never_stuck 2 0 2 [Run 0; Run 0; Run 0]%nat team trace H).
Defined.

Lemma member_ranks_snoc m trace e :
  member_ranks m (trace ++ [e])
  = member_ranks m trace
    ++ match e with
       | Ran m' r => if (m' =? m)%nat then [r] else []
       | _ => []
       end.
Proof.
  unfold member_ranks. rewrite omap_app. f_equal.
  destruct e as [m' r|m' r|m'|]; try done.
  simpl. by destruct (m' =? m)%nat.
Qed.

(** One step of the team keeps, for every member, the league ranks it
    has run followed by those it still has to run. *)
Lemma team_step_ranks (l : list Z) team trace c team' e :
  team_step team c = Some (team', e) →
  (∀ m mb, team !! m = Some mb →
     (arrived mb = true → ∃ rest, todo mb = TeamRendezvous :: rest)
     ∧ member_ranks m trace ++ league_ranks (todo mb) = l) →
  ∀ m mb, team' !! m = Some mb →
    (arrived mb = true → ∃ rest, todo mb = TeamRendezvous :: rest)
    ∧ member_ranks m (trace ++ [e]) ++ league_ranks (todo mb) = l.
Proof.
  intros Hstep Hinv m mb Hm. rewrite member_ranks_snoc.
  destruct c as [m0|]; simpl in Hstep.
  - destruct (team !! m0) as [mb0|] eqn:Hm0; [|done].
    destruct (arrived mb0) eqn:Ha0; [done|].
    destruct (Hinv m0 mb0 Hm0) as [_ Hl0].
    assert (Hlt : (m0 < length team)%nat) by by eapply lookup_lt_Some.
    destruct (todo mb0) as [|[r|] rest] eqn:Ht0; [done|..].
    + destruct (in_functor mb0); injection Hstep as <- <-.
      * destruct (decide (m = m0)) as [->|Hne].
        -- rewrite list_lookup_insert_eq in Hm by done.
           injection Hm as <-. cbn [todo arrived].
           split; [done|]. rewrite Nat.eqb_refl, <- Hl0.
           by rewrite <- app_assoc.
        -- rewrite list_lookup_insert_ne in Hm by done.
           replace (m0 =? m)%nat with false
             by (symmetry; apply Nat.eqb_neq; done).
           rewrite app_nil_r. by apply Hinv.
      * rewrite app_nil_r.
        destruct (decide (m = m0)) as [->|Hne].
        -- rewrite list_lookup_insert_eq in Hm by done.
           injection Hm as <-. cbn [todo arrived]. by split.
        -- rewrite list_lookup_insert_ne in Hm by done. by apply Hinv.
    + destruct (in_functor mb0); [done|]. injection Hstep as <- <-.
      rewrite app_nil_r.
      destruct (decide (m = m0)) as [->|Hne].
      * rewrite list_lookup_insert_eq in Hm by done.
        injection Hm as <-. cbn [todo arrived]. split; [eauto|done].
      * rewrite list_lookup_insert_ne in Hm by done. by apply Hinv.
  - destruct (forallb arrived team) eqn:Hall; [|done].
    injection Hstep as <- <-. rewrite app_nil_r.
    rewrite list_lookup_fmap in Hm.
    destruct (team !! m) as [mb1|] eqn:Hm1; [|done].
    injection Hm as <-. cbn [todo arrived]. split; [done|].
    destruct (Hinv m mb1 Hm1) as [Hhead Hl1].
    assert (Ha1 : arrived mb1 = true).
    { rewrite forallb_forall in Hall. apply Hall.
      apply list_elem_of_In. by eapply list_elem_of_lookup_2. }
    destruct (Hhead Ha1) as [rest Hrest].
    rewrite Hrest in Hl1 |- *. done.
Qed.

(** X12: in every run of a team through [exec_team], under any
    scheduling, the league ranks a member has returned from the functor
    for, followed by the league ranks of the functor calls it still has
    ahead, are the range [league_rank_begin .. league_rank_end - 1] in
    ascending order.  So no member runs a league rank twice or out of
    order, and a member that is through has run every league rank of
    the range exactly once. *)
Theorem team_member_runs_league size rb re cs team trace :
  team_run (team_start size rb re) [] cs = Some (team, trace) →
  ∀ m mb, team !! m = Some mb →
    member_ranks m trace ++ league_ranks (todo mb) = indices rb re
    ∧ (todo mb = [] → member_ranks m trace = indices rb re).
Proof.
  intros Hrun.
  assert (Hgen : ∀ cs team0 trace0,
            team_run team0 trace0 cs = Some (team, trace) →
            (∀ m mb, team0 !! m = Some mb →
               (arrived mb = true →
                ∃ rest, todo mb = TeamRendezvous :: rest)
               ∧ member_ranks m trace0 ++ league_ranks (todo mb)
                 = indices rb re) →
            ∀ m mb, team !! m = Some mb →
              (arrived mb = true → ∃ rest, todo mb = TeamRendezvous :: rest)
              ∧ member_ranks m trace ++ league_ranks (todo mb)
                = indices rb re).
  { clear. intros cs. induction cs as [|c cs IH]; intros team0 trace0 Hrun Hinv.
    - by injection Hrun as <- <-.
    - simpl in Hrun.
      destruct (team_step team0 c) as [[team1 e]|] eqn:Hstep; [|done].
      apply (IH team1 (trace0 ++ [e]) Hrun).
      by apply (team_step_ranks _ team0 trace0 c). }
  intros m mb Hm.
  destruct (Hgen cs _ _ Hrun) with (m := m) (mb := mb) as [_ Hl]; [|done|].
  - intros m0 mb0 Hm0. apply lookup_replicate in Hm0 as [-> _].
    cbn [todo arrived]. split; [done|].
    by destruct (league_ranks_exec_team rb re) as [-> _].
  - split; [done|]. intros Hdone. rewrite Hdone in Hl.
    by rewrite app_nil_r in Hl.
Qed.

Lemma team_member_runs_league_witness :
  let cs := [Run 1; Run 0; Run 0; Run 1; Run 0; Run 1; Release;
             Run 1; Run 0; Run 1; Run 0]%nat in
  let trace := [Began 1 0; Began 0 0; Ran 0 0; Ran 1 0; Arrived 0; Arrived 1;
                Released; Began 1 1; Began 0 1; Ran 1 1; Ran 0 1]%nat in
  let done := {| todo := []; in_functor := false; arrived := false |} in
  (team_run (team_start 2 0 2) [] cs = Some ([done; done], trace)
   ∧ [done; done] !! 1%nat = Some done)
  ∧ member_ranks 1 trace ++ league_ranks (todo done) = indices 0 2
  ∧ (todo done = [] → member_ranks 1 trace = indices 0 2).
Proof.
  intros cs trace done.
  assert (H1 : team_run (team_start 2 0 2) [] cs = Some ([done; done], trace))
    by reflexivity.
  assert (H2 : [done; done] !! 1%nat = Some done) by reflexivity.
  split; [done|].
  exact (team_member_runs_league 2 0 2 cs [done; done] trace H1 1%nat done H2).
Defined.

Lemma foldl_add_from (a : Z) (l : list Z) :
  foldl Z.add a l = a + foldl Z.add 0 l.
Proof.
  revert a. induction l as [|x l IH]; intros a; simpl; [lia|].
  rewrite (IH (a + x)), (IH (0 + x)). lia.
Qed.

(** Summing over the members of the whole teams a value that depends
    on the team only counts every team [ts] times. *)
Lemma sum_one_team (S : nat → Z) (ts t k : nat) (a : Z) :
  (k ≤ ts)%nat →
  foldl Z.add a ((λ w, S (w / ts)%nat) <$> seq (t * ts) k)
  = a + Z.of_nat k * S t.
Proof.
  intros Hk. induction k as [|k IH]; [simpl; lia|].
  rewrite seq_S, fmap_app, foldl_app, IH by lia. simpl.
  replace ((t * ts + k) / ts)%nat with t; [lia|].
  rewrite Nat.div_add_l by lia. rewrite Nat.div_small by lia. lia.
Qed.

Lemma sum_by_team (S : nat → Z) (ts nt : nat) (a : Z) :
  foldl Z.add a ((λ w, S (w / ts)%nat) <$> seq 0 (nt * ts))
  = a + Z.of_nat ts * foldl Z.add 0 (S <$> seq 0 nt).
Proof.
  revert a. induction nt as [|nt IH]; intros a; [simpl; lia|].
  replace (Datatypes.S nt * ts)%nat with (nt * ts + ts)%nat by lia.
  rewrite seq_app, fmap_app, foldl_app, IH, Nat.add_0_l.
  rewrite sum_one_team by done.
  rewrite seq_S, fmap_app, foldl_app. cbn [fmap list_fmap foldl].
  rewrite Nat.add_0_l. lia.
Qed.

Lemma sum_zeros (a : Z) (l : list nat) : foldl Z.add a ((λ _, 0) <$> l) = a.
Proof.
  revert a. induction l as [|x l IH]; intros a; [done|].
  simpl. rewrite IH. lia.
Qed.

(** X13: under the Static schedule, with the Reducer of a sum and a
    functor in which every member adds the contribution [h r] of the
    league rank to its [update], [ParallelReduce] over a [TeamPolicy]
    writes [team_size] times the sum of the contributions over the
    league [0 .. league_size - 1]: every league rank is reduced once by
    each member of exactly one team, and the workers beyond the last
    whole team contribute the identity. *)
Theorem team_reduce_static_sum (h : Z → Z) p (store : list Z) stolen :
  team_schedule p = Static → 0 < team_chunk p →
  (0 < team_size p)%nat → (team_size p ≤ length store)%nat →
  (ParallelReduceTeam.execute sum_reducer (λ _ r u, u + h r) p store stolen
     true).2
  = Some (Z.of_nat (team_size p) * sumZ h (indices 0 (league_size p))).
Proof.
  intros Hs Hc Hts Hpool.
  destruct (decide (league_size p = 0)) as [Hl0|Hl0].
  { rewrite ReduceFacts.team_execute_empty by by left.
    rewrite Hl0. simpl. f_equal. unfold sumZ. simpl. lia. }
  destruct store as [|s0 store]; [simpl in Hpool; lia|].
  rewrite ReduceFacts.team_execute_merge by (done || lia).
  cbv zeta. cbn [final sum_reducer join]. f_equal.
  set (pool := Datatypes.S (length store)).
  set (ts := team_size p). set (nt := num_teams pool ts).
  set (S := λ t, sumZ h (slice_indices (league_size p) (team_chunk p) nt t)).
  assert (Hw : ∀ w, ParallelReduceTeam.worker sum_reducer (λ _ r u, u + h r)
                      p pool stolen w
                    = if (w <? nt * ts)%nat then S (w / ts)%nat else 0).
  { intros w. unfold ParallelReduceTeam.worker, organize_team.
    fold ts nt. destruct (w <? nt * ts)%nat; [|done].
    unfold team_work_ranges, team_is_dynamic. rewrite Hs. done. }
  assert (Hle : (nt * ts ≤ pool)%nat).
  { subst nt. unfold num_teams. rewrite Nat.mul_comm.
    apply Nat.Div0.mul_div_le. }
  transitivity (foldl Z.add 0
                  ((λ w, if (w <? nt * ts)%nat then S (w / ts)%nat else 0)
                     <$> seq 0 pool)).
  { subst pool. rewrite <- cons_seq, fmap_cons. cbn [foldl]. rewrite Hw.
    rewrite Z.add_0_l. f_equal. apply list_fmap_ext. intros i w _. apply Hw. }
  replace pool with (nt * ts + (pool - nt * ts))%nat at 1 by lia.
  rewrite seq_app, fmap_app, foldl_app. simpl.
  rewrite (list_fmap_ext _ (λ _, 0) (seq (nt * ts) (pool - nt * ts)));
    last first.
  { intros i w Hw'. apply lookup_seq in Hw' as [-> _].
    by replace (nt * ts + i <? nt * ts)%nat with false
      by (symmetry; apply Nat.ltb_ge; lia). }
  rewrite sum_zeros.
  rewrite (list_fmap_ext _ (λ w, S (w / ts)%nat) (seq 0 (nt * ts)));
    last first.
  { intros i w Hw'. apply lookup_seq in Hw' as [-> Hi]. simpl in *.
    by replace (i <? nt * ts)%nat with true
      by (symmetry; apply Nat.ltb_lt; lia). }
  rewrite sum_by_team, Z.add_0_l. f_equal.
  subst S. cbv beta.
  rewrite (ReduceFacts.foldl_add_sumZ h 0
             (slice_indices (league_size p) (team_chunk p) nt)), Z.add_0_l.
  change (sumZ h (concat (all_slices (league_size p) (team_chunk p) nt))
          = sumZ h (indices 0 (league_size p))).
  rewrite PartitionFacts.all_slices_concat by (done || by apply num_teams_pos).
  by rewrite indices_0_max.
Qed.

Lemma team_reduce_static_sum_witness :
  let p := {| league_size := 4; team_size := 2; team_chunk_size := 1;
              team_iter := 1; team_schedule := Static |} in
  (team_schedule p = Static ∧ 0 < team_chunk p
   ∧ (0 < team_size p)%nat ∧ (team_size p ≤ length [7; 7; 7; 7; 7])%nat)
  ∧ (ParallelReduceTeam.execute sum_reducer (λ _ r u, u + (r + 1)) p
       [7; 7; 7; 7; 7] (λ _, []) true).2
    = Some 20.
Proof.
  intros p.
  assert (H1 : team_schedule p = Static) by reflexivity.
  assert (H2 : 0 < team_chunk p) by (vm_compute; reflexivity).
  assert (H3 : (0 < team_size p)%nat) by (simpl; lia).
  assert (H4 : (team_size p ≤ length [7; 7; 7; 7; 7])%nat) by (simpl; lia).
  split; [done|].
  exact (team_reduce_static_sum (λ r, r + 1) p [7; 7; 7; 7; 7] (λ _, [])
           H1 H2 H3 H4).
Defined.

End TeamLeague.

(** ** Kokkos_Core.cpp: version string and finalize hooks *)

Module CoreFacts.
Import Core.

Lemma to_int_in_range (z : Z) :
  -2147483648 ≤ z ≤ 2147483647 → to_int z = z.
Proof. intros Hz. unfold to_int. rewrite Z.mod_small by lia. lia. Qed.

(** X14: [version_string_from_int] decodes a version number built as
    [major * 10000 + minor * 100 + patch], with [minor] and [patch] below
    100, into the three numbers in decimal separated by dots, as long as
    the number fits the 32-bit [int] of the parameter. *)
Theorem version_string_decodes (major minor patch : Z) :
  0 ≤ major → 0 ≤ minor < 100 → 0 ≤ patch < 100 →
  major * 10000 + minor * 100 + patch ≤ 2147483647 →
  version_string_from_int (major * 10000 + minor * 100 + patch)
  = pretty major +:+ "." +:+ pretty minor +:+ "." +:+ pretty patch.
Proof.
  intros HM Hm Hp Hmax. unfold version_string_from_int.
  rewrite to_int_in_range by lia. cbv zeta.
  set (v := major * 10000 + minor * 100 + patch).
  assert (Hv : 0 ≤ v) by (subst v; lia).
  assert (H1 : v `quot` 10000 = major).
  { rewrite Z.quot_div_nonneg by lia. symmetry.
    apply (Z.div_unique v 10000 major (minor * 100 + patch)); subst v; lia. }
  assert (H2 : v `rem` 10000 = minor * 100 + patch).
  { rewrite Z.rem_mod_nonneg by lia. symmetry.
    apply (Z.mod_unique v 10000 major (minor * 100 + patch)); subst v; lia. }
  assert (H3 : (minor * 100 + patch) `quot` 100 = minor).
  { rewrite Z.quot_div_nonneg by lia. symmetry.
    apply (Z.div_unique _ 100 minor patch); lia. }
  assert (H4 : v `rem` 100 = patch).
  { rewrite Z.rem_mod_nonneg by lia. symmetry.
    apply (Z.mod_unique v 100 (major * 100 + minor) patch); subst v; lia. }
  by rewrite H1, H2, H3, H4.
Qed.

Lemma version_string_decodes_witness :
  (0 ≤ 3 ∧ 0 ≤ 7 < 100 ∧ 0 ≤ 1 < 100
   ∧ 3 * 10000 + 7 * 100 + 1 ≤ 2147483647)
  ∧ version_string_from_int 30701 = "3.7.1"%string.
Proof.
  assert (H1 : 0 ≤ 3) by lia.
  assert (H2 : 0 ≤ 7 < 100) by lia.
  assert (H3 : 0 ≤ 1 < 100) by lia.
  assert (H4 : 3 * 10000 + 7 * 100 + 1 ≤ 2147483647) by lia.
  split; [done|].
  exact (version_string_decodes 3 7 1 H1 H2 H3 H4).
Defined.

(** Beyond the range of [int] the number arrives wrapped, and a
    negative number keeps its sign in every part. *)
Example version_string_out_of_range :
  version_string_from_int 2147490000 = "-214747.-72.-96"%string
  ∧ version_string_from_int (-30701) = "-3.-7.-1"%string.
Proof. split; reflexivity. Qed.

Section finalize.
Context {W : Type}.
Variable profiling_finalize : W → W.
Variable finalize_spaces : W → W.

Lemma run_hooks_total (fs : list (W → W)) (rest : list (hook_function_type W))
    (n : nat) (w : W) :
  run_finalize_hooks (((λ f w, Some (f w)) <$> fs) ++ rest) n w
  = run_finalize_hooks rest (n + length fs) (foldl (λ w f, f w) w fs).
Proof.
  revert n w. induction fs as [|f fs IH]; intros n w.
  - simpl. by rewrite Nat.add_0_r.
  - simpl. rewrite IH. f_equal. lia.
Qed.

Lemma push_all_hooks (hs : list (hook_function_type W)) (s : globals W) :
  finalize_hooks (foldl (λ s f, push_finalize_hook f s) s hs)
    = reverse hs ++ finalize_hooks s
  ∧ world (foldl (λ s f, push_finalize_hook f s) s hs) = world s.
Proof.
  revert s. induction hs as [|h hs IH]; intros s; [done|].
  cbn [foldl]. destruct (IH (push_finalize_hook h s)) as [-> ->].
  rewrite reverse_cons. simpl. by rewrite <- app_assoc.
Qed.

Lemma foldl_reverse_apply (fs : list (W → W)) (w : W) :
  foldl (λ w f, f w) w (reverse fs) = foldr (λ f w, f w) w fs.
Proof.
  induction fs as [|f fs IH]; [done|].
  rewrite reverse_cons, foldl_snoc, IH. done.
Qed.

(** X15: [Kokkos::finalize] calls the finalize hooks in the reverse
    order of their pushes, each once.  After hooks that do not throw it
    leaves the stack empty (a second call runs no hook), hands the world
    on to the tools and the back ends, and resets the globals:
    [is_initialized()] is false, warnings are shown, internal tuning is
    off. *)
Theorem finalize_runs_hooks_in_reverse (fs : list (W → W)) (s : globals W) :
  finalize_hooks s = [] →
  let pushed :=
    foldl (λ s f, push_finalize_hook (λ w, Some (f w)) s) s fs in
  finalize_internal profiling_finalize finalize_spaces pushed
  = Returned {| g_is_initialized := false;
                g_show_warnings := true;
                g_tune_internals := false;
                finalize_hooks := [];
                world := finalize_spaces
                           (profiling_finalize
                              (foldr (λ f w, f w) (world s) fs)) |}.
Proof.
  intros Hs pushed. unfold finalize_internal.
  assert (Hp : pushed = foldl (λ s f, push_finalize_hook f s) s
                          ((λ f w, Some (f w)) <$> fs)).
  { subst pushed. clear. revert s.
    induction fs as [|f fs IH]; intros s; [done|]. simpl. apply IH. }
  destruct (push_all_hooks ((λ f w, Some (f w)) <$> fs) s) as [Hh Hw].
  rewrite <- Hp in Hh, Hw. rewrite Hh, Hw, Hs, <- fmap_reverse.
  rewrite run_hooks_total. simpl. by rewrite foldl_reverse_apply.
Qed.

(** X16: when a finalize hook throws, [Kokkos::finalize] ends in
    [std::terminate()]: the message counts the hooks that completed and
    the hooks still on the stack, the thrower included.  No hook below
    the thrower is called and the globals are not reset. *)
Theorem finalize_terminates_on_throw (fs : list (W → W))
    (thrower : hook_function_type W) (below : list (hook_function_type W))
    (s : globals W) :
  finalize_hooks s = ((λ f w, Some (f w)) <$> fs) ++ thrower :: below →
  thrower (foldl (λ w f, f w) (world s) fs) = None →
  finalize_internal profiling_finalize finalize_spaces s
  = Terminated (length fs) (S (length below)).
Proof.
  intros Hs Hthrow. unfold finalize_internal.
  rewrite Hs, run_hooks_total. simpl. by rewrite Hthrow.
Qed.

End finalize.

Lemma finalize_runs_hooks_in_reverse_witness :
  let s := {| g_is_initialized := true; g_show_warnings := false;
              g_tune_internals := true; finalize_hooks := [];
              world := [0] |} in
  let pushed :=
    foldl (λ s f, push_finalize_hook (λ w, Some (f w)) s) s
          [λ w, w ++ [1]; λ w, w ++ [2]; λ w, w ++ [3]] in
  finalize_hooks s = []
  ∧ finalize_internal (λ w, w ++ [10]) (λ w, w ++ [20]) pushed
    = Returned {| g_is_initialized := false; g_show_warnings := true;
                  g_tune_internals := false; finalize_hooks := [];
                  world := [0; 3; 2; 1; 10; 20] |}.
Proof.
  intros s pushed.
  assert (H : finalize_hooks s = []) by reflexivity.
  split; [exact H|].
  exact (finalize_runs_hooks_in_reverse (λ w, w ++ [10]) (λ w, w ++ [20])
           [λ w, w ++ [1]; λ w, w ++ [2]; λ w, w ++ [3]] s H).
Defined.

Lemma finalize_terminates_on_throw_witness :
  let s := {| g_is_initialized := true; g_show_warnings := false;
              g_tune_internals := true;
              finalize_hooks := [λ w, Some (w ++ [3]); λ _, None;
                                 λ w, Some (w ++ [1])];
              world := [0] |} in
  (finalize_hooks s
     = ((λ f w, Some (f w)) <$> [λ w : list Z, w ++ [3]])
       ++ (λ _, None) :: [λ w, Some (w ++ [1])]
   ∧ (λ _ : list Z, @None (list Z)) (foldl (λ w f, f w) (world s)
                                        [λ w : list Z, w ++ [3]]) = None)
  ∧ finalize_internal (λ w, w ++ [10]) (λ w, w ++ [20]) s = Terminated 1 2.
Proof.
  intros s.
  assert (H1 : finalize_hooks s
               = ((λ f w, Some (f w)) <$> [λ w : list Z, w ++ [3]])
                 ++ (λ _, None) :: [λ w, Some (w ++ [1])]) by reflexivity.
  assert (H2 : (λ _ : list Z, @None (list Z))
                 (foldl (λ w f, f w) (world s) [λ w : list Z, w ++ [3]])
               = None) by reflexivity.
  split; [done|].
  exact (finalize_terminates_on_throw (λ w, w ++ [10]) (λ w, w ++ [20])
           [λ w : list Z, w ++ [3]] (λ _, None) [λ w, Some (w ++ [1])] s
           H1 H2).
Defined.

End CoreFacts.

(** ** A pool of one thread runs the sequential loop *)

Module SingleThread.
Import WorkPartitioner WorkStealing StealFacts ForFacts ReduceFacts.

(** With one worker the claimed ranges follow one another. *)
Lemma steal_single_step total chunk b st w rs :
  0 < chunk → 0 ≤ st.1 → st.2 = [rs] →
  worker_indices b rs = indices b (b + Z.min st.1 (Z.max 0 total)) →
  ∃ rs', (steal_step total chunk st w).2 = [rs']
         ∧ 0 ≤ (steal_step total chunk st w).1
         ∧ worker_indices b rs'
           = indices b (b + Z.min (steal_step total chunk st w).1
                                  (Z.max 0 total)).
Proof.
  intros Hc Hcur Hst Hrs. unfold steal_step. rewrite Hst.
  destruct w as [|w]; simpl; [|by exists rs; rewrite Hst].
  destruct (finished rs); [by exists rs; rewrite Hst|].
  unfold get_work_stealing_chunk.
  destruct (Z.ltb_spec st.1 total) as [Hlt|Hge]; simpl.
  - eexists. split; [done|]. split; [lia|].
    unfold worker_indices in *. rewrite fmap_app, concat_app, Hrs. simpl.
    rewrite app_nil_r. unfold range_indices. simpl.
    rewrite (indices_app b (b + st.1)
               (b + Z.min (st.1 + chunk) (Z.max 0 total))) by lia.
    f_equal; f_equal; lia.
  - eexists. split; [done|]. split; [done|].
    unfold worker_indices in *. rewrite fmap_app, concat_app, Hrs. simpl.
    rewrite app_nil_r. unfold range_indices. simpl.
    rewrite (indices_nil (-1 + b)) by lia. by rewrite app_nil_r.
Qed.

Lemma steal_single_run total chunk b ws st rs :
  0 < chunk → 0 ≤ st.1 → st.2 = [rs] →
  worker_indices b rs = indices b (b + Z.min st.1 (Z.max 0 total)) →
  ∃ rs', (foldl (steal_step total chunk) st ws).2 = [rs']
         ∧ worker_indices b rs'
           = indices b (b + Z.min (foldl (steal_step total chunk) st ws).1
                                  (Z.max 0 total)).
Proof.
  intros Hc. revert st rs. induction ws as [|w ws IH]; intros st rs H0 Hst Hrs.
  - by exists rs.
  - simpl.
    destruct (steal_single_step total chunk b st w rs Hc H0 Hst Hrs)
      as (rs1 & H1 & H2 & H3).
    by apply (IH _ rs1).
Qed.

(** The one worker of a pool of one receives the whole range, in
    ascending order, under either schedule. *)
Lemma single_worker_indices p arrivals :
  0 < chunk_size p →
  worker_indices (pbegin p) (work_ranges p 1 arrivals 0)
  = indices (pbegin p) (pend p).
Proof.
  intros Hc. unfold work_ranges. destruct (is_dynamic p).
  - unfold steal_run.
    set (total := pend p - pbegin p).
    set (st' := foldl _ _ _).
    destruct (steal_single_run total (chunk_size p) (pbegin p)
                (arrivals ++ drain total (chunk_size p) 1)
                (0, replicate 1 []) [] Hc ltac:(done) eq_refl)
      as (rs & Hrs & Hidx).
    { simpl. by rewrite indices_nil by lia. }
    fold st' in Hrs, Hidx. rewrite Hrs. simpl. rewrite Hidx.
    assert (Hinv : steal_inv total (chunk_size p) (pbegin p) 1 st').
    { apply steal_inv_run; [done|]. apply steal_inv_init. }
    assert (Hfin : finished rs = true).
    { pose proof Hrs as Hrs2. unfold st' in Hrs2.
      rewrite foldl_app in Hrs2. unfold drain in Hrs2.
      set (st := foldl _ _ arrivals) in Hrs2.
      assert (steal_inv total (chunk_size p) (pbegin p) 1 st) as Hst.
      { apply steal_inv_run; [done|]. apply steal_inv_init. }
      destruct (steal_drain total (chunk_size p) (pbegin p) 1 1 st Hc
                  ltac:(lia) Hst 0%nat ltac:(lia)) as (rs0 & Hrs0 & Hf).
      rewrite Hrs2 in Hrs0. simpl in Hrs0. by injection Hrs0 as ->. }
    pose proof (inv_done _ _ _ _ _ Hinv) as Hd.
    rewrite Forall_lookup in Hd.
    assert (Hl : st'.2 !! 0%nat = Some rs) by by rewrite Hrs.
    specialize (Hd _ _ Hl Hfin).
    pose proof (inv_cursor _ _ _ _ _ Hinv).
    replace (Z.min st'.1 (Z.max 0 total)) with (Z.max 0 total) by lia.
    apply indices_max.
  - pose proof (slices_shifted (pend p - pbegin p) (chunk_size p) (pbegin p) 1
                  Hc ltac:(lia)) as Hs.
    simpl in Hs. rewrite app_nil_r in Hs.
    unfold worker_indices, range_indices. simpl. rewrite app_nil_r.
    rewrite Hs. apply indices_max.
Qed.

Lemma filter_all {A : Type} (P : A → Prop) `{∀ x, Decision (P x)}
    (l : list A) :
  (∀ x, P x) → filter P l = l.
Proof.
  intros HP. induction l as [|x l IH]; [done|].
  rewrite filter_cons_True by done. by rewrite IH.
Qed.

(** X17: with a pool of one thread [ParallelFor] over a [RangePolicy]
    is the sequential loop: in the nested call, in both builds and
    under both schedules the functor is called on
    [begin .. end - 1] in ascending order. *)
Theorem run_for_single_thread in_parallel native p arrivals :
  0 < chunk_size p →
  concat (ParallelForRange.calls
            <$> ParallelForRange.execute in_parallel native 1 p arrivals)
  = indices (pbegin p) (pend p).
Proof.
  intros Hc. unfold ParallelForRange.execute.
  destruct in_parallel.
  { simpl. by rewrite calls_exec_range, app_nil_r. }
  destruct native.
  - unfold ParallelForRange.execute_parallel.
    destruct (schedule p) eqn:Hs.
    + unfold ParallelForRange.omp_for_static. simpl.
      rewrite app_nil_r, calls_Call. apply filter_all. intros x.
      pose proof (omp_static_owner_lt (chunk_size p) 1 (x - pbegin p)
                    ltac:(lia)). lia.
    + destruct (Z.leb_spec (pend p) (pbegin p)).
      * by rewrite indices_nil.
      * rewrite <- (single_worker_indices p arrivals Hc).
        unfold work_ranges, is_dynamic. rewrite Hs.
        unfold ParallelForRange.omp_for_dynamic.
        pose proof (steal_run_length (pend p - pbegin p) (chunk_size p) 1
                      arrivals Hc) as Hlen.
        destruct (steal_run _ _ 1 arrivals) as [|rs [|? ?]]; try done.
        simpl. by rewrite app_nil_r, calls_ranges.
  - simpl. rewrite app_nil_r, worker_trace by done.
    rewrite calls_app, calls_ranges.
    replace (ParallelForRange.calls
               (if is_dynamic p then [ParallelForRange.PoolRendezvous] else []))
      with (@nil Z) by (by destruct (is_dynamic p)).
    simpl. by apply single_worker_indices.
Qed.

Lemma run_for_single_thread_witness :
  let p := {| pbegin := 2; pend := 9; chunk_size := 3; schedule := Dynamic |} in
  0 < chunk_size p
  ∧ concat (ParallelForRange.calls
              <$> ParallelForRange.execute false false 1 p [0; 0]%nat)
    = [2; 3; 4; 5; 6; 7; 8].
Proof.
  intros p.
  assert (H : 0 < chunk_size p) by (simpl; lia).
  split; [exact H|].
  exact (run_for_single_thread false false p [0; 0]%nat H).
Defined.

(** X18: with a pool of one thread [ParallelReduce] over a
    [RangePolicy] is the sequential loop followed by [final]: whatever
    the functor and the Reducer, under both schedules, the value written
    is [final] of the functor folded from [init] over
    [begin .. end - 1] in ascending order, and [join] is not called. *)
Theorem run_reduce_single_thread {V : Type} (R : Reducer V)
    (functor : Z → V → V) p (s : V) arrivals :
  0 < chunk_size p →
  (ParallelReduceRange.execute R functor p [s] arrivals true).2
  = Some (final R (foldl (λ u i, functor i u) (init R)
                     (indices (pbegin p) (pend p)))).
Proof.
  intros Hc.
  destruct (Z.le_gt_cases (pend p) (pbegin p)) as [He|Hne].
  - rewrite execute_empty by done. simpl. by rewrite indices_nil.
  - rewrite execute_merge by lia. simpl.
    by rewrite worker_fold, single_worker_indices.
Qed.

Lemma run_reduce_single_thread_witness :
  let p := {| pbegin := 0; pend := 3; chunk_size := 2; schedule := Dynamic |} in
  0 < chunk_size p
  ∧ (ParallelReduceRange.execute log_reducer log_functor p [[DidFinal]]
       [0]%nat true).2
    = Some [DidInit; DidCall 0; DidCall 1; DidCall 2; DidFinal].
Proof.
  intros p.
  assert (H : 0 < chunk_size p) by (simpl; lia).
  split; [exact H|].
  exact (run_reduce_single_thread log_reducer log_functor p [DidFinal]
           [0]%nat H).
Defined.

Lemma single_WorkRange p :
  0 < chunk_size p →
  WorkRange p 0 1 = (pbegin p, pbegin p + Z.max 0 (pend p - pbegin p)).
Proof.
  intros Hc. unfold WorkRange.
  rewrite PartitionFacts.get_work_partition_cut. cbn [fst snd].
  rewrite PartitionFacts.cut_0 by lia.
  rewrite (PartitionFacts.cut_last _ _ 1) by (done || lia).
  f_equal. lia.
Qed.

(** X19: with a pool of one thread the scan runs the functor over
    [begin .. end - 1] in ascending order twice, first with
    [final = false] and then with [final = true], each time starting
    from [init]; [ParallelScanWithTotal] stores the value the second
    run ends with.  This holds whatever the functor and the Reducer. *)
Theorem run_scan_single_thread {V : Type} (R : Reducer V)
    (functor : Z → V → bool → V) with_total p (s : ParallelScan.slot V) :
  0 < chunk_size p →
  let out := ParallelScan.execute R functor with_total p [s] in
  let run := λ fin i,
    foldl (λ u k, functor k u fin) (init R) (indices (pbegin p) i) in
  let pass := λ fin,
    (λ i, {| ParallelScan.c_index := i;
             ParallelScan.c_update := run fin i;
             ParallelScan.c_final := fin |})
      <$> indices (pbegin p) (pend p) in
  ParallelScan.out_discovery out = [pass false]
  ∧ ParallelScan.out_final out = [pass true]
  ∧ ParallelScan.out_published out
    = (if with_total then [(0%nat, run true (pend p))] else []).
Proof.
  intros Hc out run pass. subst out. unfold ParallelScan.execute.
  cbn [length imap fmap list_fmap]. unfold ParallelScan.pass1.
  rewrite single_WorkRange by done. cbn [fst snd].
  rewrite ScanFacts.exec_range_spec, indices_max.
  cbn [fst snd]. unfold ParallelScan.carry_walk.
  cbn [length seq foldl ParallelScan.carry_step alter list_alter].
  cbn [ParallelScan.update_sum imap].
  unfold ParallelScan.pass2. rewrite single_WorkRange by done.
  cbn [fst snd ParallelScan.update_base].
  rewrite ScanFacts.exec_range_spec, indices_max.
  cbn [ParallelScan.out_discovery ParallelScan.out_final
       ParallelScan.out_published fmap list_fmap fst snd].
  split; [done|]. split; [done|].
  destruct with_total; [|done]. done.
Qed.

Lemma run_scan_single_thread_witness :
  let p := {| pbegin := 1; pend := 4; chunk_size := 2; schedule := Static |} in
  let f := λ (i u : Z) (fin : bool), if fin then 2 * u + i else u - i in
  let out := ParallelScan.execute sum_reducer f true p
               [ {| ParallelScan.update_sum := 8;
                    ParallelScan.update_base := 9 |} ] in
  0 < chunk_size p
  ∧ ParallelScan.out_discovery out
    = [[ {| ParallelScan.c_index := 1; ParallelScan.c_update := 0;
            ParallelScan.c_final := false |};
         {| ParallelScan.c_index := 2; ParallelScan.c_update := -1;
            ParallelScan.c_final := false |};
         {| ParallelScan.c_index := 3; ParallelScan.c_update := -3;
            ParallelScan.c_final := false |} ]]
  ∧ ParallelScan.out_final out
    = [[ {| ParallelScan.c_index := 1; ParallelScan.c_update := 0;
            ParallelScan.c_final := true |};
         {| ParallelScan.c_index := 2; ParallelScan.c_update := 1;
            ParallelScan.c_final := true |};
         {| ParallelScan.c_index := 3; ParallelScan.c_update := 4;
            ParallelScan.c_final := true |} ]]
  ∧ ParallelScan.out_published out = [(0%nat, 11)].
Proof.
  intros p f out.
  assert (H : 0 < chunk_size p) by (simpl; lia).
  split; [exact H|].
  exact (run_scan_single_thread sum_reducer f true p
           {| ParallelScan.update_sum := 8; ParallelScan.update_base := 9 |} H).
Defined.

End SingleThread.

(** ** Teams in the whole region *)

Module TeamRegion.
Import WorkPartitioner TeamOrganizer ParallelForTeam StealFacts TeamFacts.



















End TeamRegion.
